(** * Transition counting over tree-sequence mutations

    A shallow embedding of the helper functions of the workshop notebooks:
    [count_transitions] (mutation notebook) and
    [find_nearest_neighbour_populations] (inference notebook), together with
    the mutation-model and validator contracts of the specification. *)

From Stdlib Require Import ZArith QArith Qabs Qminmax Lia Ascii String.
From stdpp Require Import base tactics option list strings gmap pretty.

Local Open Scope Z_scope.

(** ** Exceptions and results *)

(** The Python exceptions the modelled code can raise.  [ValueError] is what
    [list.index] raises for an absent element, [IndexError] what an id or an
    array index out of bounds raises. *)
Inductive exn : Set :=
  | ValueError
  | IndexError
  | TypeError
  | ZeroDivisionError
  | ModelValidationError
  | DimensionMismatchError.

Inductive result (A : Type) : Type :=
  | OK (a : A)
  | Err (e : exn).
Arguments OK {A} a.
Arguments Err {A} e.

#[global] Instance exn_eq_dec : EqDecision exn.
Proof. solve_decision. Defined.

Definition is_OK {A : Type} (r : result A) : Prop :=
  match r with
  | OK _ => True
  | Err _ => False
  end.

#[global] Instance is_OK_dec {A : Type} (r : result A) : Decision (is_OK r).
Proof. destruct r; simpl; apply _. Defined.

#[global] Instance result_ret : MRet result := fun _ a => OK a.
#[global] Instance result_bind : MBind result := fun _ _ f m =>
  match m with
  | OK a => f a
  | Err e => Err e
  end.
#[global] Instance result_fmap : FMap result := fun _ _ f m =>
  match m with
  | OK a => OK (f a)
  | Err e => Err e
  end.

(** A [for] loop whose body may raise: the first exception ends the loop. *)
Fixpoint for_each {A S : Type} (body : S -> A -> result S) (s : S) (l : list A)
  : result S :=
  match l with
  | [] => OK s
  | x :: l' => s' ← body s x; for_each body s' l'
  end.

(** ** Tree-sequence records (the part of the tskit API the notebooks use) *)

(** [tskit.NULL] *)
Definition NULL : Z := -1.

Record Mutation : Set := mkMutation {
  derived_state : string;
  parent : Z
}.

Record Site : Set := mkSite {
  ancestral_state : string;
  mutations : list Mutation
}.

Record Node : Set := mkNode {
  population : Z
}.

#[global] Instance Mutation_eq_dec : EqDecision Mutation.
Proof. solve_decision. Defined.

#[global] Instance Site_eq_dec : EqDecision Site.
Proof. solve_decision. Defined.

#[global] Instance Node_eq_dec : EqDecision Node.
Proof. solve_decision. Defined.

(** [ts_sites] is what [ts.sites()] iterates over; [ts_mutations] and
    [ts_nodes] are the tables that [ts.mutation(id)] and [ts.node(id)] read. *)
Record TreeSequence : Set := mkTreeSequence {
  ts_sites : list Site;
  ts_mutations : list Mutation;
  ts_nodes : list Node
}.

(** tskit's row accessors take an id; as for Python lists a negative id counts
    from the end, and an id outside the table raises [IndexError]. *)
Definition check_index (index : Z) (length : nat) : result nat :=
  let index := if index <? 0 then index + Z.of_nat length else index in
  if (index <? 0) || (Z.of_nat length <=? index)
  then Err IndexError
  else OK (Z.to_nat index).

Definition table_row {A : Type} (table : list A) (id_ : Z) : result A :=
  i ← check_index id_ (length table);
  match table !! i with
  | Some row => OK row
  | None => Err IndexError
  end.

Definition mutation (ts : TreeSequence) (id_ : Z) : result Mutation :=
  table_row (ts_mutations ts) id_.

Definition node (ts : TreeSequence) (id_ : Z) : result Node :=
  table_row (ts_nodes ts) id_.

(** ** numpy integer matrices *)

Abbreviation matrix := (list (list Z)).

(** [np.zeros((r, c), dtype='int')] *)
Definition np_zeros (r c : nat) : matrix := replicate r (replicate c 0).

(** numpy's default integer is a signed 64-bit word; arithmetic on it wraps. *)
Definition wrap64 (z : Z) : Z := (z + 2 ^ 63) mod 2 ^ 64 - 2 ^ 63.

Definition entry (counts : matrix) (i j : nat) : option Z :=
  row ← counts !! i; row !! j.

(** [counts[i, j] += 1]; an index outside the array raises [IndexError]. *)
Definition np_incr (counts : matrix) (i j : nat) : result matrix :=
  match entry counts i j with
  | Some _ => OK (alter (alter (fun c => wrap64 (c + 1)) j) i counts)
  | None => Err IndexError
  end.

(** Elementwise [a + b] of two arrays of the same shape. *)
Definition np_add (a b : matrix) : matrix :=
  zip_with (zip_with (fun x y => wrap64 (x + y))) a b.

(** ** [count_transitions]: the tabulating loops *)

(** [alleles.index(x)] *)
Fixpoint index (alleles : list string) (x : string) : result nat :=
  match alleles with
  | [] => Err ValueError
  | a :: alleles' =>
      if decide (a = x) then OK 0%nat else S <$> index alleles' x
  end.

(** The body of the inner loop, for one mutation [m] of a site whose
    ancestral state is [aa]. *)
Definition count_mutation (ts : TreeSequence) (alleles : list string)
    (aa : string) (counts : matrix) (m : Mutation) : result matrix :=
  let pa := aa in
  let da := derived_state m in
  pa ← (if decide (parent m ≠ NULL)
        then pm ← mutation ts (parent m); OK (derived_state pm)
        else OK pa);
  i ← index alleles pa;
  j ← index alleles da;
  np_incr counts i j.

(** The body of the outer loop, for one site. *)
Definition count_site (ts : TreeSequence) (alleles : list string)
    (counts : matrix) (s : Site) : result matrix :=
  let aa := ancestral_state s in
  for_each (count_mutation ts alleles aa) counts (mutations s).

(** The two loops run over the sites [sites], starting from [counts]. *)
Definition count_sites (ts : TreeSequence) (alleles : list string)
    (counts : matrix) (sites : list Site) : result matrix :=
  for_each (count_site ts alleles) counts sites.

(** The matrix [counts] as it stands when the loops of
    [count_transitions(ts, alleles)] are over. *)
Definition count_matrix (ts : TreeSequence) (alleles : list string)
  : result matrix :=
  let counts := np_zeros (length alleles) (length alleles) in
  count_sites ts alleles counts (ts_sites ts).

(** ** The Python store: objects, references and standard output *)

Definition loc : Set := positive.

Inductive object : Set :=
  | ONdarray (a : matrix)
  | OList (l : list string)
  | OTreeSequence (ts : TreeSequence).

Inductive value : Set :=
  | VNone
  | VRef (l : loc).

Record World : Type := mkWorld {
  heap : gmap loc object;
  stdout : list string
}.

(** A Python computation: it transforms the world and either yields a value
    or raises.  The world is kept in both cases. *)
Definition Py (A : Type) : Type := World -> World * result A.

#[global] Instance Py_ret : MRet Py := fun _ a w => (w, OK a).
#[global] Instance Py_bind : MBind Py := fun _ _ f m w =>
  match m w with
  | (w', OK a) => f a w'
  | (w', Err e) => (w', Err e)
  end.

Definition lift {A : Type} (r : result A) : Py A := fun w => (w, r).

Fixpoint py_for {A : Type} (body : A -> Py unit) (l : list A) : Py unit :=
  match l with
  | [] => mret tt
  | x :: l' => body x ≫= fun _ => py_for body l'
  end.

Definition alloc (o : object) : Py loc := fun w =>
  let l := fresh (dom (heap w)) in
  (mkWorld (<[l := o]> (heap w)) (stdout w), OK l).

Definition get_list (l : loc) : Py (list string) := fun w =>
  match heap w !! l with
  | Some (OList al) => (w, OK al)
  | _ => (w, Err TypeError)
  end.

Definition get_ts (l : loc) : Py TreeSequence := fun w =>
  match heap w !! l with
  | Some (OTreeSequence ts) => (w, OK ts)
  | _ => (w, Err TypeError)
  end.

Definition get_array (l : loc) : Py matrix := fun w =>
  match heap w !! l with
  | Some (ONdarray a) => (w, OK a)
  | _ => (w, Err TypeError)
  end.

Definition set_array (l : loc) (a : matrix) : Py unit := fun w =>
  (mkWorld (<[l := ONdarray a]> (heap w)) (stdout w), OK tt).

(** [print(line)] *)
Definition print (line : string) : Py unit := fun w =>
  (mkWorld (heap w) (stdout w ++ [line]), OK tt).

(** ** [count_transitions] as the notebook has it: tabulate, then print *)

Definition tab : string := String "009"%char EmptyString.

(** [sep.join(l)] *)
Fixpoint join (sep : string) (l : list string) : string :=
  match l with
  | [] => EmptyString
  | [x] => x
  | x :: l' => x +:+ sep +:+ join sep l'
  end.

(** [print(x, y)] writes its two arguments separated by one space. *)
Definition print2 (x y : string) : Py unit := print (x +:+ " " +:+ y).

Definition header_line (alleles : list string) : string :=
  tab +:+ " " +:+ join tab alleles.

Definition row_line (a : string) (row : list Z) : string :=
  (a +:+ tab) +:+ " " +:+ join tab (pretty <$> row).

(** One pass of the inner loop body on the store: [ts], [alleles] and
    [counts] are references. *)
Definition count_mutation_py (ts alleles counts : loc) (aa : string)
    (m : Mutation) : Py unit :=
  let pa := aa in
  let da := derived_state m in
  pa ← (if decide (parent m ≠ NULL)
        then t ← get_ts ts; pm ← lift (mutation t (parent m));
             mret (derived_state pm)
        else mret pa);
  al ← get_list alleles;
  i ← lift (index al pa);
  al ← get_list alleles;
  j ← lift (index al da);
  c ← get_array counts;
  c' ← lift (np_incr c i j);
  set_array counts c'.

Definition count_site_py (ts alleles counts : loc) (s : Site) : Py unit :=
  let aa := ancestral_state s in
  py_for (count_mutation_py ts alleles counts aa) (mutations s).

Definition print_row (counts : loc) (ja : nat * string) : Py unit :=
  c ← get_array counts;
  match c !! ja.1 with
  | Some row => print2 (ja.2 +:+ tab) (join tab (pretty <$> row))
  | None => lift (Err IndexError)
  end.

(** [count_transitions(ts, alleles)]: the function returns [None]; what it
    computes goes to standard output. *)
Definition count_transitions (ts alleles : loc) : Py value :=
  al ← get_list alleles;
  counts ← alloc (ONdarray (np_zeros (length al) (length al)));
  t ← get_ts ts;
  _ ← py_for (count_site_py ts alleles counts) (ts_sites t);
  al ← get_list alleles;
  _ ← print2 tab (join tab al);
  _ ← py_for (print_row counts) (imap pair al);
  mret VNone.

(** ** What the specification counts *)

#[global] Instance result_eq_dec {A : Type} `{EqDecision A} :
  EqDecision (result A).
Proof. solve_decision. Defined.

(** The state a mutation starts from: the site's ancestral state when the
    mutation has no parent, the parent mutation's derived state otherwise. *)
Definition effective_parent_state (ts : TreeSequence) (s : Site)
    (m : Mutation) : result string :=
  if decide (parent m = NULL) then OK (ancestral_state s)
  else derived_state <$> mutation ts (parent m).

(** The mutation events of a list of sites, each with the site it sits on. *)
Definition events (sites : list Site) : list (Site * Mutation) :=
  s ← sites; pair s <$> mutations s.

(** Event [e] is a transition from state [a] to state [b]. *)
Definition is_transition (ts : TreeSequence) (a b : string)
    (e : Site * Mutation) : Prop :=
  effective_parent_state ts e.1 e.2 = OK a ∧ derived_state e.2 = b.

#[global] Instance is_transition_dec ts a b e :
  Decision (is_transition ts a b e).
Proof. unfold is_transition. apply _. Defined.

(** Number of events of [sites] that go from [a] to [b]. *)
Definition transitions (ts : TreeSequence) (sites : list Site)
    (a b : string) : nat :=
  length (filter (is_transition ts a b) (events sites)).

(** The derived state of the parent of [m], when [m] has one. *)
Definition parent_states (ts : TreeSequence) (m : Mutation) : list string :=
  if decide (parent m = NULL) then []
  else match mutation ts (parent m) with
       | OK pm => [derived_state pm]
       | Err _ => []
       end.

(** All observed states: every site's ancestral state, every mutation's
    derived state and the derived state of every mutation's parent. *)
Definition observed_states (ts : TreeSequence) : list string :=
  s ← ts_sites ts;
  ancestral_state s :: (m ← mutations s; derived_state m :: parent_states ts m).

(** The states the loops look up in [alleles]: for every mutation its
    effective parent state and its derived state. *)
Definition counted_states (ts : TreeSequence) : list string :=
  e ← events (ts_sites ts);
  match effective_parent_state ts e.1 e.2 with
  | OK pa => [pa; derived_state e.2]
  | Err _ => [derived_state e.2]
  end.

(** tskit stores ids in 32 bits, so a table has at most [2^31 - 1] rows. *)
Definition max_rows : Z := 2 ^ 31 - 1.

(** What tskit guarantees of a loaded tree sequence, as far as the counting
    goes: a mutation's parent is [NULL] or the id of a row of the mutation
    table, and the number of mutations fits the id type. *)
Definition parents_resolve (ts : TreeSequence) : Prop :=
  Forall (fun e : Site * Mutation =>
            parent e.2 = NULL ∨ 0 <= parent e.2 < Z.of_nat (length (ts_mutations ts)))
         (events (ts_sites ts)).

Definition valid_ts (ts : TreeSequence) : Prop :=
  parents_resolve ts ∧ Z.of_nat (length (events (ts_sites ts))) <= max_rows.

(** The same tables with another list of sites to iterate over: a shard, or
    the sites in another order. *)
Definition with_sites (ts : TreeSequence) (sites : list Site) : TreeSequence :=
  mkTreeSequence sites (ts_mutations ts) (ts_nodes ts).

(** A [k]-by-[k] array. *)
Definition shape (k : nat) (counts : matrix) : Prop :=
  length counts = k ∧ Forall (fun row => length row = k) counts.

(** Sum of all the entries of an array. *)
Definition sumZ (l : list Z) : Z := foldr Z.add 0 l.
Definition matrix_sum (counts : matrix) : Z := sumZ (sumZ <$> counts).

(** The cell of [counts] that event [e] increments. *)
Definition cell (ts : TreeSequence) (alleles : list string)
    (e : Site * Mutation) : result (nat * nat) :=
  pa ← effective_parent_state ts e.1 e.2;
  i ← index alleles pa;
  j ← index alleles (derived_state e.2);
  OK (i, j).

Definition count_event (ts : TreeSequence) (alleles : list string)
    (counts : matrix) (e : Site * Mutation) : result matrix :=
  c ← cell ts alleles e; np_incr counts c.1 c.2.

(** ** The mutation model and its validation (specification §3 and §4.1) *)

(** Modelled from the spec: the model record with its three attributes, as
    the notebooks read them off [msprime]'s models ([.alleles],
    [.root_distribution], [.transition_matrix]); probabilities are exact
    rationals here. *)
Record MutationModel : Set := mkMutationModel {
  alleles : list string;
  root_distribution : list Q;
  transition_matrix : list (list Q)
}.

(** The tolerance [1e-9] of §3. *)
Definition tolerance : Q := 1 # 1000000000.

Definition sumQ (l : list Q) : Q := foldr Qplus 0%Q l.

Definition sums_to_one (l : list Q) : Prop :=
  (Qabs (sumQ l - 1) <= tolerance)%Q.

Definition non_negative (p : Q) : Prop := (0 <= p)%Q.

(** The invariants of §3 that [construct] enforces. *)
Definition model_invariant (m : MutationModel) : Prop :=
  let k := length (alleles m) in
  (length (root_distribution m) = k ∧
   length (transition_matrix m) = k ∧
   Forall (fun row => length row = k) (transition_matrix m)) ∧
  (Forall non_negative (root_distribution m) ∧
   Forall (Forall non_negative) (transition_matrix m)) ∧
  Forall sums_to_one (transition_matrix m) ∧
  sums_to_one (root_distribution m).

Definition sums_to_one_b (l : list Q) : bool :=
  Qle_bool (Qabs (sumQ l - 1)) tolerance.

Definition non_negative_b (p : Q) : bool := Qle_bool 0 p.

(** Modelled from the spec: [construct(alleles, root_distribution,
    transition_matrix)] of §4.1, which is not among the sources.  The checks
    are those the contract lists, in its order: lengths, negative
    probabilities, row sums, root-distribution sum. *)
Definition construct (alleles : list string) (root_distribution : list Q)
    (transition_matrix : list (list Q)) : result MutationModel :=
  let k := length alleles in
  if negb (bool_decide (length root_distribution = k)
           && bool_decide (length transition_matrix = k)
           && forallb (fun row => bool_decide (length row = k)) transition_matrix)
  then Err ModelValidationError
  else if negb (forallb non_negative_b root_distribution
                && forallb (forallb non_negative_b) transition_matrix)
  then Err ModelValidationError
  else if negb (forallb sums_to_one_b transition_matrix)
  then Err ModelValidationError
  else if negb (sums_to_one_b root_distribution)
  then Err ModelValidationError
  else OK (mkMutationModel alleles root_distribution transition_matrix).

(** ** The validator (specification §4.3) *)

(** One row of the conformance report.  A skipped row has neither a statistic
    nor a pass/fail verdict. *)
Record RowReport : Set := mkRowReport {
  row_index : nat;
  statistic : option Q;
  verdict : option bool;
  insufficient_data : bool
}.

(** The largest absolute deviation between the empirical proportions
    [row[j] / n] and the model's probabilities. *)
Definition max_abs_deviation (n : Z) (row : list Z) (probs : list Q) : Q :=
  foldr Qmax 0%Q
    (zip_with (fun c p => Qabs (inject_Z c / inject_Z n - p)%Q) row probs).

Definition check_row (tol : Q) (i : nat) (row : list Z) (probs : list Q)
  : RowReport :=
  let n := sumZ row in
  if decide (0 < n)
  then let d := max_abs_deviation n row probs in
       mkRowReport i (Some d) (Some (Qle_bool d tol)) false
  else mkRowReport i None None true.

Definition shape_b (k : nat) (counts : matrix) : bool :=
  bool_decide (length counts = k)
  && forallb (fun row => bool_decide (length row = k)) counts.

(** Modelled from the spec: [check_conformance(counts, model, tolerance)] of
    §4.3, which is not among the sources.  The statistic is the maximum
    absolute deviation; a row passes when it is at most [tol]. *)
Definition check_conformance (counts : matrix) (model : MutationModel)
    (tol : Q) : result (list RowReport) :=
  if shape_b (length (alleles model)) counts
  then OK (imap (fun i rp => check_row tol i rp.1 rp.2)
                (zip counts (transition_matrix model)))
  else Err DimensionMismatchError.

(** ** [find_nearest_neighbour_populations] *)

(** The part of tskit's [Tree] the function calls: [t.parent(u)], which is
    [-1] for a root, and the leaves below a node, [t.leaves(u=p)]. *)
Record Tree : Type := mkTree {
  tree_parent : Z -> result Z;
  tree_leaves : Z -> list Z
}.

(** A list comprehension whose element expression may raise. *)
Fixpoint comprehension {A B : Type} (f : A -> result B) (l : list A)
  : result (list B) :=
  match l with
  | [] => OK []
  | x :: l' => y ← f x; ys ← comprehension f l'; OK (y :: ys)
  end.

(** [a / b] on integers: true division, which raises on a zero divisor.
    The quotient is kept exact. *)
Definition true_div (a b : Z) : result Q :=
  if decide (b = 0) then Err ZeroDivisionError
  else OK (inject_Z a / inject_Z b)%Q.

(** The dictionary [pop_proportions] that the function fills and never
    reads. *)
Definition pop_proportions (relative_populations : list Z) : gmap Z Z :=
  foldl (fun d pop =>
           let d := if decide (d !! pop = None) then <[pop := 0]> d else d in
           <[pop := default 0 (d !! pop) + 1]> d)
        ∅ relative_populations.

(** [ts_dated] is a global of the notebook; here it is an argument. *)
Definition find_nearest_neighbour_populations (ts_dated : TreeSequence)
    (t : Tree) (focal_sample : Z) : result (Q * Q) :=
  p ← tree_parent t focal_sample;
  if decide (p = -1) then OK (0%Q, 0%Q)
  else
    let children := filter (fun c => c ≠ focal_sample) (tree_leaves t p) in
    relative_populations ←
      comprehension (fun c => population <$> node ts_dated c) children;
    let _ := pop_proportions relative_populations in
    let count_pop_0 :=
      Z.of_nat (length (filter (fun pop => pop = 0) relative_populations)) in
    let count_pop_1 :=
      Z.of_nat (length relative_populations) - count_pop_0 in
    prop_pop_0 ← true_div count_pop_0 (Z.of_nat (length relative_populations));
    prop_pop_1 ← true_div count_pop_1 (Z.of_nat (length relative_populations));
    OK (prop_pop_0, prop_pop_1).

(** ** Concrete inputs *)

Definition ACGT : list string := ["A"; "C"; "G"; "T"]%string.

(** The scenario of §8: site 1 is [A] with a mutation to [C]; site 2 is [G]
    with a mutation to [T] and, on top of it, a mutation to [A]; site 3 is
    [C] without mutations.  The mutation table holds the three mutations in
    site order, so the third row has the second (id 1) as its parent. *)
Definition scenario_mutations : list Mutation :=
  [ mkMutation "C" NULL; mkMutation "T" NULL; mkMutation "A" 1 ].

Definition scenario_ts : TreeSequence :=
  mkTreeSequence
    [ mkSite "A" [mkMutation "C" NULL];
      mkSite "G" [mkMutation "T" NULL; mkMutation "A" 1];
      mkSite "C" [] ]
    scenario_mutations [].

Definition third : Q := 1 # 3.

Definition scenario_model : MutationModel :=
  mkMutationModel ACGT
    [1 # 4; 1 # 4; 1 # 4; 1 # 4]%Q
    [ [0%Q; third; third; third];
      [third; 0%Q; third; third];
      [third; third; 0%Q; third];
      [third; third; third; 0%Q] ].

Definition scenario_counts : matrix :=
  [ [0; 1; 0; 0];
    [0; 0; 0; 0];
    [0; 0; 0; 1];
    [1; 0; 0; 0] ].

(** A site whose ancestral state [N] is outside the alphabet, first without
    mutations, then with one mutation to [A]. *)
Definition ts_N_silent : TreeSequence :=
  mkTreeSequence [mkSite "N" []] [] [].

Definition ts_N_mutated : TreeSequence :=
  mkTreeSequence [mkSite "N" [mkMutation "A" NULL]] [mkMutation "A" NULL] [].

(** A store that holds the scenario's tree sequence at reference 1 and the
    alphabet at reference 2. *)
Definition scenario_world : World :=
  mkWorld (<[2%positive := OList ACGT]>
             (<[1%positive := OTreeSequence scenario_ts]> ∅)) [].

(** The scenario's sites visited in another order, mutations too. *)
Definition scenario_sites_reordered : list Site :=
  [ mkSite "C" [];
    mkSite "G" [mkMutation "A" 1; mkMutation "T" NULL];
    mkSite "A" [mkMutation "C" NULL] ].

(** A transition matrix whose first row sums to 0.9. *)
Definition short_row_matrix : list (list Q) :=
  [ [0%Q; 3 # 10; 3 # 10; 3 # 10]%Q;
    [third; 0%Q; third; third];
    [third; third; 0%Q; third];
    [third; third; third; 0%Q] ].

(** A tree on the nodes 0 to 5: leaves 0, 1 and 2 below node 3, node 3 and
    leaf 4 below the root 5. Populations: nodes 0 and 1 in population 0,
    nodes 2 and 4 in population 1. *)
Definition example_tree : Tree :=
  mkTree
    (fun u => if decide (0 <= u <= 2) then OK 3
              else if decide (3 <= u <= 4) then OK 5
              else if decide (u = 5) then OK (-1)
              else Err ValueError)
    (fun u => if decide (u = 3) then [0; 1; 2]
              else if decide (u = 5) then [0; 1; 2; 4]
              else if decide (0 <= u <= 4) then [u]
              else []).

Definition example_nodes : TreeSequence :=
  mkTreeSequence [] []
    [mkNode 0; mkNode 0; mkNode 1; mkNode (-1); mkNode 1; mkNode (-1)].

(** ** Bookkeeping for the proofs *)

(** Number of events of [es] that increment cell [(i, j)]. *)
Definition hits (ts : TreeSequence) (alleles : list string) (i j : nat)
    (es : list (Site * Mutation)) : nat :=
  length (filter (fun e => cell ts alleles e = OK (i, j)) es).

(** Every event of [es] has a cell: its parent resolves and both its states
    are in the alphabet. *)
Definition countable_events (ts : TreeSequence) (alleles : list string)
    (es : list (Site * Mutation)) : Prop :=
  Forall (fun e => is_OK (cell ts alleles e)) es.

#[global] Instance countable_events_dec ts alleles es :
  Decision (countable_events ts alleles es).
Proof. unfold countable_events. apply _. Defined.

(** No entry of the array is negative. *)
Definition non_negative_entries (counts : matrix) : Prop :=
  Forall (Forall (fun c => 0 <= c)) counts.

(** The store [w] with the array at [counts] replaced. *)
Definition put_counts (w : World) (counts : loc) (a : matrix) : World :=
  mkWorld (<[counts := ONdarray a]> (heap w)) (stdout w).

(** In [w] the three references of the loops hold a tree sequence, a list
    and an array, and the array is a separate object. *)
Definition holds (w : World) (ts alleles counts : loc) (t : TreeSequence)
    (al : list string) (a : matrix) : Prop :=
  heap w !! ts = Some (OTreeSequence t) ∧
  heap w !! alleles = Some (OList al) ∧
  heap w !! counts = Some (ONdarray a) ∧
  counts ≠ ts ∧ counts ≠ alleles.

(** What [count_transitions] prints for the matrix [counts]. *)
Definition render (alleles : list string) (counts : matrix) : list string :=
  header_line alleles :: zip_with row_line alleles counts.

(** A result with its value dropped. *)
Definition outcome {A : Type} (r : result A) : result unit :=
  match r with
  | OK _ => OK tt
  | Err e => Err e
  end.

(** The same site with its mutations visited in another order. *)
Definition same_site_reordered (s s' : Site) : Prop :=
  ancestral_state s = ancestral_state s' ∧ mutations s ≡ₚ mutations s'.

(** The same sites visited in another order, and the mutations within each
    site too. *)
Definition reordered (sites sites' : list Site) : Prop :=
  exists sites'', sites ≡ₚ sites'' ∧ Forall2 same_site_reordered sites'' sites'.

(** ** Tactics *)

(** Membership in a list that is written out. *)
Ltac in_list := simpl; rewrite ?elem_of_cons; auto 10.

(** Unfolding of one step of the store monad. *)
Ltac py_unfold :=
  unfold mbind, Py_bind, mret, Py_ret, lift,
    get_ts, get_list, get_array, set_array.

(** Evaluation of a decidable statement. *)
Ltac by_compute := apply (bool_decide_unpack _); vm_compute; exact I.

(** * The VCF import helpers of the inference notebook *)

From stdpp Require Import sorting.

Local Open Scope Z_scope.

(** ** Exceptions beyond those of the counting code *)

Inductive exception : Set :=
  | KeyError
  | AssertionError
  | Builtin (e : exn).

Inductive attempt (A : Type) : Type :=
  | Returned (a : A)
  | Raised (e : exception).
Arguments Returned {A} a.
Arguments Raised {A} e.

#[global] Instance exception_eq_dec : EqDecision exception.
Proof. solve_decision. Defined.

(** ** What cyvcf2 hands over *)

(** One entry of [variant.genotypes] is the list of a sample's allele
    indices followed by its phased flag; for a diploid call that is
    [[a, b, phased]]. *)
Record Genotype : Set := mkGenotype {
  calls : list Z;
  phased : bool
}.

(** The elements of such a list. *)
Inductive gval : Set :=
  | GAllele (a : Z)
  | GPhased (b : bool).

Definition row_list (row : Genotype) : list gval :=
  (GAllele <$> calls row) ++ [GPhased (phased row)].

Record Variant : Type := mkVariant {
  POS : Z;
  REF : string;
  ALT : list string;
  INFO : gmap string string;
  genotypes : list Genotype
}.

Record VCF : Type := mkVCF {
  vcf_variants : list Variant;
  vcf_samples : list string;
  vcf_seqlens : list Z
}.

(** ** tsinfer's [SampleData] *)

(** A site as [add_site] is given it, and an individual as [add_individual]
    is given it. *)
Record SiteRecord : Set := mkSiteRecord {
  sr_position : Z;
  sr_genotypes : list gval;
  sr_alleles : list string;
  sr_ancestral_allele : Z
}.

Record IndividualRecord : Type := mkIndividualRecord {
  ir_ploidy : Z;
  ir_metadata : gmap string string;
  ir_population : Z
}.

(** The calls the notebook makes on a [SampleData]; [Finalise] is what
    leaving the [with] block does. *)
Inductive call : Type :=
  | AddPopulation (metadata : gmap string string)
  | AddIndividual (individual : IndividualRecord)
  | AddSite (site : SiteRecord)
  | Finalise.

(** [SampleData] belongs to tsinfer, whose code is not part of the notebook.
    The object is kept as its sequence length and the calls made on it so
    far, in order, each with the exception it raised, if any. *)
Record SampleData : Type := mkSampleData {
  sd_sequence_length : Z;
  sd_calls : list (call * option exn)
}.

(** What tsinfer checks is a parameter of the model: for an object and a call
    on it, the exception that the call raises, [None] when it returns. *)
Class Tsinfer : Type :=
  tsinfer_raises : SampleData -> call -> option exn.

Definition record_call (samples : SampleData) (c : call)
    (raised : option exn) : SampleData :=
  mkSampleData (sd_sequence_length samples)
    (sd_calls samples ++ [(c, raised)]).

(** A call on the object: it is recorded, and it raises what tsinfer
    raises. *)
Definition invoke {T : Tsinfer} (c : call) (samples : SampleData)
  : SampleData * result unit :=
  match tsinfer_raises samples c with
  | None => (record_call samples c None, OK tt)
  | Some e => (record_call samples c (Some e), Err e)
  end.

(** The calls that returned. *)
Definition taken (samples : SampleData) : list call :=
  omap (fun cr : call * option exn =>
          match cr.2 with None => Some cr.1 | Some _ => None end)
       (sd_calls samples).

Definition call_population (c : call) : option (gmap string string) :=
  match c with AddPopulation metadata => Some metadata | _ => None end.

Definition call_individual (c : call) : option IndividualRecord :=
  match c with AddIndividual individual => Some individual | _ => None end.

Definition call_site (c : call) : option SiteRecord :=
  match c with AddSite site => Some site | _ => None end.

(** What the object holds: the populations, individuals and sites of the
    calls that returned. *)
Definition sd_populations (samples : SampleData) : list (gmap string string) :=
  omap call_population (taken samples).

Definition sd_individuals (samples : SampleData) : list IndividualRecord :=
  omap call_individual (taken samples).

Definition sd_sites (samples : SampleData) : list SiteRecord :=
  omap call_site (taken samples).

(** The sites [add_site] was called with, whether it returned or raised. *)
Definition sd_site_calls (samples : SampleData) : list SiteRecord :=
  omap (fun cr : call * option exn => call_site cr.1) (sd_calls samples).

(** [samples.add_population(metadata=...)] returns the id of the new
    population, which is the number of populations there were. *)
Definition add_population (metadata : gmap string string) (samples : SampleData)
  : SampleData * Z :=
  (record_call samples (AddPopulation metadata) None,
   Z.of_nat (length (sd_populations samples))).

(** [samples.add_individual(ploidy=..., metadata=..., population=...)] *)
Definition add_individual {T : Tsinfer} (ploidy : Z)
    (metadata : gmap string string) (population : Z) (samples : SampleData)
  : SampleData * result unit :=
  invoke (AddIndividual (mkIndividualRecord ploidy metadata population))
    samples.

(** [samples.add_site(pos, genotypes, alleles, ancestral_allele=...)] *)
Definition add_site {T : Tsinfer} (pos : Z) (genotypes : list gval)
    (alleles : list string) (ancestral_allele : Z) (samples : SampleData)
  : SampleData * result unit :=
  invoke (AddSite (mkSiteRecord pos genotypes alleles ancestral_allele))
    samples.

(** [samples.finalise()], which [SampleData.__exit__] calls. *)
Definition finalise {T : Tsinfer} (samples : SampleData)
  : SampleData * result unit :=
  invoke Finalise samples.

(** The two messages [add_diploid_sites] prints.  The second one
    interpolates a set, whose printed order is not fixed, so the messages
    are kept by their parts. *)
Inductive message : Set :=
  | DuplicateEntries (pos : Z)
  | IgnoringSite (pos : Z) (a : string).

#[global] Instance message_eq_dec : EqDecision message.
Proof. solve_decision. Defined.

(** The [samples] object together with standard output. *)
Record Import : Type := mkImport {
  imp_samples : SampleData;
  imp_out : list message
}.

(** ** Strings *)

(** [s.upper()], on the ASCII range that VCF fields are written in. *)
Definition upper_ascii (c : ascii) : ascii :=
  let n := nat_of_ascii c in
  if ((97 <=? n) && (n <=? 122))%nat then ascii_of_nat (n - 32) else c.

Fixpoint upper (s : string) : string :=
  match s with
  | EmptyString => EmptyString
  | String c s' => String (upper_ascii c) (upper s')
  end.

(** [s.split(sep)[0]]: what comes before the first separator. *)
Fixpoint split_first (sep : ascii) (s : string) : string :=
  match s with
  | EmptyString => EmptyString
  | String c s' =>
      if decide (c = sep) then EmptyString else String c (split_first sep s')
  end.

(** [set(s)] *)
Definition char_set (s : string) : gset ascii :=
  list_to_set (list_ascii_of_string s).

(** ** [add_diploid_sites] *)

(** [tskit.MISSING_DATA] *)
Definition MISSING_DATA : Z := -1.

Definition allele_chars : gset ascii := char_set "ATGCatgc*".

(** [[not phased for _, _, phased in variant.genotypes]]: unpacking an entry
    that does not have three elements raises [ValueError]. *)
Definition unphased_flags (gs : list Genotype) : result (list bool) :=
  comprehension
    (fun row =>
       match row_list row with
       | [_; _; GPhased phased] => OK (negb phased)
       | _ => Err ValueError
       end) gs.

(** [any(l)] *)
Definition any (l : list bool) : bool := existsb id l.

(** The loop over the alleles that reports those with other characters;
    its [continue] only moves on to the next allele. *)
Definition check_alleles (pos : Z) (alleles : list string) (w : Import)
  : Import :=
  foldl (fun w a =>
           if decide (0 < size (char_set a ∖ allele_chars))%nat
           then mkImport (imp_samples w) (imp_out w ++ [IgnoringSite pos a])
           else w)
        w alleles.

(** One pass of the loop over the variants: the new value of [pos], the
    state, and whether the pass raised. *)
Definition add_diploid_site {T : Tsinfer} (variant : Variant) (pos : Z)
    (w : Import)
  : Z * Import * result unit :=
  if decide (pos = POS variant)
  then (pos, mkImport (imp_samples w) (imp_out w ++ [DuplicateEntries pos]),
        OK tt)
  else
    let pos := POS variant in
    match unphased_flags (genotypes variant) with
    | Err e => (pos, w, Err e)
    | OK flags =>
        if any flags then (pos, w, Err ValueError)
        else
          let alleles := upper (REF variant) :: (upper <$> ALT variant) in
          let ancestral := default "." (INFO variant !! "AA") in
          let ancestral := upper (split_first "|" ancestral) in
          match (if decide (ancestral = "." ∨ ancestral = "")
                 then OK MISSING_DATA
                 else Z.of_nat <$> index alleles ancestral) with
          | Err e => (pos, w, Err e)
          | OK ancestral_allele =>
              let w := check_alleles pos alleles w in
              let genotypes :=
                row ← genotypes variant; take 2 (row_list row) in
              match add_site pos genotypes alleles ancestral_allele
                      (imp_samples w) with
              | (samples, r) => (pos, mkImport samples (imp_out w), r)
              end
          end
    end.

Fixpoint add_diploid_sites_from {T : Tsinfer} (pos : Z)
    (variants : list Variant) (w : Import) : Import * result unit :=
  match variants with
  | [] => (w, OK tt)
  | variant :: variants' =>
      match add_diploid_site variant pos w with
      | (pos', w', OK _) => add_diploid_sites_from pos' variants' w'
      | (_, w', Err e) => (w', Err e)
      end
  end.

(** [add_diploid_sites(vcf, samples)] *)
Definition add_diploid_sites {T : Tsinfer} (vcf : VCF) (w : Import)
  : Import * result unit :=
  let pos := 0 in
  add_diploid_sites_from pos (vcf_variants vcf) w.

(** ** What [add_diploid_sites] adds, variant by variant *)

(** The variants the loop does not skip: those whose position differs from
    the position of the variant before them, and from [pos] for the first. *)
Fixpoint kept (pos : Z) (variants : list Variant) : list Variant :=
  match variants with
  | [] => []
  | variant :: variants' =>
      if decide (pos = POS variant) then kept pos variants'
      else variant :: kept (POS variant) variants'
  end.

Definition site_alleles (variant : Variant) : list string :=
  upper (REF variant) :: (upper <$> ALT variant).

(** The first field of [INFO["AA"]] in upper case, ["."] without [AA]. *)
Definition ancestral (variant : Variant) : string :=
  upper (split_first "|" (default "." (INFO variant !! "AA"))).

Definition ancestral_unknown (variant : Variant) : Prop :=
  ancestral variant = "." ∨ ancestral variant = "".

Definition diploid_phased (variant : Variant) : Prop :=
  Forall (fun row => length (calls row) = 2%nat ∧ phased row = true)
         (genotypes variant).

(** A variant the loop body gets through without raising. *)
Definition acceptable (variant : Variant) : Prop :=
  diploid_phased variant ∧
  (ancestral_unknown variant ∨ ancestral variant ∈ site_alleles variant).

#[global] Instance acceptable_dec variant : Decision (acceptable variant).
Proof. unfold acceptable, diploid_phased, ancestral_unknown. apply _. Defined.

(** The site recorded for an acceptable variant. *)
Definition site_of (variant : Variant) : SiteRecord :=
  mkSiteRecord (POS variant)
    (row ← genotypes variant; GAllele <$> calls row)
    (site_alleles variant)
    (if decide (ancestral_unknown variant) then MISSING_DATA
     else match index (site_alleles variant) (ancestral variant) with
          | OK i => Z.of_nat i
          | Err _ => MISSING_DATA
          end).

(** The messages of the allele check for one variant. *)
Definition allele_messages (variant : Variant) : list message :=
  IgnoringSite (POS variant) <$>
    filter (fun a => 0 < size (char_set a ∖ allele_chars))%nat
           (site_alleles variant).

(** ** [chromosome_length], [add_populations], [add_diploid_individuals] *)

(** [chromosome_length(vcf)] *)
Definition chromosome_length (vcf : VCF) : attempt Z :=
  if decide (length (vcf_seqlens vcf) = 1%nat)
  then match vcf_seqlens vcf !! 0%nat with
       | Some l => Returned l
       | None => Raised (Builtin IndexError)
       end
  else Raised AssertionError.

(** [sample_name[0]] *)
Definition first_letter (sample_name : string) : result string :=
  match sample_name with
  | EmptyString => Err IndexError
  | String c _ => OK (String c EmptyString)
  end.

(** [[pop_lookup[first_letter] for first_letter in l]]: a missing key raises
    [KeyError]. *)
Fixpoint lookup_each (pop_lookup : gmap string Z) (l : list string)
  : attempt (list Z) :=
  match l with
  | [] => Returned []
  | first_letter :: l' =>
      match pop_lookup !! first_letter with
      | None => Raised KeyError
      | Some id =>
          match lookup_each pop_lookup l' with
          | Returned ids => Returned (id :: ids)
          | Raised e => Raised e
          end
      end
  end.

Definition Norway : gmap string string := {[ "country"%string := "Norway"%string ]}.
Definition France : gmap string string := {[ "country"%string := "France"%string ]}.

(** [add_populations(vcf, samples)] *)
Definition add_populations (vcf : VCF) (samples : SampleData)
  : SampleData * attempt (list Z) :=
  match comprehension first_letter (vcf_samples vcf) with
  | Err e => (samples, Raised (Builtin e))
  | OK samples_first_letter =>
      let pop_lookup : gmap string Z := ∅ in
      let '(samples, id) := add_population Norway samples in
      let pop_lookup := <["8"%string := id]> pop_lookup in
      let '(samples, id) := add_population France samples in
      let pop_lookup := <["F"%string := id]> pop_lookup in
      (samples, lookup_each pop_lookup samples_first_letter)
  end.

(** The loop of [add_diploid_individuals] over the pairs of [zip]. *)
Fixpoint add_diploid_individuals_from {T : Tsinfer}
    (pairs : list (string * Z)) (samples : SampleData)
  : SampleData * result unit :=
  match pairs with
  | [] => (samples, OK tt)
  | (name, population) :: pairs' =>
      match add_individual 2 {[ "name"%string := name ]} population samples with
      | (samples, OK _) => add_diploid_individuals_from pairs' samples
      | (samples, Err e) => (samples, Err e)
      end
  end.

(** [add_diploid_individuals(vcf, samples, populations)] *)
Definition add_diploid_individuals {T : Tsinfer} (vcf : VCF)
    (samples : SampleData) (populations : list Z)
  : SampleData * result unit :=
  add_diploid_individuals_from (zip (vcf_samples vcf) populations) samples.

(** Leaving [with tsinfer.SampleData(...) as samples:].  [__exit__] calls
    [finalise] whether the block ended or raised; what [finalise] raises
    takes the place of what the block raised. *)
Definition leave_block {T : Tsinfer} (samples : SampleData)
    (block : attempt unit) : attempt SampleData :=
  match finalise samples with
  | (_, Err e) => Raised (Builtin e)
  | (samples, OK _) =>
      match block with
      | Returned _ => Returned samples
      | Raised e => Raised e
      end
  end.

(** The cell that builds the sample data: a new [SampleData] of the
    chromosome's length, then, inside the [with] block, populations,
    individuals and sites.  What was printed is kept also when a step
    raises. *)
Definition build_sample_data {T : Tsinfer} (vcf : VCF)
  : list message * attempt SampleData :=
  match chromosome_length vcf with
  | Raised e => ([], Raised e)
  | Returned sequence_length =>
      let samples := mkSampleData sequence_length [] in
      match add_populations vcf samples with
      | (samples, Raised e) => ([], leave_block samples (Raised e))
      | (samples, Returned populations) =>
          match add_diploid_individuals vcf samples populations with
          | (samples, Err e) =>
              ([], leave_block samples (Raised (Builtin e)))
          | (samples, OK _) =>
              match add_diploid_sites vcf (mkImport samples []) with
              | (w, OK _) =>
                  (imp_out w, leave_block (imp_samples w) (Returned tt))
              | (w, Err e) =>
                  (imp_out w,
                   leave_block (imp_samples w) (Raised (Builtin e)))
              end
          end
      end
  end.

(** ** [plot_interval] *)

(** A [plt.Rectangle((x, y), width, height, color=...)]. *)
Record Rectangle : Set := mkRectangle {
  rect_x : Q;
  rect_y : Q;
  rect_width : Q;
  rect_height : Q;
  rect_color : string
}.

(** A tree with its [t.interval]. *)
Record TreeOnInterval : Type := mkTreeOnInterval {
  the_tree : Tree;
  interval : Q * Q
}.

(** [a / b] on floats raises on a zero divisor; the quotient is kept exact. *)
Definition float_div (a b : Q) : result Q :=
  if Qeq_bool b 0 then Err ZeroDivisionError else OK (a / b)%Q.

(** [plot_interval(t, focal_sample, seq_length, ax)]; [ax] is the list of
    patches of the axes, [ax.add_patch] appends to it. *)
Definition plot_interval (ts_dated : TreeSequence) (t : TreeOnInterval)
    (focal_sample : Z) (seq_length : Q) (ax : list Rectangle)
  : list Rectangle * result unit :=
  match find_nearest_neighbour_populations ts_dated (the_tree t) focal_sample with
  | Err e => (ax, Err e)
  | OK nns =>
      let i := interval t in
      match float_div i.1 seq_length,
            float_div (i.2 - i.1)%Q seq_length with
      | OK x, OK width =>
          let ax := ax ++ [mkRectangle x 0 width nns.1 "red"] in
          match float_div i.1 seq_length,
                float_div (i.2 - i.1)%Q seq_length with
          | OK x, OK width =>
              (ax ++ [mkRectangle x nns.1 width (nns.1 + nns.2)%Q "blue"],
               OK tt)
          | Err e, _ | _, Err e => (ax, Err e)
          end
      | Err e, _ | _, Err e => (ax, Err e)
      end
  end.

(** ** Concrete inputs for the import helpers *)

Definition diploid (a b : Z) : Genotype := mkGenotype [a; b] true.

(** Three sparrows, two from Norway and one from France; four variants, the
    second at the position of the first, the third with a symbolic allele. *)
Definition example_variants : list Variant :=
  [ mkVariant 10 "a" ["G"%string] {[ "AA"%string := "a|g"%string ]}
      [diploid 0 1; diploid 1 1; diploid 0 0];
    mkVariant 10 "T" ["C"%string] ∅
      [diploid 0 0; diploid 0 1; diploid 0 0];
    mkVariant 25 "C" ["<DEL>"%string; "t"%string] ∅
      [diploid 0 2; diploid 1 0; diploid 0 0];
    mkVariant 40 "G" ["A"%string] {[ "AA"%string := "."%string ]}
      [diploid 1 1; diploid 0 1; diploid 1 0] ].

Definition example_vcf : VCF :=
  mkVCF example_variants ["8934547"; "F510"; "8L19"]%string [1000].

(** The same file with an unphased call in the variant at position 25. *)
Definition unphased_vcf : VCF :=
  mkVCF
    [ mkVariant 10 "A" ["G"%string] ∅ [diploid 0 1; diploid 1 1];
      mkVariant 25 "C" ["T"%string] ∅ [diploid 0 1; mkGenotype [1; 0] false];
      mkVariant 40 "G" ["A"%string] ∅ [diploid 1 1; diploid 0 1] ]
    ["8934547"; "F510"]%string [1000].

Definition empty_samples : SampleData := mkSampleData 1000 [].

(** A file whose third variant lies to the left of the second, and has a
    symbolic allele. *)
Definition unordered_vcf : VCF :=
  mkVCF
    [ mkVariant 10 "A" ["G"%string] ∅ [diploid 0 1; diploid 1 1];
      mkVariant 25 "C" ["T"%string] ∅ [diploid 0 1; diploid 1 0];
      mkVariant 10 "G" ["<DEL>"%string] ∅ [diploid 1 1; diploid 0 1] ]
    ["8934547"; "F510"]%string [1000].

(** A tsinfer for the examples.  It raises [ValueError] for a site that is
    not to the right of every site it holds, for an individual of a
    population it does not hold, and when asked to finalise without a
    site. *)
Definition example_tsinfer : Tsinfer :=
  fun samples c =>
    match c with
    | AddPopulation _ => None
    | AddIndividual individual =>
        if decide (0 <= ir_population individual
                   < Z.of_nat (length (sd_populations samples)))
        then None else Some ValueError
    | AddSite site =>
        if decide (Forall (fun p => p < sr_position site)
                     (sr_position <$> sd_sites samples))
        then None else Some ValueError
    | Finalise =>
        match sd_sites samples with
        | [] => Some ValueError
        | _ :: _ => None
        end
    end.

(** A tree of the example over the interval from 200 to 500. *)
Definition example_tree_on_interval : TreeOnInterval :=
  mkTreeOnInterval example_tree (200, 500)%Q.

(** ** Bookkeeping for the import proofs *)

(** An allele with a character outside [allele_chars]. *)
Definition odd_allele (a : string) : Prop :=
  (0 < size (char_set a ∖ allele_chars))%nat.

(** The sample data after the calls [cs], none of which raised. *)
Definition with_calls (samples : SampleData) (cs : list call) : SampleData :=
  mkSampleData (sd_sequence_length samples)
    (sd_calls samples ++ ((fun c => (c, None)) <$> cs)).

(** tsinfer takes the calls [cs], made one after the other from [samples]
    on: none of them raises. *)
Fixpoint takes {T : Tsinfer} (samples : SampleData) (cs : list call) : Prop :=
  match cs with
  | [] => True
  | c :: cs' =>
      tsinfer_raises samples c = None ∧ takes (record_call samples c None) cs'
  end.

#[global] Instance takes_dec {T : Tsinfer} (samples : SampleData)
  (cs : list call) : Decision (takes samples cs).
Proof.
  revert samples. induction cs as [|c cs IH]; intros samples; simpl; apply _.
Defined.

(** The call of [add_site] for a variant. *)
Definition site_call (variant : Variant) : call := AddSite (site_of variant).

(** Where the loop of [add_diploid_sites] stops on the variants it does not
    skip: at their end, at a variant that is not acceptable, where the loop
    itself raises, or at a variant for which [add_site] raises. *)
Inductive stop : Type :=
  | Completed
  | Unacceptable (variant : Variant)
  | Refused (variant : Variant) (e : exn).

(** The variants whose sites are added, and where the loop stops. *)
Fixpoint progress {T : Tsinfer} (samples : SampleData) (ks : list Variant)
  : list Variant * stop :=
  match ks with
  | [] => ([], Completed)
  | variant :: ks' =>
      if decide (acceptable variant) then
        match tsinfer_raises samples (site_call variant) with
        | None =>
            let p := progress (record_call samples (site_call variant) None)
                       ks' in
            (variant :: p.1, p.2)
        | Some e => ([], Refused variant e)
        end
      else ([], Unacceptable variant)
  end.

(** The variants whose sites were passed to [add_site]. *)
Definition reached (p : list Variant * stop) : list Variant :=
  p.1 ++ match p.2 with Refused variant _ => [variant] | _ => [] end.

Definition state_after (samples : SampleData) (p : list Variant * stop)
  : SampleData :=
  let samples := with_calls samples (site_call <$> p.1) in
  match p.2 with
  | Refused variant e => record_call samples (site_call variant) (Some e)
  | _ => samples
  end.

Definition stop_result (s : stop) : result unit :=
  match s with
  | Completed => OK tt
  | Unacceptable _ => Err ValueError
  | Refused _ e => Err e
  end.

(** The messages [msgs] about alleles are those for the alleles, with a
    character outside [allele_chars], of [variants]. *)
Definition reports (msgs : list message) (variants : list Variant) : Prop :=
  forall p a,
    IgnoringSite p a ∈ msgs <->
    exists variant,
      variant ∈ variants ∧ POS variant = p ∧
      a ∈ site_alleles variant ∧ odd_allele a.

(** The first character of a sample name, as a string. *)
Definition initial (sample_name : string) : string :=
  match sample_name with
  | EmptyString => EmptyString
  | String c _ => String c EmptyString
  end.

(** A sample name that begins with one of the two population letters. *)
Definition known_population (sample_name : string) : Prop :=
  initial sample_name = "8"%string ∨ initial sample_name = "F"%string.

(** The population id of a sample, given the ids of Norway and France. *)
Definition population_for (norway france : Z) (sample_name : string) : Z :=
  if decide (initial sample_name = "8"%string) then norway else france.

(** The sample data with two more populations. *)
Definition with_populations (samples : SampleData) : SampleData :=
  with_calls samples [AddPopulation Norway; AddPopulation France].

(** The individual recorded for a sample name. *)
Definition diploid_individual (sample_name : string) (population : Z)
  : IndividualRecord :=
  mkIndividualRecord 2 {[ "name"%string := sample_name ]} population.

(** The call of [add_individual] for a pair of [zip]. *)
Definition individual_call (np : string * Z) : call :=
  AddIndividual (diploid_individual np.1 np.2).

(** The calls the cell makes after it has added the two populations, when
    every sample name begins with [8] or [F]. *)
Definition cell_calls (vcf : VCF) : list call :=
  (individual_call <$>
     zip (vcf_samples vcf) (population_for 0 1 <$> vcf_samples vcf)) ++
  (site_call <$> kept 0 (vcf_variants vcf)) ++ [Finalise].

Definition unequal (x y : Z) : Prop := x ≠ y.

(** ** Bookkeeping for the further properties of the counting code *)

(** Number of events of [sites] that start from state [a]. *)
Definition departures (ts : TreeSequence) (sites : list Site) (a : string)
  : nat :=
  length (filter (fun e : Site * Mutation =>
                    effective_parent_state ts e.1 e.2 = OK a)
                 (events sites)).

(** The row of the cell that event [e] increments. *)
Definition cell_row (ts : TreeSequence) (alleles : list string)
    (e : Site * Mutation) : result nat :=
  fst <$> cell ts alleles e.

(** The population of node [c], [NULL] for an id without node. *)
Definition population_of (ts : TreeSequence) (c : Z) : Z :=
  match node ts c with
  | OK n => population n
  | Err _ => NULL
  end.

(** Number of occurrences of [pop] in [l]. *)
Definition occurrences (pop : Z) (l : list Z) : Z :=
  Z.of_nat (length (filter (fun x => x = pop) l)).

(** One site with ancestral state A and one mutation to C, to be counted
    against the alphabet A, C, and a store that holds the two. *)
Definition AC : list string := ["A"; "C"]%string.

Definition ts_one_event : TreeSequence :=
  mkTreeSequence [mkSite "A" [mkMutation "C" NULL]] [mkMutation "C" NULL] [].

Definition world_one_event : World :=
  mkWorld (<[2%positive := OList AC]>
             (<[1%positive := OTreeSequence ts_one_event]> ∅)) [].

(** A store with [ts_N_mutated] at reference 1, the alphabet at reference 2
    and one line already printed. *)
Definition world_N_mutated : World :=
  mkWorld (<[2%positive := OList ACGT]>
             (<[1%positive := OTreeSequence ts_N_mutated]> ∅))
          ["earlier output"%string].

(** One pass of the loop that fills [pop_proportions]. *)
Definition tally (d : gmap Z Z) (pop : Z) : gmap Z Z :=
  let d := if decide (d !! pop = None) then <[pop := 0]> d else d in
  <[pop := default 0 (d !! pop) + 1]> d.

(** The example tree with its leaves listed from right to left. *)
Definition example_tree_reversed : Tree :=
  mkTree (tree_parent example_tree)
         (fun u => reverse (tree_leaves example_tree u)).

(** The two rectangles [plot_interval] draws for the proportions [nns]. *)
Definition red_bar (t : TreeOnInterval) (seq_length : Q) (nns : Q * Q)
  : Rectangle :=
  mkRectangle ((interval t).1 / seq_length)%Q 0
    (((interval t).2 - (interval t).1) / seq_length)%Q nns.1 "red".

Definition blue_bar (t : TreeOnInterval) (seq_length : Q) (nns : Q * Q)
  : Rectangle :=
  mkRectangle ((interval t).1 / seq_length)%Q nns.1
    (((interval t).2 - (interval t).1) / seq_length)%Q (nns.1 + nns.2)%Q "blue".

(** * Properties *)

(** ** The result monad and the loops *)

Lemma bind_OK {A B : Type} (f : A -> result B) (a : A) : OK a ≫= f = f a.
Proof. reflexivity. Qed.

Lemma bind_Err {A B : Type} (f : A -> result B) (e : exn) :
  Err e ≫= f = Err e.
Proof. reflexivity. Qed.

Lemma is_OK_inv {A : Type} (r : result A) : is_OK r -> exists a, r = OK a.
Proof. destruct r; simpl; [eauto | contradiction]. Qed.

Lemma for_each_app {A S : Type} (body : S -> A -> result S) (s : S)
    (l1 l2 : list A) :
  for_each body s (l1 ++ l2) =
  for_each body s l1 ≫= fun s' => for_each body s' l2.
Proof.
  revert s. induction l1 as [|x l1 IH]; intros s; simpl; [reflexivity|].
  destruct (body s x) as [s'|e]; simpl; [apply IH | reflexivity].
Qed.

(** ** [alleles.index] *)

Lemma index_OK_lookup (al : list string) (x : string) (i : nat) :
  index al x = OK i -> al !! i = Some x.
Proof.
  revert i. induction al as [|a al IH]; intros i; simpl; [discriminate|].
  destruct (decide (a = x)) as [->|Hne].
  - intros [= <-]. reflexivity.
  - destruct (index al x) as [i'|e]; simpl; [|discriminate].
    intros [= <-]. simpl. apply IH. reflexivity.
Qed.

Lemma index_lt (al : list string) (x : string) (i : nat) :
  index al x = OK i -> (i < length al)%nat.
Proof. intros H. apply index_OK_lookup in H. eapply lookup_lt_Some, H. Qed.

Lemma index_elem_of (al : list string) (x : string) :
  x ∈ al -> exists i, index al x = OK i.
Proof.
  induction al as [|a al IH]; intros Hin.
  - inversion Hin.
  - simpl. destruct (decide (a = x)) as [->|Hne]; [eauto|].
    apply elem_of_cons in Hin as [->|Hin]; [congruence|].
    destruct (IH Hin) as [i ->]. simpl. eauto.
Qed.

Lemma index_not_elem_of (al : list string) (x : string) :
  x ∉ al -> index al x = Err ValueError.
Proof.
  induction al as [|a al IH]; intros Hin; simpl; [reflexivity|].
  apply not_elem_of_cons in Hin as [Hne Hin].
  destruct (decide (a = x)) as [->|_]; [congruence|].
  rewrite IH by assumption. reflexivity.
Qed.

Lemma index_cases (al : list string) (x : string) :
  (exists i, index al x = OK i) ∨ index al x = Err ValueError.
Proof.
  destruct (decide (x ∈ al)) as [Hin|Hin].
  - left. apply index_elem_of, Hin.
  - right. apply index_not_elem_of, Hin.
Qed.

Lemma index_NoDup (al : list string) (x : string) (i : nat) :
  NoDup al -> al !! i = Some x -> index al x = OK i.
Proof.
  intros Hnd Hi.
  destruct (index_elem_of al x) as [i' Hi'].
  { eapply list_elem_of_lookup_2, Hi. }
  rewrite Hi'. f_equal.
  apply index_OK_lookup in Hi'.
  eapply NoDup_lookup; eauto.
Qed.

(** ** The loops as one pass over the events *)

Lemma count_mutation_event ts al s counts m :
  count_mutation ts al (ancestral_state s) counts m =
  count_event ts al counts (s, m).
Proof.
  unfold count_mutation, count_event, cell, effective_parent_state. simpl.
  destruct (decide (parent m ≠ NULL)) as [Hp|Hp];
    destruct (decide (parent m = NULL)) as [Hq|Hq]; try contradiction.
  - destruct (mutation ts (parent m)) as [pm|e]; simpl; [|reflexivity].
    destruct (index al (derived_state pm)) as [i|e]; simpl; [|reflexivity].
    destruct (index al (derived_state m)) as [j|e]; reflexivity.
  - simpl.
    destruct (index al (ancestral_state s)) as [i|e]; simpl; [|reflexivity].
    destruct (index al (derived_state m)) as [j|e]; reflexivity.
Qed.

Lemma count_site_events ts al counts s :
  count_site ts al counts s =
  for_each (count_event ts al) counts (pair s <$> mutations s).
Proof.
  unfold count_site. simpl.
  generalize (mutations s) as ms. intros ms. revert counts.
  induction ms as [|m ms IH]; intros counts; simpl; [reflexivity|].
  rewrite count_mutation_event.
  destruct (count_event ts al counts (s, m)) as [counts'|e]; simpl;
    [apply IH | reflexivity].
Qed.

Lemma events_cons (s : Site) (sites : list Site) :
  events (s :: sites) = (pair s <$> mutations s) ++ events sites.
Proof. reflexivity. Qed.

Lemma events_app (l1 l2 : list Site) :
  events (l1 ++ l2) = events l1 ++ events l2.
Proof. unfold events. apply bind_app. Qed.

Lemma count_sites_events ts al counts sites :
  count_sites ts al counts sites =
  for_each (count_event ts al) counts (events sites).
Proof.
  unfold count_sites. revert counts.
  induction sites as [|s sites IH]; intros counts; [reflexivity|].
  rewrite events_cons, for_each_app. simpl.
  rewrite count_site_events.
  destruct (for_each (count_event ts al) counts (pair s <$> mutations s))
    as [counts'|e]; simpl; [apply IH | reflexivity].
Qed.

(** ** 64-bit wrap-around *)

Lemma wrap64_small (z : Z) : - 2 ^ 63 <= z < 2 ^ 63 -> wrap64 z = z.
Proof. intros H. unfold wrap64. rewrite Z.mod_small; lia. Qed.

Lemma wrap64_succ (z : Z) : wrap64 (wrap64 z + 1) = wrap64 (z + 1).
Proof.
  unfold wrap64.
  replace ((z + 2 ^ 63) mod 2 ^ 64 - 2 ^ 63 + 1 + 2 ^ 63)
    with ((z + 2 ^ 63) mod 2 ^ 64 + 1) by lia.
  rewrite Zplus_mod_idemp_l. f_equal. f_equal. lia.
Qed.

Lemma wrap64_add (a b : Z) : wrap64 (wrap64 a + wrap64 b) = wrap64 (a + b).
Proof.
  unfold wrap64.
  replace ((a + 2 ^ 63) mod 2 ^ 64 - 2 ^ 63
           + ((b + 2 ^ 63) mod 2 ^ 64 - 2 ^ 63) + 2 ^ 63)
    with ((a + 2 ^ 63) mod 2 ^ 64 + ((b + 2 ^ 63) mod 2 ^ 64 - 2 ^ 63)) by lia.
  rewrite Zplus_mod_idemp_l.
  replace (a + 2 ^ 63 + ((b + 2 ^ 63) mod 2 ^ 64 - 2 ^ 63))
    with ((b + 2 ^ 63) mod 2 ^ 64 + a) by lia.
  rewrite Zplus_mod_idemp_l. f_equal. f_equal. lia.
Qed.

(** ** Arrays: shape and entries *)

Lemma shape_zeros (k : nat) : shape k (np_zeros k k).
Proof.
  unfold shape, np_zeros. split.
  - apply length_replicate.
  - apply Forall_replicate. apply length_replicate.
Qed.

Lemma entry_zeros (k i j : nat) :
  (i < k)%nat -> (j < k)%nat -> entry (np_zeros k k) i j = Some 0.
Proof.
  intros Hi Hj. unfold entry, np_zeros.
  rewrite lookup_replicate_2 by assumption. simpl.
  apply lookup_replicate_2. assumption.
Qed.

Lemma shape_entry (k : nat) (counts : matrix) (i j : nat) :
  shape k counts -> (i < k)%nat -> (j < k)%nat ->
  exists c, entry counts i j = Some c.
Proof.
  intros [Hlen Hrows] Hi Hj. unfold entry.
  destruct (lookup_lt_is_Some_2 counts i) as [row Hrow]; [lia|].
  rewrite Hrow. simpl.
  apply (Forall_lookup_1 _ _ _ _ Hrows) in Hrow.
  apply lookup_lt_is_Some_2. lia.
Qed.

Lemma entry_None (k : nat) (counts : matrix) (i j : nat) :
  shape k counts -> ¬ ((i < k)%nat ∧ (j < k)%nat) -> entry counts i j = None.
Proof.
  intros [Hlen Hrows] Hij. unfold entry.
  destruct (counts !! i) as [row|] eqn:Hrow; simpl; [|reflexivity].
  pose proof (lookup_lt_Some _ _ _ Hrow).
  apply (Forall_lookup_1 _ _ _ _ Hrows) in Hrow.
  apply lookup_ge_None. lia.
Qed.

Lemma shape_alter (k : nat) (counts : matrix) (f : Z -> Z) (i j : nat) :
  shape k counts -> shape k (alter (alter f j) i counts).
Proof.
  intros [Hlen Hrows]. split.
  - rewrite length_alter. assumption.
  - apply Forall_alter; [assumption|].
    intros row _ Hrow. rewrite length_alter. assumption.
Qed.

Lemma entry_alter (counts : matrix) (f : Z -> Z) (i j i' j' : nat) :
  entry (alter (alter f j) i counts) i' j' =
  if decide (i = i' ∧ j = j') then f <$> entry counts i j
  else entry counts i' j'.
Proof.
  unfold entry.
  destruct (decide (i = i')) as [<-|Hi].
  - rewrite list_lookup_alter_eq.
    destruct (counts !! i) as [row|]; simpl.
    + destruct (decide (j = j')) as [<-|Hj].
      * rewrite decide_True by auto. apply list_lookup_alter_eq.
      * rewrite decide_False by (intros [_ ?]; contradiction).
        apply list_lookup_alter_ne. assumption.
    + destruct (decide _); reflexivity.
  - rewrite list_lookup_alter_ne by assumption.
    rewrite decide_False by (intros [? _]; contradiction). reflexivity.
Qed.

Lemma np_incr_OK (k : nat) (counts : matrix) (i j : nat) :
  shape k counts -> (i < k)%nat -> (j < k)%nat ->
  np_incr counts i j =
  OK (alter (alter (fun c => wrap64 (c + 1)) j) i counts).
Proof.
  intros Hs Hi Hj. unfold np_incr.
  destruct (shape_entry k counts i j Hs Hi Hj) as [c ->]. reflexivity.
Qed.

Lemma matrix_ext (k : nat) (a b : matrix) :
  shape k a -> shape k b ->
  (forall i j, (i < k)%nat -> (j < k)%nat -> entry a i j = entry b i j) ->
  a = b.
Proof.
  intros [Hla Hra] [Hlb Hrb] Hent.
  apply list_eq. intros i.
  destruct (decide (i < k)%nat) as [Hi|Hi].
  - destruct (lookup_lt_is_Some_2 a i) as [ra Ha]; [lia|].
    destruct (lookup_lt_is_Some_2 b i) as [rb Hb]; [lia|].
    rewrite Ha, Hb. f_equal.
    pose proof (Forall_lookup_1 _ _ _ _ Hra Ha) as Hlra.
    pose proof (Forall_lookup_1 _ _ _ _ Hrb Hb) as Hlrb.
    simpl in Hlra, Hlrb.
    apply list_eq. intros j.
    destruct (decide (j < k)%nat) as [Hj|Hj].
    + specialize (Hent i j Hi Hj). unfold entry in Hent.
      rewrite Ha, Hb in Hent. exact Hent.
    + rewrite !lookup_ge_None_2 by lia. reflexivity.
  - rewrite !lookup_ge_None_2 by lia. reflexivity.
Qed.

(** ** The matrix after the loops *)

Lemma cell_lt ts al e i j :
  cell ts al e = OK (i, j) -> (i < length al)%nat ∧ (j < length al)%nat.
Proof.
  unfold cell.
  destruct (effective_parent_state ts e.1 e.2) as [pa|?]; simpl; [|discriminate].
  destruct (index al pa) as [i'|?] eqn:Hi; simpl; [|discriminate].
  destruct (index al (derived_state e.2)) as [j'|?] eqn:Hj; simpl; [|discriminate].
  intros [= <- <-]. split; eapply index_lt; eassumption.
Qed.

Lemma for_each_cons {A S : Type} (body : S -> A -> result S) (s : S) (x : A)
    (l : list A) :
  for_each body s (x :: l) = body s x ≫= fun s' => for_each body s' l.
Proof. reflexivity. Qed.

Lemma count_event_cell ts al counts e i j :
  cell ts al e = OK (i, j) -> count_event ts al counts e = np_incr counts i j.
Proof. intros H. unfold count_event. rewrite H. reflexivity. Qed.

Lemma count_event_raises ts al counts e err :
  cell ts al e = Err err -> count_event ts al counts e = Err err.
Proof. intros H. unfold count_event. rewrite H. reflexivity. Qed.

Lemma hits_cons ts al i j e es :
  hits ts al i j (e :: es) =
  ((if decide (cell ts al e = OK (i, j)) then 1 else 0) + hits ts al i j es)%nat.
Proof.
  unfold hits. rewrite filter_cons.
  destruct (decide (cell ts al e = OK (i, j))); reflexivity.
Qed.

Lemma hits_app ts al i j es1 es2 :
  hits ts al i j (es1 ++ es2) = (hits ts al i j es1 + hits ts al i j es2)%nat.
Proof. unfold hits. rewrite filter_app, length_app. reflexivity. Qed.

Lemma hits_le ts al i j es : (hits ts al i j es <= length es)%nat.
Proof. unfold hits. apply length_filter. Qed.

Lemma hits_Permutation ts al i j es es' :
  es ≡ₚ es' -> hits ts al i j es = hits ts al i j es'.
Proof. intros H. unfold hits. rewrite H. reflexivity. Qed.

(** Starting from an array whose entries are [wrap64 (g i j)], the pass over
    countable events ends, and adds to each entry the number of its hits. *)
Lemma count_events_entries ts al es :
  forall (counts : matrix) (g : nat -> nat -> Z),
  let k := length al in
  shape k counts ->
  (forall i j, (i < k)%nat -> (j < k)%nat ->
     entry counts i j = Some (wrap64 (g i j))) ->
  countable_events ts al es ->
  exists counts',
    for_each (count_event ts al) counts es = OK counts' ∧
    shape k counts' ∧
    forall i j, (i < k)%nat -> (j < k)%nat ->
      entry counts' i j = Some (wrap64 (g i j + Z.of_nat (hits ts al i j es))).
Proof.
  induction es as [|e es IH]; intros counts g k Hs Hg Hes.
  - exists counts. split; [reflexivity|]. split; [assumption|].
    intros i j Hi Hj. rewrite Hg by assumption.
    unfold hits. simpl. do 2 f_equal. lia.
  - apply Forall_cons in Hes as [Hc Hes].
    apply is_OK_inv in Hc as [[i0 j0] Hc].
    destruct (cell_lt _ _ _ _ _ Hc) as [Hi0 Hj0].
    rewrite for_each_cons, (count_event_cell _ _ _ _ _ _ Hc).
    rewrite (np_incr_OK k), bind_OK by assumption.
    set (counts1 := alter (alter (fun c => wrap64 (c + 1)) j0) i0 counts).
    destruct (IH counts1
                (fun i j => g i j + if decide (i0 = i ∧ j0 = j) then 1 else 0))
      as (counts' & Hrun & Hs' & Hent).
    + apply shape_alter. assumption.
    + intros i j Hi Hj. unfold counts1. rewrite entry_alter.
      destruct (decide (i0 = i ∧ j0 = j)) as [[<- <-]|Hne].
      * rewrite Hg by assumption. simpl. f_equal. apply wrap64_succ.
      * rewrite Hg by assumption. do 2 f_equal. lia.
    + assumption.
    + exists counts'. split; [assumption|]. split; [assumption|].
      intros i j Hi Hj. rewrite Hent by assumption. do 2 f_equal.
      rewrite hits_cons, Hc.
      destruct (decide (i0 = i ∧ j0 = j)) as [[<- <-]|Hne].
      * rewrite decide_True by reflexivity. lia.
      * rewrite decide_False; [lia|]. intros [= -> ->]. apply Hne. auto.
Qed.

(** A pass that meets an event without a cell raises. *)
Lemma count_events_raises ts al es :
  forall (counts : matrix),
  shape (length al) counts ->
  ¬ countable_events ts al es ->
  exists e, for_each (count_event ts al) counts es = Err e.
Proof.
  induction es as [|e es IH]; intros counts Hs Hes.
  - exfalso. apply Hes. constructor.
  - rewrite for_each_cons.
    destruct (cell ts al e) as [[i j]|err] eqn:Hc.
    2:{ rewrite (count_event_raises _ _ _ _ _ Hc). eauto. }
    destruct (cell_lt _ _ _ _ _ Hc) as [Hi Hj].
    rewrite (count_event_cell _ _ _ _ _ _ Hc).
    rewrite (np_incr_OK (length al)), bind_OK by assumption.
    apply IH.
    + apply shape_alter. assumption.
    + intros Hes'. apply Hes. constructor; [|assumption].
      rewrite Hc. exact I.
Qed.

Lemma count_matrix_events ts al :
  count_matrix ts al =
  for_each (count_event ts al) (np_zeros (length al) (length al))
    (events (ts_sites ts)).
Proof. unfold count_matrix. apply count_sites_events. Qed.

(** The matrix of a tree sequence all of whose events are countable. *)
Lemma count_matrix_entries ts al :
  countable_events ts al (events (ts_sites ts)) ->
  exists counts,
    count_matrix ts al = OK counts ∧
    shape (length al) counts ∧
    forall i j, (i < length al)%nat -> (j < length al)%nat ->
      entry counts i j =
      Some (wrap64 (Z.of_nat (hits ts al i j (events (ts_sites ts))))).
Proof.
  intros Hes. rewrite count_matrix_events.
  destruct (count_events_entries ts al (events (ts_sites ts))
              (np_zeros (length al) (length al)) (fun _ _ => 0))
    as (counts & Hrun & Hs & Hent).
  - apply shape_zeros.
  - intros i j Hi Hj. rewrite entry_zeros by assumption. reflexivity.
  - assumption.
  - exists counts. split; [assumption|]. split; [assumption|].
    intros i j Hi Hj. rewrite Hent by assumption. reflexivity.
Qed.

Lemma count_matrix_OK_countable ts al counts :
  count_matrix ts al = OK counts ->
  countable_events ts al (events (ts_sites ts)).
Proof.
  intros Hrun.
  destruct (decide (countable_events ts al (events (ts_sites ts))))
    as [H|H]; [assumption|].
  destruct (count_events_raises ts al (events (ts_sites ts))
              (np_zeros (length al) (length al)) (shape_zeros _) H) as [e He].
  rewrite count_matrix_events in Hrun. congruence.
Qed.

(** ** Events, states and the alphabet *)


Lemma elem_of_events (e : Site * Mutation) (sites : list Site) :
  e ∈ events sites <-> e.1 ∈ sites ∧ e.2 ∈ mutations e.1.
Proof.
  unfold events. rewrite list_elem_of_bind. split.
  - intros (s & He & Hs). apply list_elem_of_fmap in He as (m & -> & Hm).
    simpl. auto.
  - intros [Hs Hm]. exists e.1. split; [|assumption].
    apply list_elem_of_fmap. exists e.2. split; [|assumption].
    destruct e; reflexivity.
Qed.

Lemma table_row_in_range {A : Type} (table : list A) (id_ : Z) :
  0 <= id_ < Z.of_nat (length table) -> exists row, table_row table id_ = OK row.
Proof.
  intros Hid. unfold table_row, check_index.
  destruct (id_ <? 0) eqn:Hneg; [apply Z.ltb_lt in Hneg; lia|].
  rewrite Hneg. simpl.
  destruct (Z.of_nat (length table) <=? id_) eqn:Hge;
    [apply Z.leb_le in Hge; lia|].
  simpl.
  destruct (lookup_lt_is_Some_2 table (Z.to_nat id_)) as [row ->]; [lia|].
  eauto.
Qed.

Lemma effective_parent_state_resolves ts s m :
  parent m = NULL ∨ 0 <= parent m < Z.of_nat (length (ts_mutations ts)) ->
  exists pa, effective_parent_state ts s m = OK pa.
Proof.
  intros Hp. unfold effective_parent_state.
  destruct (decide (parent m = NULL)) as [Hn|Hn]; [eauto|].
  destruct Hp as [Hp|Hp]; [contradiction|].
  unfold mutation. destruct (table_row_in_range _ _ Hp) as [row ->].
  simpl. eauto.
Qed.

Lemma counted_states_parent ts e pa :
  e ∈ events (ts_sites ts) ->
  effective_parent_state ts e.1 e.2 = OK pa -> pa ∈ counted_states ts.
Proof.
  intros He Hpa. unfold counted_states. apply list_elem_of_bind.
  exists e. split; [|assumption]. rewrite Hpa. in_list.
Qed.

Lemma counted_states_derived ts e :
  e ∈ events (ts_sites ts) -> derived_state e.2 ∈ counted_states ts.
Proof.
  intros He. unfold counted_states. apply list_elem_of_bind.
  exists e. split; [|assumption].
  destruct (effective_parent_state ts e.1 e.2); in_list.
Qed.

Lemma counted_subseteq_observed ts : counted_states ts ⊆ observed_states ts.
Proof.
  intros x Hx. unfold counted_states in Hx.
  apply list_elem_of_bind in Hx as ([s m] & Hx & He).
  apply elem_of_events in He as [Hs Hm]. simpl in *.
  unfold observed_states. apply list_elem_of_bind. exists s.
  split; [|assumption].
  assert (Hd : derived_state m ∈
               ancestral_state s
               :: (m ← mutations s; derived_state m :: parent_states ts m)).
  { apply elem_of_cons. right. apply list_elem_of_bind. exists m.
    split; [|assumption]. in_list. }
  unfold effective_parent_state in Hx.
  destruct (decide (parent m = NULL)) as [Hn|Hn].
  - apply elem_of_cons in Hx as [->|Hx]; [in_list|].
    apply list_elem_of_singleton in Hx as ->. assumption.
  - destruct (mutation ts (parent m)) as [pm|err] eqn:Hpm; simpl in Hx.
    + apply elem_of_cons in Hx as [->|Hx].
      * apply elem_of_cons. right. apply list_elem_of_bind. exists m.
        split; [|assumption]. apply elem_of_cons. right.
        unfold parent_states. rewrite decide_False by assumption.
        rewrite Hpm. in_list.
      * apply list_elem_of_singleton in Hx as ->. assumption.
    + apply list_elem_of_singleton in Hx as ->. assumption.
Qed.

(** With resolvable parents, the events are countable exactly when the
    looked-up states are all in the alphabet. *)
Lemma countable_iff_counted ts al :
  parents_resolve ts ->
  countable_events ts al (events (ts_sites ts)) <-> counted_states ts ⊆ al.
Proof.
  intros Hres. unfold countable_events. rewrite Forall_forall. split.
  - intros Hall x Hx. unfold counted_states in Hx.
    apply list_elem_of_bind in Hx as (e & Hx & He).
    specialize (Hall e He). apply is_OK_inv in Hall as [[i j] Hc].
    unfold cell in Hc.
    destruct (effective_parent_state ts e.1 e.2) as [pa|?]; [|discriminate].
    simpl in Hc.
    destruct (index al pa) as [i'|?] eqn:Hi; [|discriminate]. simpl in Hc.
    destruct (index al (derived_state e.2)) as [j'|?] eqn:Hj; [|discriminate].
    apply index_OK_lookup in Hi, Hj.
    apply elem_of_cons in Hx as [->|Hx].
    + eapply list_elem_of_lookup_2, Hi.
    + apply list_elem_of_singleton in Hx as ->.
      eapply list_elem_of_lookup_2, Hj.
  - intros Hsub e He.
    unfold parents_resolve in Hres. rewrite Forall_forall in Hres.
    destruct (effective_parent_state_resolves ts e.1 e.2 (Hres e He))
      as [pa Hpa].
    destruct (index_elem_of al pa) as [i Hi].
    { apply Hsub. eapply counted_states_parent; eassumption. }
    destruct (index_elem_of al (derived_state e.2)) as [j Hj].
    { apply Hsub. apply counted_states_derived. assumption. }
    unfold cell. rewrite Hpa. simpl. rewrite Hi. simpl. rewrite Hj. exact I.
Qed.

Lemma countable_of_observed ts al :
  parents_resolve ts -> observed_states ts ⊆ al ->
  countable_events ts al (events (ts_sites ts)).
Proof.
  intros Hres Hobs. apply countable_iff_counted; [assumption|].
  etransitivity; [apply counted_subseteq_observed | assumption].
Qed.

(** In an alphabet without repetition, an event increments cell [(i, j)]
    exactly when it goes from the [i]-th allele to the [j]-th. *)
Lemma cell_iff_transition ts al e i j a b :
  NoDup al -> al !! i = Some a -> al !! j = Some b ->
  cell ts al e = OK (i, j) <-> is_transition ts a b e.
Proof.
  intros Hnd Ha Hb. unfold cell, is_transition. split.
  - destruct (effective_parent_state ts e.1 e.2) as [pa|?]; [|discriminate].
    simpl.
    destruct (index al pa) as [i'|?] eqn:Hi; [|discriminate]. simpl.
    destruct (index al (derived_state e.2)) as [j'|?] eqn:Hj; [|discriminate].
    simpl. intros [= -> ->].
    apply index_OK_lookup in Hi, Hj. split; congruence.
  - intros [-> <-]. simpl.
    rewrite (index_NoDup al a i), (index_NoDup al (derived_state e.2) j)
      by assumption.
    reflexivity.
Qed.

Lemma hits_transitions ts al sites i j a b :
  NoDup al -> al !! i = Some a -> al !! j = Some b ->
  hits ts al i j (events sites) = transitions ts sites a b.
Proof.
  intros Hnd Ha Hb. unfold hits, transitions. f_equal.
  apply list_filter_iff. intros e.
  apply cell_iff_transition; assumption.
Qed.

Lemma wrap64_hits ts al i j es :
  Z.of_nat (length es) <= max_rows ->
  wrap64 (Z.of_nat (hits ts al i j es)) = Z.of_nat (hits ts al i j es).
Proof.
  intros Hlen. apply wrap64_small.
  pose proof (hits_le ts al i j es). unfold max_rows in Hlen. lia.
Qed.

(** ** The sum of the entries *)

Lemma sumZ_cons (x : Z) (l : list Z) : sumZ (x :: l) = x + sumZ l.
Proof. reflexivity. Qed.

Lemma matrix_sum_cons (row : list Z) (counts : matrix) :
  matrix_sum (row :: counts) = sumZ row + matrix_sum counts.
Proof. reflexivity. Qed.

Lemma sumZ_nonneg (l : list Z) : Forall (fun c => 0 <= c) l -> 0 <= sumZ l.
Proof.
  induction 1 as [|x l Hx _ IH]; [reflexivity|]. rewrite sumZ_cons. lia.
Qed.

Lemma matrix_sum_nonneg (counts : matrix) :
  non_negative_entries counts -> 0 <= matrix_sum counts.
Proof.
  induction 1 as [|row counts Hrow _ IH]; [reflexivity|].
  rewrite matrix_sum_cons. apply sumZ_nonneg in Hrow. lia.
Qed.

Lemma sumZ_lookup_le (l : list Z) (j : nat) (c : Z) :
  Forall (fun c => 0 <= c) l -> l !! j = Some c -> 0 <= c <= sumZ l.
Proof.
  intros Hl. revert j. induction Hl as [|x l Hx Hl IH]; intros j Hj.
  - discriminate.
  - rewrite sumZ_cons. pose proof (sumZ_nonneg l Hl).
    destruct j as [|j]; simpl in Hj.
    + injection Hj as ->. lia.
    + specialize (IH j Hj). lia.
Qed.

Lemma entry_le_sum (counts : matrix) (i j : nat) (c : Z) :
  non_negative_entries counts -> entry counts i j = Some c ->
  0 <= c <= matrix_sum counts.
Proof.
  intros Hc. revert i. induction Hc as [|row counts Hrow Hc IH]; intros i Hij.
  - discriminate.
  - rewrite matrix_sum_cons.
    pose proof (sumZ_nonneg row Hrow). pose proof (matrix_sum_nonneg counts Hc).
    destruct i as [|i]; unfold entry in Hij; simpl in Hij.
    + pose proof (sumZ_lookup_le row j c Hrow Hij). lia.
    + specialize (IH i Hij). lia.
Qed.

Lemma sumZ_alter (l : list Z) (f : Z -> Z) (j : nat) (c : Z) :
  l !! j = Some c -> sumZ (alter f j l) = sumZ l - c + f c.
Proof.
  revert j. induction l as [|x l IH]; intros j Hj; [discriminate|].
  destruct j as [|j]; simpl in Hj.
  - injection Hj as ->. change (f c + sumZ l = c + sumZ l - c + f c). lia.
  - change (x + sumZ (alter f j l) = x + sumZ l - c + f c).
    rewrite (IH j Hj). lia.
Qed.

Lemma matrix_sum_alter (counts : matrix) (f : Z -> Z) (i j : nat) (c : Z) :
  entry counts i j = Some c ->
  matrix_sum (alter (alter f j) i counts) = matrix_sum counts - c + f c.
Proof.
  revert i. induction counts as [|row counts IH]; intros i Hij; [discriminate|].
  destruct i as [|i]; unfold entry in Hij; simpl in Hij.
  - change (sumZ (alter f j row) + matrix_sum counts =
            sumZ row + matrix_sum counts - c + f c).
    rewrite (sumZ_alter row f j c Hij). lia.
  - change (sumZ row + matrix_sum (alter (alter f j) i counts) =
            sumZ row + matrix_sum counts - c + f c).
    rewrite (IH i Hij). lia.
Qed.

Lemma non_negative_alter (counts : matrix) (f : Z -> Z) (i j : nat) (c : Z) :
  non_negative_entries counts -> entry counts i j = Some c -> 0 <= f c ->
  non_negative_entries (alter (alter f j) i counts).
Proof.
  intros Hc Hij Hf. unfold non_negative_entries.
  apply Forall_alter; [assumption|].
  intros row Hrow Hnn. apply Forall_alter; [assumption|].
  intros x Hx _. unfold entry in Hij. rewrite Hrow in Hij. simpl in Hij.
  rewrite Hx in Hij. injection Hij as ->. assumption.
Qed.

Lemma non_negative_zeros (k : nat) : non_negative_entries (np_zeros k k).
Proof.
  unfold non_negative_entries, np_zeros.
  apply Forall_replicate, Forall_replicate. reflexivity.
Qed.

Lemma sumZ_replicate_0 (k : nat) : sumZ (replicate k 0) = 0.
Proof. induction k as [|k IH]; [reflexivity|]. simpl. exact IH. Qed.

Lemma matrix_sum_zeros (r c : nat) : matrix_sum (np_zeros r c) = 0.
Proof.
  unfold matrix_sum, np_zeros. induction r as [|r IH]; [reflexivity|].
  simpl. rewrite sumZ_replicate_0. exact IH.
Qed.

(** As long as the sum stays below [2^63], each event adds one to it and no
    entry wraps. *)
Lemma count_events_sum ts al es :
  forall (counts : matrix),
  shape (length al) counts ->
  non_negative_entries counts ->
  matrix_sum counts + Z.of_nat (length es) < 2 ^ 63 ->
  countable_events ts al es ->
  exists counts',
    for_each (count_event ts al) counts es = OK counts' ∧
    shape (length al) counts' ∧
    non_negative_entries counts' ∧
    matrix_sum counts' = matrix_sum counts + Z.of_nat (length es).
Proof.
  induction es as [|e es IH]; intros counts Hs Hnn Hsum Hes.
  - exists counts. simpl. repeat split; try assumption; try apply Hs. lia.
  - apply Forall_cons in Hes as [Hc Hes].
    apply is_OK_inv in Hc as [[i j] Hc].
    destruct (cell_lt _ _ _ _ _ Hc) as [Hi Hj].
    rewrite for_each_cons, (count_event_cell _ _ _ _ _ _ Hc).
    rewrite (np_incr_OK (length al)), bind_OK by assumption.
    destruct (shape_entry _ _ _ _ Hs Hi Hj) as [c Hij].
    pose proof (entry_le_sum _ _ _ _ Hnn Hij) as Hle.
    rewrite length_cons in Hsum.
    assert (Hw : wrap64 (c + 1) = c + 1) by (apply wrap64_small; lia).
    set (counts1 := alter (alter (fun c => wrap64 (c + 1)) j) i counts).
    assert (Hsum1 : matrix_sum counts1 = matrix_sum counts + 1).
    { unfold counts1. rewrite (matrix_sum_alter _ _ _ _ c Hij), Hw. lia. }
    destruct (IH counts1) as (counts' & Hrun & Hs' & Hnn' & Hsum').
    + apply shape_alter. assumption.
    + apply (non_negative_alter _ _ _ _ c); [assumption..|]. rewrite Hw. lia.
    + rewrite Hsum1. lia.
    + assumption.
    + exists counts'. repeat split; try assumption; try apply Hs'.
      rewrite Hsum', Hsum1, length_cons. lia.
Qed.

(** ** The loops on the store *)

Lemma put_counts_put w cr c1 c2 :
  put_counts (put_counts w cr c1) cr c2 = put_counts w cr c2.
Proof. unfold put_counts. simpl. rewrite insert_insert_eq. reflexivity. Qed.

Lemma put_counts_same w cr c :
  heap w !! cr = Some (ONdarray c) -> put_counts w cr c = w.
Proof.
  intros H. unfold put_counts. rewrite insert_id by assumption.
  destruct w; reflexivity.
Qed.

Lemma holds_put w tsr alr cr ts al c c' :
  holds w tsr alr cr ts al c -> holds (put_counts w cr c') tsr alr cr ts al c'.
Proof.
  intros (Hts & Hal & Hc & Hn1 & Hn2). unfold holds, put_counts. simpl.
  rewrite !lookup_insert_ne by assumption. rewrite lookup_insert_eq. auto.
Qed.


Lemma count_mutation_py_run tsr alr cr ts al counts aa m w :
  holds w tsr alr cr ts al counts ->
  count_mutation_py tsr alr cr aa m w =
  match count_mutation ts al aa counts m with
  | OK counts' => (put_counts w cr counts', OK tt)
  | Err e => (w, Err e)
  end.
Proof.
  intros (Hts & Hal & Hc & _ & _).
  unfold count_mutation_py, count_mutation. py_unfold.
  destruct (decide (parent m ≠ NULL)) as [Hp|Hp].
  - rewrite Hts. destruct (mutation ts (parent m)) as [pm|e]; [|reflexivity].
    rewrite Hal. simpl.
    destruct (index al (derived_state pm)) as [i|e]; [|reflexivity].
    rewrite Hal. simpl.
    destruct (index al (derived_state m)) as [j|e]; [|reflexivity].
    rewrite Hc. simpl.
    destruct (np_incr counts i j) as [c'|e]; reflexivity.
  - rewrite Hal. simpl.
    destruct (index al aa) as [i|e]; [|reflexivity].
    rewrite Hal. simpl.
    destruct (index al (derived_state m)) as [j|e]; [|reflexivity].
    rewrite Hc. simpl.
    destruct (np_incr counts i j) as [c'|e]; reflexivity.
Qed.

(** The in-place inner loop follows the loop on arrays; when it raises, the
    array is left as the loop had it by then. *)
Lemma count_site_py_run tsr alr cr ts al s :
  forall counts w,
  holds w tsr alr cr ts al counts ->
  exists counts',
    count_site_py tsr alr cr s w =
      (put_counts w cr counts', outcome (count_site ts al counts s)) ∧
    (forall c, count_site ts al counts s = OK c -> counts' = c).
Proof.
  unfold count_site_py, count_site. simpl.
  generalize (mutations s) as ms.
  induction ms as [|m ms IH]; intros counts w Hw.
  - exists counts. split.
    + simpl. rewrite put_counts_same by apply Hw. reflexivity.
    + intros c [= <-]. reflexivity.
  - simpl. unfold mbind at 1, Py_bind at 1.
    rewrite (count_mutation_py_run _ _ _ _ _ _ _ _ _ Hw).
    destruct (count_mutation ts al (ancestral_state s) counts m)
      as [counts1|e]; simpl.
    + destruct (IH counts1 (put_counts w cr counts1) (holds_put _ _ _ _ _ _ _ _ Hw))
        as (counts' & Hrun & Hfin).
      exists counts'. rewrite Hrun, put_counts_put. split; [reflexivity|].
      exact Hfin.
    + exists counts. rewrite put_counts_same by apply Hw.
      split; [reflexivity | discriminate].
Qed.

Lemma count_sites_py_run tsr alr cr ts al sites :
  forall counts w,
  holds w tsr alr cr ts al counts ->
  exists counts',
    py_for (count_site_py tsr alr cr) sites w =
      (put_counts w cr counts', outcome (count_sites ts al counts sites)) ∧
    (forall c, count_sites ts al counts sites = OK c -> counts' = c).
Proof.
  unfold count_sites.
  induction sites as [|s sites IH]; intros counts w Hw.
  - exists counts. split.
    + simpl. rewrite put_counts_same by apply Hw. reflexivity.
    + intros c [= <-]. reflexivity.
  - simpl. unfold mbind at 1, Py_bind at 1.
    destruct (count_site_py_run tsr alr cr ts al s counts w Hw)
      as (counts1 & Hrun1 & Hfin1).
    rewrite Hrun1.
    destruct (count_site ts al counts s) as [c1|e]; simpl.
    + rewrite (Hfin1 c1 eq_refl) in *.
      destruct (IH c1 (put_counts w cr c1) (holds_put _ _ _ _ _ _ _ _ Hw))
        as (counts' & Hrun & Hfin).
      exists counts'. rewrite Hrun, put_counts_put. split; [reflexivity|].
      exact Hfin.
    + exists counts1. split; [reflexivity | discriminate].
Qed.

(** ** Printing *)

Lemma print_rows_run cr counts (al : list string) :
  forall (n : nat) (w : World),
  heap w !! cr = Some (ONdarray counts) ->
  (n + length al <= length counts)%nat ->
  py_for (print_row cr) (imap (fun i a => (n + i, a)%nat) al) w =
  (mkWorld (heap w) (stdout w ++ zip_with row_line al (drop n counts)), OK tt).
Proof.
  induction al as [|a al IH]; intros n w Hc Hlen.
  - simpl. rewrite app_nil_r. destruct w; reflexivity.
  - simpl in Hlen.
    destruct (lookup_lt_is_Some_2 counts n) as [row Hrow]; [lia|].
    rewrite (drop_S _ _ _ Hrow). simpl.
    unfold mbind at 1, Py_bind at 1.
    unfold print_row at 1. py_unfold. rewrite Hc. simpl.
    rewrite Nat.add_0_r, Hrow. unfold print2, print. simpl.
    rewrite (imap_ext _ (fun i a => (S n + i, a)%nat)).
    2:{ intros i x _. simpl. f_equal. lia. }
    rewrite (IH (S n)); simpl; [|assumption|lia].
    rewrite <- app_assoc. reflexivity.
Qed.

(** ** The whole function on the store *)

Lemma fresh_not_in (w : World) (l : loc) (o : object) :
  heap w !! l = Some o -> fresh (dom (heap w)) ≠ l.
Proof.
  intros Hl Heq.
  apply (is_fresh (dom (heap w))). rewrite Heq.
  apply elem_of_dom. eauto.
Qed.

(** With a tree sequence at [tsr] and a list at [alr], the call allocates one
    array, runs the loops on it and, if they end, prints it and returns
    [None]. *)
Lemma count_transitions_run tsr alr w ts al :
  heap w !! tsr = Some (OTreeSequence ts) ->
  heap w !! alr = Some (OList al) ->
  exists counts,
    count_transitions tsr alr w =
      (mkWorld (<[fresh (dom (heap w)) := ONdarray counts]> (heap w))
         (stdout w ++
          match count_matrix ts al with
          | OK _ => render al counts
          | Err _ => []
          end),
       match count_matrix ts al with
       | OK _ => OK VNone
       | Err e => Err e
       end) ∧
    (forall c, count_matrix ts al = OK c -> counts = c).
Proof.
  intros Hts Hal.
  set (cr := fresh (dom (heap w))).
  set (zeros := np_zeros (length al) (length al)).
  assert (Hw : holds (put_counts w cr zeros) tsr alr cr ts al zeros).
  { unfold holds, put_counts. simpl.
    pose proof (fresh_not_in w tsr _ Hts). pose proof (fresh_not_in w alr _ Hal).
    rewrite !lookup_insert_ne by assumption. rewrite lookup_insert_eq. auto. }
  destruct (count_sites_py_run tsr alr cr ts al (ts_sites ts) zeros _ Hw)
    as (counts & Hrun & Hfin).
  rewrite put_counts_put in Hrun.
  change (count_sites ts al zeros (ts_sites ts)) with (count_matrix ts al)
    in Hrun, Hfin.
  exists counts. split; [|exact Hfin].
  unfold count_transitions.
  unfold mbind at 1, Py_bind at 1, get_list at 1. rewrite Hal.
  unfold mbind at 1, Py_bind at 1, alloc at 1. simpl.
  fold cr. fold zeros.
  change (mkWorld (<[cr := ONdarray zeros]> (heap w)) (stdout w))
    with (put_counts w cr zeros).
  destruct Hw as (Hts' & Hal' & Hc' & Hn1 & Hn2).
  unfold mbind at 1, Py_bind at 1, get_ts at 1. rewrite Hts'.
  unfold mbind at 1, Py_bind at 1. rewrite Hrun.
  destruct (count_matrix ts al) as [c|e] eqn:Hcm; simpl.
  - rewrite (Hfin c eq_refl) in *.
    assert (Hshape : length c = length al).
    { destruct (count_matrix_entries ts al) as (c' & Hc1 & [Hlen _] & _).
      - eapply count_matrix_OK_countable, Hcm.
      - congruence. }
    unfold mbind at 1, Py_bind at 1, get_list at 1. simpl.
    rewrite lookup_insert_ne by assumption. rewrite Hal.
    unfold mbind at 1, Py_bind at 1, print2 at 1, print at 1. simpl.
    unfold mbind at 1, Py_bind at 1.
    rewrite (imap_ext _ (fun i a => (0 + i, a)%nat)) by reflexivity.
    rewrite (print_rows_run cr c al 0); simpl.
    + rewrite <- app_assoc. reflexivity.
    + apply lookup_insert_eq.
    + lia.
  - rewrite app_nil_r. reflexivity.
Qed.

(** ** Errors of the loops *)

Lemma cell_cases ts al e :
  parent e.2 = NULL ∨ 0 <= parent e.2 < Z.of_nat (length (ts_mutations ts)) ->
  is_OK (cell ts al e) ∨ cell ts al e = Err ValueError.
Proof.
  intros Hp. unfold cell.
  destruct (effective_parent_state_resolves ts e.1 e.2 Hp) as [pa ->].
  rewrite bind_OK.
  destruct (index_cases al pa) as [[i ->]| ->]; [|right; reflexivity].
  rewrite bind_OK.
  destruct (index_cases al (derived_state e.2)) as [[j ->]| ->];
    [left; exact I | right; reflexivity].
Qed.

Lemma count_events_ValueError ts al es :
  forall (counts : matrix) (err : exn),
  shape (length al) counts ->
  Forall (fun e : Site * Mutation =>
            parent e.2 = NULL ∨
            0 <= parent e.2 < Z.of_nat (length (ts_mutations ts))) es ->
  for_each (count_event ts al) counts es = Err err -> err = ValueError.
Proof.
  induction es as [|e es IH]; intros counts err Hs Hres Hrun.
  - discriminate.
  - apply Forall_cons in Hres as [He Hres]. rewrite for_each_cons in Hrun.
    destruct (cell_cases ts al e He) as [Hc|Hc].
    + apply is_OK_inv in Hc as [[i j] Hc].
      destruct (cell_lt _ _ _ _ _ Hc) as [Hi Hj].
      rewrite (count_event_cell _ _ _ _ _ _ Hc) in Hrun.
      rewrite (np_incr_OK (length al)), bind_OK in Hrun by assumption.
      eapply IH; [|eassumption..]. apply shape_alter. assumption.
    + rewrite (count_event_raises _ _ _ _ _ Hc) in Hrun.
      rewrite bind_Err in Hrun. congruence.
Qed.

Lemma count_matrix_cases ts al :
  parents_resolve ts ->
  (countable_events ts al (events (ts_sites ts)) ∧
   exists counts, count_matrix ts al = OK counts) ∨
  (¬ countable_events ts al (events (ts_sites ts)) ∧
   count_matrix ts al = Err ValueError).
Proof.
  intros Hres.
  destruct (decide (countable_events ts al (events (ts_sites ts)))) as [H|H].
  - left. split; [assumption|].
    destruct (count_matrix_entries ts al H) as (counts & Hrun & _). eauto.
  - right. split; [assumption|].
    destruct (count_events_raises ts al (events (ts_sites ts))
                (np_zeros (length al) (length al)) (shape_zeros _) H)
      as [err Herr].
    rewrite count_matrix_events, Herr. f_equal.
    eapply count_events_ValueError; [apply shape_zeros | exact Hres | exact Herr].
Qed.

(** ** The claims about the count matrix *)

(** C1. For a tree sequence and an alphabet (without repetition) that holds
    all observed states, the loops of [count_transitions] end with a k-by-k
    matrix whose entry (i, j) is the number of mutation events, over all
    sites, whose effective parent state is the i-th allele and whose derived
    state is the j-th allele.  The function keeps this matrix in the array it
    allocates and prints it; what it returns is [None], not the matrix. *)
Theorem count_matrix_counts_transitions ts al :
  NoDup al -> valid_ts ts -> observed_states ts ⊆ al ->
  exists counts,
    count_matrix ts al = OK counts ∧
    shape (length al) counts ∧
    (forall i j a b, al !! i = Some a -> al !! j = Some b ->
       entry counts i j = Some (Z.of_nat (transitions ts (ts_sites ts) a b))) ∧
    (forall w tsr alr,
       heap w !! tsr = Some (OTreeSequence ts) ->
       heap w !! alr = Some (OList al) ->
       let w' := (count_transitions tsr alr w).1 in
       heap w' !! fresh (dom (heap w)) = Some (ONdarray counts) ∧
       stdout w' = stdout w ++ render al counts ∧
       (count_transitions tsr alr w).2 = OK VNone).
Proof.
  intros Hnd [Hres Hmax] Hobs.
  destruct (count_matrix_entries ts al (countable_of_observed ts al Hres Hobs))
    as (counts & Hrun & Hs & Hent).
  exists counts. split; [assumption|]. split; [assumption|]. split.
  - intros i j a b Ha Hb.
    rewrite Hent by (eapply lookup_lt_Some; eassumption).
    rewrite wrap64_hits by assumption.
    rewrite (hits_transitions ts al _ i j a b) by assumption. reflexivity.
  - intros w tsr alr Hts Hal.
    destruct (count_transitions_run tsr alr w ts al Hts Hal)
      as (c & Hrun' & Hfin).
    rewrite Hrun', Hrun, (Hfin counts Hrun). simpl.
    rewrite lookup_insert_eq. auto.
Qed.

(** C1 as stated fails: for one site with ancestral state A and a mutation
    to C, counted against the alphabet A, C, which holds all observed
    states, the matrix has (A,C) = 1, but the call returns [None]: neither
    the matrix nor a reference to it. *)
Lemma count_transitions_returns_no_matrix :
  NoDup AC ∧ valid_ts ts_one_event ∧ observed_states ts_one_event ⊆ AC ∧
  count_matrix ts_one_event AC = OK [[0; 1]; [0; 0]] ∧
  (count_transitions 1%positive 2%positive world_one_event).2 = OK VNone ∧
  (forall l, (count_transitions 1%positive 2%positive world_one_event).2
             ≠ OK (VRef l)).
Proof.
  split; [by_compute|]. split; [split; by_compute|]. split; [by_compute|].
  split; [reflexivity|]. split; [vm_compute; reflexivity|].
  intros l. vm_compute. discriminate.
Qed.

(** Why the alphabet must be without repetition: [index] finds the first
    occurrence, so a repeated allele leaves the cells of its later positions
    at zero. *)
Remark repeated_allele_counts_first :
  let ts := mkTreeSequence [mkSite "A" [mkMutation "A" NULL]]
              [mkMutation "A" NULL] [] in
  count_matrix ts ["A"; "A"]%string = OK [[1; 0]; [0; 0]] ∧
  transitions ts (ts_sites ts) "A" "A" = 1%nat.
Proof. split; reflexivity. Qed.

(** C2. On the scenario of §8 (alphabet A, C, G, T; site 1 ancestral A with a
    parentless mutation to C; site 2 ancestral G with a parentless mutation
    to T and a mutation to A on top of it; site 3 ancestral C without
    mutations) the matrix has (A,C) = 1, (G,T) = 1, (T,A) = 1 and 0
    elsewhere; this is what the function prints, and it returns [None]. *)
Theorem scenario_count_matrix :
  count_matrix scenario_ts (alleles scenario_model) = OK scenario_counts ∧
  entry scenario_counts 0 1 = Some 1 ∧
  entry scenario_counts 2 3 = Some 1 ∧
  entry scenario_counts 3 0 = Some 1 ∧
  matrix_sum scenario_counts = 3 ∧
  non_negative_entries scenario_counts ∧
  stdout (count_transitions 1%positive 2%positive scenario_world).1 =
    render ACGT scenario_counts ∧
  (count_transitions 1%positive 2%positive scenario_world).2 = OK VNone.
Proof.
  split; [reflexivity|]. split; [reflexivity|]. split; [reflexivity|].
  split; [reflexivity|]. split; [reflexivity|].
  split; [|split; vm_compute; reflexivity].
  unfold non_negative_entries, scenario_counts.
  repeat (constructor; try lia).
Qed.

(** C2 as stated fails: on the scenario the call returns [None]; the matrix
    is only in the array that the call leaves in the store, to which the
    result is no reference. *)
Lemma scenario_call_returns_no_matrix :
  (count_transitions 1%positive 2%positive scenario_world).2 = OK VNone ∧
  (forall l, (count_transitions 1%positive 2%positive scenario_world).2
             ≠ OK (VRef l)) ∧
  heap (count_transitions 1%positive 2%positive scenario_world).1
    !! fresh (dom (heap scenario_world)) = Some (ONdarray scenario_counts).
Proof.
  split; [vm_compute; reflexivity|]. split.
  - intros l. vm_compute. discriminate.
  - vm_compute. reflexivity.
Qed.

(** C9. For a tree sequence and an alphabet that holds all observed states,
    the entries of the matrix add up to the number of mutation events of all
    sites, and no entry is negative. *)
Theorem count_matrix_sum ts al :
  valid_ts ts -> observed_states ts ⊆ al ->
  exists counts,
    count_matrix ts al = OK counts ∧
    matrix_sum counts = Z.of_nat (length (events (ts_sites ts))) ∧
    non_negative_entries counts.
Proof.
  intros [Hres Hmax] Hobs.
  destruct (count_events_sum ts al (events (ts_sites ts))
              (np_zeros (length al) (length al)))
    as (counts & Hrun & _ & Hnn & Hsum).
  - apply shape_zeros.
  - apply non_negative_zeros.
  - rewrite matrix_sum_zeros. unfold max_rows in Hmax. lia.
  - apply countable_of_observed; assumption.
  - exists counts. rewrite count_matrix_events.
    rewrite matrix_sum_zeros in Hsum. auto.
Qed.


Lemma count_matrix_counts_transitions_witness :
  exists counts,
    count_matrix scenario_ts ACGT = OK counts ∧
    shape (length ACGT) counts ∧
    (forall i j a b, ACGT !! i = Some a -> ACGT !! j = Some b ->
       entry counts i j =
       Some (Z.of_nat (transitions scenario_ts (ts_sites scenario_ts) a b))) ∧
    (forall w tsr alr,
       heap w !! tsr = Some (OTreeSequence scenario_ts) ->
       heap w !! alr = Some (OList ACGT) ->
       let w' := (count_transitions tsr alr w).1 in
       heap w' !! fresh (dom (heap w)) = Some (ONdarray counts) ∧
       stdout w' = stdout w ++ render ACGT counts ∧
       (count_transitions tsr alr w).2 = OK VNone).
Proof.
  apply (count_matrix_counts_transitions scenario_ts ACGT).
  - by_compute.
  - split; by_compute.
  - by_compute.
Defined.

Lemma count_matrix_sum_witness :
  exists counts,
    count_matrix scenario_ts ACGT = OK counts ∧
    matrix_sum counts = Z.of_nat (length (events (ts_sites scenario_ts))) ∧
    non_negative_entries counts.
Proof.
  apply (count_matrix_sum scenario_ts ACGT).
  - split; by_compute.
  - by_compute.
Defined.

Lemma is_OK_cell_iff ts al e :
  is_OK (cell ts al e) <->
  exists pa, effective_parent_state ts e.1 e.2 = OK pa ∧
             pa ∈ al ∧ derived_state e.2 ∈ al.
Proof.
  unfold cell. split.
  - destruct (effective_parent_state ts e.1 e.2) as [pa|?]; [|contradiction].
    rewrite bind_OK.
    destruct (index al pa) as [i|?] eqn:Hi; [|contradiction].
    rewrite bind_OK.
    destruct (index al (derived_state e.2)) as [j|?] eqn:Hj; [|contradiction].
    intros _. exists pa. apply index_OK_lookup in Hi, Hj.
    split; [reflexivity|].
    split; eapply list_elem_of_lookup_2; eassumption.
  - intros (pa & -> & Hpa & Hda). rewrite bind_OK.
    destruct (index_elem_of al pa Hpa) as [i ->]. rewrite bind_OK.
    destruct (index_elem_of al _ Hda) as [j ->]. exact I.
Qed.

(** C4, as the code has it. When every parent id resolves, the loops raise
    [ValueError] exactly when some mutation has a derived state or an
    effective parent state (its parent's derived state, or its site's
    ancestral state when it has no parent) outside the alphabet, and they end
    with a matrix exactly when no mutation has.  The ancestral state of a
    site is looked up only through a mutation without parent. *)
Theorem count_matrix_ValueError_iff ts al :
  parents_resolve ts ->
  (count_matrix ts al = Err ValueError <->
   exists s m, s ∈ ts_sites ts ∧ m ∈ mutations s ∧
     (derived_state m ∉ al ∨
      exists pa, effective_parent_state ts s m = OK pa ∧ pa ∉ al)) ∧
  ((exists counts, count_matrix ts al = OK counts) <->
   forall s m, s ∈ ts_sites ts -> m ∈ mutations s ->
     derived_state m ∈ al ∧
     exists pa, effective_parent_state ts s m = OK pa ∧ pa ∈ al).
Proof.
  intros Hres.
  assert (Hall : countable_events ts al (events (ts_sites ts)) <->
            forall s m, s ∈ ts_sites ts -> m ∈ mutations s ->
              derived_state m ∈ al ∧
              exists pa, effective_parent_state ts s m = OK pa ∧ pa ∈ al).
  { unfold countable_events. rewrite Forall_forall. split.
    - intros H s m Hs Hm.
      destruct (proj1 (is_OK_cell_iff ts al (s, m))) as (pa & Hpa & Hin & Hd).
      { apply H. apply elem_of_events. auto. }
      eauto.
    - intros H [s m] He. apply elem_of_events in He as [Hs Hm].
      destruct (H s m Hs Hm) as (Hd & pa & Hpa & Hin).
      apply is_OK_cell_iff. eauto. }
  assert (Hbad : ¬ countable_events ts al (events (ts_sites ts)) <->
            exists s m, s ∈ ts_sites ts ∧ m ∈ mutations s ∧
              (derived_state m ∉ al ∨
               exists pa, effective_parent_state ts s m = OK pa ∧ pa ∉ al)).
  { split.
    - intros Hn. apply not_Forall_Exists in Hn; [|intros e; apply _].
      apply Exists_exists in Hn as ([s m] & He & Hcell).
      exists s, m. pose proof He as He'.
      apply elem_of_events in He' as [Hs Hm].
      split; [assumption|]. split; [assumption|].
      unfold parents_resolve in Hres. rewrite Forall_forall in Hres.
      destruct (effective_parent_state_resolves ts s m (Hres _ He))
        as [pa Hpa].
      destruct (decide (derived_state m ∈ al)) as [Hd|Hd]; [|auto].
      destruct (decide (pa ∈ al)) as [Hin|Hin]; [|eauto].
      exfalso. apply Hcell. apply is_OK_cell_iff. eauto.
    - intros (s & m & Hs & Hm & Hbad) Hc.
      destruct (proj1 Hall Hc s m Hs Hm) as (Hd & pa & Hpa & Hin).
      destruct Hbad as [Hd'|(pa' & Hpa' & Hin')]; [contradiction|].
      rewrite Hpa in Hpa'. injection Hpa' as <-. contradiction. }
  rewrite <- Hall, <- Hbad.
  destruct (count_matrix_cases ts al Hres) as [[Hc [counts Hrun]]|[Hc Hrun]];
    rewrite Hrun.
  - split; split.
    + discriminate.
    + intros Hn. contradiction.
    + intros _. exact Hc.
    + intros _. eauto.
  - split; split.
    + intros _. exact Hc.
    + reflexivity.
    + intros [counts [=]].
    + intros Hc'. contradiction.
Qed.

(** A site with ancestral state [N] and a mutation without parent makes the
    count against A, C, G, T raise. *)
Lemma count_matrix_ValueError_iff_witness :
  count_matrix ts_N_mutated ACGT = Err ValueError.
Proof.
  apply (count_matrix_ValueError_iff ts_N_mutated ACGT).
  - by_compute.
  - exists (mkSite "N" [mkMutation "A" NULL]), (mkMutation "A" NULL).
    split; [by_compute|]. split; [by_compute|].
    right. exists "N"%string. split; [reflexivity | by_compute].
Defined.

(** C4 as stated fails: a site with ancestral state [N] and no mutation has
    an observed state outside A, C, G, T, and the count still ends, with the
    zero matrix. *)
Lemma unmutated_site_is_not_checked :
  ("N"%string ∈ observed_states ts_N_silent) ∧
  ("N"%string ∉ ACGT) ∧
  count_matrix ts_N_silent ACGT = OK (np_zeros 4 4).
Proof.
  split; [by_compute|]. split; [by_compute|]. reflexivity.
Qed.

(** ** Adding matrices; shards *)

Lemma entry_np_add (a b : matrix) (i j : nat) (x y : Z) :
  entry a i j = Some x -> entry b i j = Some y ->
  entry (np_add a b) i j = Some (wrap64 (x + y)).
Proof.
  unfold entry, np_add. intros Ha Hb.
  rewrite lookup_zip_with.
  destruct (a !! i) as [ra|]; [|discriminate].
  destruct (b !! i) as [rb|]; [|discriminate].
  simpl in *. rewrite lookup_zip_with, Ha, Hb. reflexivity.
Qed.

Lemma shape_np_add (k : nat) (a b : matrix) :
  shape k a -> shape k b -> shape k (np_add a b).
Proof.
  intros [Hla Hra] [Hlb Hrb]. unfold np_add. split.
  - rewrite length_zip_with. lia.
  - apply Forall_lookup. intros i row Hrow.
    rewrite lookup_zip_with in Hrow.
    destruct (a !! i) as [ra|] eqn:Ha; [|discriminate].
    destruct (b !! i) as [rb|] eqn:Hb; [|discriminate].
    simpl in Hrow. injection Hrow as <-.
    pose proof (Forall_lookup_1 _ _ _ _ Hra Ha) as Hlra.
    pose proof (Forall_lookup_1 _ _ _ _ Hrb Hb) as Hlrb.
    simpl in Hlra, Hlrb. rewrite length_zip_with. lia.
Qed.

Lemma events_Permutation (l l' : list Site) :
  l ≡ₚ l' -> events l ≡ₚ events l'.
Proof. intros H. unfold events. rewrite H. reflexivity. Qed.

(** The matrix is determined by the numbers of hits. *)
Lemma count_matrix_same_hits ts ts' al :
  countable_events ts al (events (ts_sites ts)) ->
  countable_events ts' al (events (ts_sites ts')) ->
  (forall i j, hits ts al i j (events (ts_sites ts)) =
               hits ts' al i j (events (ts_sites ts'))) ->
  count_matrix ts al = count_matrix ts' al.
Proof.
  intros Hc Hc' Hhits.
  destruct (count_matrix_entries ts al Hc) as (c & -> & Hs & Hent).
  destruct (count_matrix_entries ts' al Hc') as (c' & -> & Hs' & Hent').
  f_equal. apply (matrix_ext (length al)); try assumption.
  intros i j Hi Hj. rewrite Hent, Hent', Hhits by assumption. reflexivity.
Qed.

(** C3. For a partition of the sites into two shards and an alphabet that
    holds all observed states, the counts of the two shards add up,
    elementwise and in either order, to the count of the whole. *)
Theorem count_matrix_shards ts al shard1 shard2 :
  valid_ts ts -> observed_states ts ⊆ al ->
  ts_sites ts ≡ₚ shard1 ++ shard2 ->
  exists c1 c2 c,
    count_matrix (with_sites ts shard1) al = OK c1 ∧
    count_matrix (with_sites ts shard2) al = OK c2 ∧
    count_matrix ts al = OK c ∧
    np_add c1 c2 = c ∧ np_add c2 c1 = c.
Proof.
  intros [Hres _] Hobs Hperm.
  pose proof (countable_of_observed ts al Hres Hobs) as Hc.
  pose proof (events_Permutation _ _ Hperm) as Hev. rewrite events_app in Hev.
  assert (Hc12 : countable_events ts al (events shard1 ++ events shard2)).
  { unfold countable_events in *. rewrite <- Hev. exact Hc. }
  apply Forall_app in Hc12 as [Hc1 Hc2].
  destruct (count_matrix_entries (with_sites ts shard1) al Hc1)
    as (c1 & Hrun1 & Hs1 & Hent1).
  destruct (count_matrix_entries (with_sites ts shard2) al Hc2)
    as (c2 & Hrun2 & Hs2 & Hent2).
  destruct (count_matrix_entries ts al Hc) as (c & Hrun & Hs & Hent).
  change (forall i j, (i < length al)%nat -> (j < length al)%nat ->
            entry c1 i j =
            Some (wrap64 (Z.of_nat (hits ts al i j (events shard1))))) in Hent1.
  change (forall i j, (i < length al)%nat -> (j < length al)%nat ->
            entry c2 i j =
            Some (wrap64 (Z.of_nat (hits ts al i j (events shard2))))) in Hent2.
  exists c1, c2, c. repeat (split; [assumption|]).
  assert (Hsum : forall i j, (i < length al)%nat -> (j < length al)%nat ->
            entry c i j =
            Some (wrap64 (Z.of_nat (hits ts al i j (events shard1))
                          + Z.of_nat (hits ts al i j (events shard2))))).
  { intros i j Hi Hj. rewrite Hent by assumption.
    rewrite (hits_Permutation _ _ _ _ _ _ Hev), hits_app.
    do 2 f_equal. lia. }
  split; apply (matrix_ext (length al));
    try (apply shape_np_add); try assumption; intros i j Hi Hj.
  - rewrite (entry_np_add _ _ _ _ _ _ (Hent1 i j Hi Hj) (Hent2 i j Hi Hj)).
    rewrite wrap64_add, Hsum by assumption. reflexivity.
  - rewrite (entry_np_add _ _ _ _ _ _ (Hent2 i j Hi Hj) (Hent1 i j Hi Hj)).
    rewrite wrap64_add, Hsum by assumption. do 2 f_equal. lia.
Qed.

Lemma count_matrix_shards_witness :
  exists c1 c2 c,
    count_matrix (with_sites scenario_ts
                    [mkSite "G" [mkMutation "T" NULL; mkMutation "A" 1]]) ACGT
      = OK c1 ∧
    count_matrix (with_sites scenario_ts
                    [mkSite "A" [mkMutation "C" NULL]; mkSite "C" []]) ACGT
      = OK c2 ∧
    count_matrix scenario_ts ACGT = OK c ∧
    np_add c1 c2 = c ∧ np_add c2 c1 = c.
Proof.
  apply (count_matrix_shards scenario_ts ACGT).
  - split; by_compute.
  - by_compute.
  - by_compute.
Defined.

(** ** Visiting the sites and the mutations in another order *)

Lemma cell_ancestral ts al s s' m :
  ancestral_state s = ancestral_state s' ->
  cell ts al (s, m) = cell ts al (s', m).
Proof.
  intros H. unfold cell, effective_parent_state. simpl. rewrite H. reflexivity.
Qed.

Lemma hits_site ts al i j s s' :
  same_site_reordered s s' ->
  hits ts al i j (pair s <$> mutations s) =
  hits ts al i j (pair s' <$> mutations s').
Proof.
  intros [Haa Hms].
  transitivity (hits ts al i j (pair s' <$> mutations s)).
  - generalize (mutations s) as ms.
    induction ms as [|m ms IH]; [reflexivity|].
    rewrite !fmap_cons, !hits_cons, IH, (cell_ancestral ts al s s' m Haa).
    reflexivity.
  - apply hits_Permutation. rewrite Hms. reflexivity.
Qed.

Lemma hits_reordered ts al i j sites sites' :
  reordered sites sites' ->
  hits ts al i j (events sites) = hits ts al i j (events sites').
Proof.
  intros (sites'' & Hperm & Hsame).
  rewrite (hits_Permutation _ _ _ _ _ _ (events_Permutation _ _ Hperm)).
  clear Hperm.
  induction Hsame as [|s s' l l' Hs _ IH]; [reflexivity|].
  rewrite !events_cons, !hits_app, IH, (hits_site ts al i j s s' Hs).
  reflexivity.
Qed.

(** A property of events that only looks at the ancestral state and the
    mutation holds of all events in one order when it does in another. *)
Lemma Forall_events_reordered (P : Site * Mutation -> Prop) sites sites' :
  (forall s s' m, ancestral_state s = ancestral_state s' ->
     P (s, m) <-> P (s', m)) ->
  reordered sites sites' ->
  Forall P (events sites) <-> Forall P (events sites').
Proof.
  intros HP (sites'' & Hperm & Hsame).
  rewrite (events_Permutation _ _ Hperm). clear Hperm.
  induction Hsame as [|s s' l l' [Haa Hms] _ IH]; [reflexivity|].
  rewrite !events_cons, !Forall_app, IH, !Forall_fmap, Hms.
  assert (Hs : Forall (P ∘ pair s) (mutations s') <->
               Forall (P ∘ pair s') (mutations s')).
  { apply Forall_iff. intros m. simpl. apply HP. assumption. }
  rewrite Hs. reflexivity.
Qed.

Lemma countable_reordered ts al sites sites' :
  reordered sites sites' ->
  countable_events ts al (events sites) <->
  countable_events ts al (events sites').
Proof.
  intros Hre. unfold countable_events.
  apply Forall_events_reordered; [|assumption].
  intros s s' m Haa. rewrite (cell_ancestral ts al s s' m Haa). reflexivity.
Qed.

Lemma parents_resolve_reordered ts sites' :
  reordered (ts_sites ts) sites' ->
  parents_resolve ts -> parents_resolve (with_sites ts sites').
Proof.
  intros Hre Hres. unfold parents_resolve in *. simpl.
  refine (proj1 (Forall_events_reordered _ _ _ _ Hre) Hres).
  intros s s' m _. reflexivity.
Qed.

(** C8. The count does not depend on the order of the visit: with the sites
    taken in another order, and the mutations within each site too, the loops
    end with the same matrix if they end at all; when every parent id
    resolves the outcome is the same also when they raise.  The outcome of
    the whole function depends on the tree sequence and the alphabet only,
    not on the store it runs in. *)
Theorem count_matrix_order_independent ts al sites' :
  reordered (ts_sites ts) sites' ->
  (forall counts,
     count_matrix ts al = OK counts <->
     count_matrix (with_sites ts sites') al = OK counts) ∧
  (parents_resolve ts ->
     count_matrix (with_sites ts sites') al = count_matrix ts al) ∧
  (forall w w' tsr alr tsr' alr',
     heap w !! tsr = Some (OTreeSequence ts) ->
     heap w !! alr = Some (OList al) ->
     heap w' !! tsr' = Some (OTreeSequence ts) ->
     heap w' !! alr' = Some (OList al) ->
     (count_transitions tsr alr w).2 = (count_transitions tsr' alr' w').2 ∧
     exists out,
       stdout (count_transitions tsr alr w).1 = stdout w ++ out ∧
       stdout (count_transitions tsr' alr' w').1 = stdout w' ++ out).
Proof.
  intros Hre.
  pose proof (countable_reordered ts al _ _ Hre) as Hciff.
  assert (Hsame : countable_events ts al (events (ts_sites ts)) ->
                  count_matrix (with_sites ts sites') al = count_matrix ts al).
  { intros Hc. apply count_matrix_same_hits.
    - apply Hciff, Hc.
    - exact Hc.
    - intros i j. symmetry. apply (hits_reordered ts al i j _ _ Hre). }
  split; [|split].
  - intros counts. split; intros Hrun.
    + rewrite Hsame; [assumption|].
      eapply count_matrix_OK_countable, Hrun.
    + rewrite <- Hsame; [assumption|].
      apply Hciff. apply (count_matrix_OK_countable _ _ _ Hrun).
  - intros Hres.
    destruct (count_matrix_cases ts al Hres) as [[Hc _]|[Hc Hrun]].
    + apply Hsame, Hc.
    + rewrite Hrun.
      destruct (count_matrix_cases (with_sites ts sites') al
                  (parents_resolve_reordered ts sites' Hre Hres))
        as [[Hc' _]|[_ Hrun']]; [|assumption].
      exfalso. apply Hc, Hciff, Hc'.
  - intros w w' tsr alr tsr' alr' Hts Hal Hts' Hal'.
    destruct (count_transitions_run tsr alr w ts al Hts Hal)
      as (c & Hrun & Hfin).
    destruct (count_transitions_run tsr' alr' w' ts al Hts' Hal')
      as (c' & Hrun' & Hfin').
    rewrite Hrun, Hrun'. simpl. split; [reflexivity|].
    destruct (count_matrix ts al) as [m|e].
    + rewrite (Hfin m eq_refl), (Hfin' m eq_refl). eauto.
    + exists []. auto.
Qed.

Lemma count_matrix_order_independent_witness :
  (forall counts,
     count_matrix scenario_ts ACGT = OK counts <->
     count_matrix (with_sites scenario_ts scenario_sites_reordered) ACGT
       = OK counts) ∧
  count_matrix (with_sites scenario_ts scenario_sites_reordered) ACGT
    = OK scenario_counts.
Proof.
  assert (Hre : reordered (ts_sites scenario_ts) scenario_sites_reordered).
  { exists (reverse (ts_sites scenario_ts)). split.
    - by_compute.
    - repeat constructor; by_compute. }
  destruct (count_matrix_order_independent scenario_ts ACGT
              scenario_sites_reordered Hre) as (Hiff & _ & _).
  split; [exact Hiff|]. apply Hiff. reflexivity.
Defined.

(** ** Effects of the whole function *)

(** Whatever the references hold, the call ends in a store that is the old
    one with at most one array added at a fresh reference and with lines
    appended to the output, and it yields [None] unless it raises. *)
Lemma count_transitions_effects tsr alr w :
  exists heap' out r,
    count_transitions tsr alr w = (mkWorld heap' (stdout w ++ out), r) ∧
    (heap' = heap w ∨
     exists a, heap' = <[fresh (dom (heap w)) := ONdarray a]> (heap w)) ∧
    (r = OK VNone ∨ exists e, r = Err e).
Proof.
  destruct (heap w !! alr) as [[a|al|t]|] eqn:Hal.
  2:{ destruct (heap w !! tsr) as [[a|al'|ts]|] eqn:Hts.
      3:{ destruct (count_transitions_run tsr alr w ts al Hts Hal)
            as (c & Hrun & _).
          eexists _, _, _. split; [exact Hrun|]. split; [eauto|].
          destruct (count_matrix ts al); eauto. }
      all: exists (<[fresh (dom (heap w)) :=
                       ONdarray (np_zeros (length al) (length al))]> (heap w)),
             [], (Err TypeError).
      all: split; [|split; [right; eauto | right; eauto]].
      all: unfold count_transitions.
      all: unfold mbind at 1, Py_bind at 1, get_list at 1; rewrite Hal.
      all: unfold mbind at 1, Py_bind at 1, alloc at 1.
      all: unfold mbind at 1, Py_bind at 1, get_ts at 1; cbn [heap stdout].
      all: rewrite app_nil_r.
      all: destruct (decide (fresh (dom (heap w)) = tsr)) as [Heq|Hne];
        [rewrite Heq, lookup_insert_eq; reflexivity
        |rewrite lookup_insert_ne by assumption; rewrite Hts; reflexivity]. }
  all: exists (heap w), [], (Err TypeError).
  all: split; [|split; [left; reflexivity | right; eauto]].
  all: unfold count_transitions.
  all: unfold mbind at 1, Py_bind at 1, get_list at 1; rewrite Hal.
  all: rewrite app_nil_r; destruct w; reflexivity.
Qed.

(** C5, as the code has it. The call leaves every object of the store as it
    was, the tree sequence and the list of alleles among them; the one object
    it adds is the array of counts, at a reference that was free; it appends
    lines to standard output and yields [None] unless it raises.  When the
    loops end, the new array is the count matrix and the appended lines are
    its rendering. *)
Theorem count_transitions_frame tsr alr w :
  let w' := (count_transitions tsr alr w).1 in
  let r := (count_transitions tsr alr w).2 in
  (forall l o, heap w !! l = Some o -> heap w' !! l = Some o) ∧
  (forall l, heap w !! l = None -> l ≠ fresh (dom (heap w)) ->
     heap w' !! l = None) ∧
  (exists out, stdout w' = stdout w ++ out) ∧
  (r = OK VNone ∨ exists e, r = Err e) ∧
  (forall ts al counts,
     heap w !! tsr = Some (OTreeSequence ts) ->
     heap w !! alr = Some (OList al) ->
     count_matrix ts al = OK counts ->
     r = OK VNone ∧
     heap w' !! fresh (dom (heap w)) = Some (ONdarray counts) ∧
     stdout w' = stdout w ++ render al counts).
Proof.
  intros w' r. subst w' r.
  destruct (count_transitions_effects tsr alr w)
    as (heap' & out & r & Hrun & Hheap & Hr).
  split; [|split; [|split; [|split]]].
  - intros l o Hl. rewrite Hrun. simpl.
    destruct Hheap as [->| [a ->]]; [assumption|].
    rewrite lookup_insert_ne; [assumption|].
    apply (fresh_not_in w l o Hl).
  - intros l Hl Hne. rewrite Hrun. simpl.
    destruct Hheap as [->| [a ->]]; [assumption|].
    rewrite lookup_insert_ne by congruence. assumption.
  - rewrite Hrun. simpl. eauto.
  - rewrite Hrun. simpl. assumption.
  - intros ts al counts Hts Hal Hcounts.
    destruct (count_transitions_run tsr alr w ts al Hts Hal)
      as (c & Hrun' & Hfin).
    rewrite Hrun', Hcounts, (Hfin counts Hcounts). simpl.
    rewrite lookup_insert_eq. auto.
Qed.

(** C5 as stated fails: on the scenario the call writes five lines to
    standard output, which is an effect besides its result, and its result is
    [None], not the matrix. *)
Lemma count_transitions_prints_and_returns_None :
  stdout (count_transitions 1%positive 2%positive scenario_world).1
    ≠ stdout scenario_world ∧
  length (stdout (count_transitions 1%positive 2%positive scenario_world).1)
    = 5%nat ∧
  (count_transitions 1%positive 2%positive scenario_world).2 = OK VNone.
Proof.
  split; [|split]; [|vm_compute; reflexivity..].
  vm_compute. discriminate.
Qed.

(** ** The mutation model *)

Lemma forallb_Forall {A : Type} (f : A -> bool) (P : A -> Prop) (l : list A) :
  (forall x, f x = true <-> P x) -> forallb f l = true <-> Forall P l.
Proof.
  intros Hf. induction l as [|x l IH]; simpl.
  - split; [constructor | reflexivity].
  - rewrite andb_true_iff, Forall_cons, Hf, IH. reflexivity.
Qed.

Lemma sums_to_one_b_iff (l : list Q) : sums_to_one_b l = true <-> sums_to_one l.
Proof. unfold sums_to_one_b, sums_to_one. apply Qle_bool_iff. Qed.

Lemma non_negative_b_iff (p : Q) : non_negative_b p = true <-> non_negative p.
Proof. unfold non_negative_b, non_negative. apply Qle_bool_iff. Qed.

Lemma bool_decide_true_iff (P : Prop) `{Decision P} :
  bool_decide P = true <-> P.
Proof. rewrite <- Is_true_true. apply bool_decide_spec. Qed.

Lemma lengths_check_iff (k : nat) (r : list Q) (t : list (list Q)) :
  bool_decide (length r = k) && bool_decide (length t = k)
  && forallb (fun row => bool_decide (length row = k)) t = true <->
  length r = k ∧ length t = k ∧ Forall (fun row => length row = k) t.
Proof.
  rewrite !andb_true_iff, !bool_decide_true_iff.
  rewrite (forallb_Forall _ (fun row => length row = k)).
  - tauto.
  - intros row. apply bool_decide_true_iff.
Qed.

Lemma non_negative_check_iff (r : list Q) (t : list (list Q)) :
  forallb non_negative_b r && forallb (forallb non_negative_b) t = true <->
  Forall non_negative r ∧ Forall (Forall non_negative) t.
Proof.
  rewrite andb_true_iff.
  rewrite (forallb_Forall _ non_negative r non_negative_b_iff).
  rewrite (forallb_Forall _ (Forall non_negative) t).
  - reflexivity.
  - intros row. apply forallb_Forall, non_negative_b_iff.
Qed.

Lemma row_sums_check_iff (t : list (list Q)) :
  forallb sums_to_one_b t = true <-> Forall sums_to_one t.
Proof. apply forallb_Forall, sums_to_one_b_iff. Qed.

Lemma not_true_iff (b : bool) (P : Prop) :
  (b = true <-> P) -> b = false -> ¬ P.
Proof. intros Hiff Hb HP. apply Hiff in HP. congruence. Qed.

(** [construct] either accepts its arguments, which then satisfy the
    invariants, or rejects them, and then they do not. *)
Lemma construct_cases (a : list string) (r : list Q) (t : list (list Q)) :
  (construct a r t = OK (mkMutationModel a r t) ∧
   model_invariant (mkMutationModel a r t)) ∨
  (construct a r t = Err ModelValidationError ∧
   ¬ model_invariant (mkMutationModel a r t)).
Proof.
  unfold construct, model_invariant. simpl.
  pose proof (lengths_check_iff (length a) r t) as H1.
  pose proof (non_negative_check_iff r t) as H2.
  pose proof (row_sums_check_iff t) as H3.
  pose proof (sums_to_one_b_iff r) as H4.
  destruct (bool_decide (length r = length a)
            && bool_decide (length t = length a)
            && forallb (fun row => bool_decide (length row = length a)) t)
    eqn:E1; simpl.
  2:{ right. split; [reflexivity|].
      intros (Hl & _). apply (not_true_iff _ _ H1 eq_refl Hl). }
  destruct (forallb non_negative_b r
            && forallb (forallb non_negative_b) t) eqn:E2; simpl.
  2:{ right. split; [reflexivity|].
      intros (_ & Hn & _). apply (not_true_iff _ _ H2 eq_refl Hn). }
  destruct (forallb sums_to_one_b t) eqn:E3; simpl.
  2:{ right. split; [reflexivity|].
      intros (_ & _ & Hs & _). apply (not_true_iff _ _ H3 eq_refl Hs). }
  destruct (sums_to_one_b r) eqn:E4; simpl.
  2:{ right. split; [reflexivity|].
      intros (_ & _ & _ & Hs). apply (not_true_iff _ _ H4 eq_refl Hs). }
  left. split; [reflexivity|].
  split; [apply H1; reflexivity|].
  split; [apply H2; reflexivity|].
  split; [apply H3; reflexivity | apply H4; reflexivity].
Qed.

Lemma scenario_model_invariant : model_invariant scenario_model.
Proof.
  destruct (construct_cases ACGT (root_distribution scenario_model)
              (transition_matrix scenario_model)) as [[_ H]|[H _]].
  - exact H.
  - vm_compute in H. discriminate H.
Qed.

(** C6. [construct] raises [ModelValidationError] exactly when the arguments
    break an invariant (a length that does not match, a negative
    probability, a row of the transition matrix or the root distribution
    whose sum is further than 1e-9 from 1); otherwise it builds the model
    from the arguments as they are, and a model it builds satisfies the
    invariants. *)
Theorem construct_validates (a : list string) (r : list Q) (t : list (list Q)) :
  (construct a r t = Err ModelValidationError <->
   ¬ model_invariant (mkMutationModel a r t)) ∧
  (construct a r t = OK (mkMutationModel a r t) <->
   model_invariant (mkMutationModel a r t)) ∧
  (forall m, construct a r t = OK m ->
     m = mkMutationModel a r t ∧ model_invariant m).
Proof.
  destruct (construct_cases a r t) as [[Hrun Hinv]|[Hrun Hinv]]; rewrite Hrun.
  - split; [|split].
    + split; [discriminate | contradiction].
    + split; auto.
    + intros m [= <-]. auto.
  - split; [|split].
    + split; auto.
    + split; [discriminate | contradiction].
    + intros m [=].
Qed.

(** The malformed inputs of §8, and the scenario's model. *)
Lemma construct_examples :
  construct ACGT [1 # 4; 1 # 4; 1 # 4; 1 # 4]%Q short_row_matrix
    = Err ModelValidationError ∧
  construct ACGT [1 # 2; 3 # 4; -1 # 4; 0]%Q (transition_matrix scenario_model)
    = Err ModelValidationError ∧
  construct ACGT [1 # 2; 1 # 2]%Q (transition_matrix scenario_model)
    = Err ModelValidationError ∧
  construct ACGT (root_distribution scenario_model)
      (transition_matrix scenario_model)
    = OK scenario_model.
Proof. repeat split; vm_compute; reflexivity. Qed.

(** ** The validator *)

Lemma shape_b_iff (k : nat) (counts : matrix) :
  shape_b k counts = true <-> shape k counts.
Proof.
  unfold shape_b, shape.
  rewrite andb_true_iff, bool_decide_true_iff.
  rewrite (forallb_Forall _ (fun row => length row = k)).
  - reflexivity.
  - intros row. apply bool_decide_true_iff.
Qed.

Lemma check_row_index tol i row probs : row_index (check_row tol i row probs) = i.
Proof. unfold check_row. destruct (decide (0 < sumZ row)); reflexivity. Qed.

Lemma check_row_no_data tol i row probs :
  sumZ row = 0 ->
  check_row tol i row probs = mkRowReport i None None true.
Proof.
  intros H. unfold check_row. rewrite H.
  destruct (decide (0 < 0)); [lia | reflexivity].
Qed.

(** The one error of [check_conformance] is the size mismatch. *)
Lemma check_conformance_error (counts : matrix) (model : MutationModel)
    (tol : Q) (e : exn) :
  check_conformance counts model tol = Err e ->
  e = DimensionMismatchError ∧ ¬ shape (length (alleles model)) counts.
Proof.
  unfold check_conformance.
  destruct (shape_b (length (alleles model)) counts) eqn:Hb; [discriminate|].
  intros [= <-]. split; [reflexivity|].
  apply (not_true_iff _ _ (shape_b_iff _ _) Hb).
Qed.

(** C7. For a count matrix of the model's size, [check_conformance] does not
    raise: it returns one report per row, in row order, and a row without
    observations is flagged [insufficient_data] and is not marked as
    failing. *)
Theorem check_conformance_reports (counts : matrix) (model : MutationModel)
    (tol : Q) :
  shape (length (alleles model)) counts ->
  model_invariant model ->
  exists report,
    check_conformance counts model tol = OK report ∧
    length report = length (alleles model) ∧
    forall i row, counts !! i = Some row ->
      exists rep,
        report !! i = Some rep ∧
        row_index rep = i ∧
        (sumZ row = 0 ->
           insufficient_data rep = true ∧ verdict rep ≠ Some false).
Proof.
  intros Hs ((_ & Hlt & _) & _).
  unfold check_conformance.
  rewrite (proj2 (shape_b_iff _ _) Hs).
  eexists. split; [reflexivity|]. split.
  - rewrite length_imap, length_zip_with. destruct Hs as [Hlen _]. lia.
  - intros i row Hrow.
    destruct (lookup_lt_is_Some_2 (transition_matrix model) i) as [probs Hp].
    { apply lookup_lt_Some in Hrow. destruct Hs as [Hlen _]. lia. }
    exists (check_row tol i row probs). split; [|split].
    + rewrite list_lookup_imap, lookup_zip_with, Hrow.
      simpl. rewrite Hp. reflexivity.
    + apply check_row_index.
    + intros Hz. rewrite (check_row_no_data _ _ _ _ Hz). simpl.
      split; [reflexivity | discriminate].
Qed.

(** On the scenario the row of [C], which has no observation, is the one
    flagged. *)
Lemma check_conformance_reports_witness :
  exists report,
    check_conformance scenario_counts scenario_model (1 # 20) = OK report ∧
    length report = length (alleles scenario_model) ∧
    forall i row, scenario_counts !! i = Some row ->
      exists rep,
        report !! i = Some rep ∧
        row_index rep = i ∧
        (sumZ row = 0 ->
           insufficient_data rep = true ∧ verdict rep ≠ Some false).
Proof.
  apply (check_conformance_reports scenario_counts scenario_model (1 # 20)).
  - split; [reflexivity|]. repeat constructor.
  - exact scenario_model_invariant.
Defined.

Lemma check_conformance_scenario :
  fmap (M := result) (fmap (M := list) insufficient_data)
    (check_conformance scenario_counts scenario_model (1 # 20))
  = OK [false; true; false; false] ∧
  fmap (M := result) (fmap (M := list) verdict)
    (check_conformance scenario_counts scenario_model (1 # 20))
  = OK [Some false; None; Some false; Some false] ∧
  check_conformance [[1; 2]; [3; 4]] scenario_model (1 # 20)
  = Err DimensionMismatchError.
Proof. repeat split; vm_compute; reflexivity. Qed.

(** ** Nearest-neighbour populations *)

Lemma comprehension_OK {A B : Type} (f : A -> result B) (l : list A) :
  Forall (fun x => is_OK (f x)) l ->
  exists ys, comprehension f l = OK ys ∧ length ys = length l.
Proof.
  induction 1 as [|x l Hx _ (ys & IH & Hlen)].
  - exists []. split; reflexivity.
  - apply is_OK_inv in Hx as [y Hy]. exists (y :: ys).
    simpl. rewrite Hy, bind_OK, IH, bind_OK. split; [reflexivity|].
    simpl. rewrite Hlen. reflexivity.
Qed.

Lemma true_div_OK (a b : Z) :
  b ≠ 0 -> true_div a b = OK (inject_Z a / inject_Z b)%Q.
Proof. intros H. unfold true_div. rewrite decide_False by assumption. reflexivity. Qed.

Lemma inject_Z_nonzero (n : Z) : n ≠ 0 -> ¬ (inject_Z n == 0)%Q.
Proof.
  intros Hn H. apply Hn. unfold Qeq, inject_Z in H. simpl in H. lia.
Qed.

Lemma proportion_nonneg (a n : Z) :
  0 <= a -> 0 < n -> (0 <= inject_Z a / inject_Z n)%Q.
Proof.
  intros Ha Hn. unfold Qdiv. apply Qmult_le_0_compat.
  - change 0%Q with (inject_Z 0). rewrite <- Zle_Qle. assumption.
  - apply Qinv_le_0_compat.
    change 0%Q with (inject_Z 0). rewrite <- Zle_Qle. lia.
Qed.

Lemma proportions_sum (a n : Z) :
  n ≠ 0 -> (inject_Z a / inject_Z n + inject_Z (n - a) / inject_Z n == 1)%Q.
Proof.
  intros Hn. unfold Z.sub. rewrite inject_Z_plus, inject_Z_opp.
  field. apply inject_Z_nonzero. assumption.
Qed.

(** C10. [find_nearest_neighbour_populations] returns (0, 0) when the focal
    sample has no parent in the tree; when the parent exists and has a leaf
    other than the focal sample (all leaves being nodes of the tree
    sequence), it returns two proportions that are not negative and add up
    to 1. *)
Theorem find_nearest_neighbour_populations_proportions
    (ts_dated : TreeSequence) (t : Tree) (focal_sample : Z) :
  (tree_parent t focal_sample = OK (-1) ->
   find_nearest_neighbour_populations ts_dated t focal_sample
   = OK (0%Q, 0%Q)) ∧
  (forall p,
     tree_parent t focal_sample = OK p -> p ≠ -1 ->
     (exists c, c ∈ tree_leaves t p ∧ c ≠ focal_sample) ->
     Forall (fun c => is_OK (node ts_dated c)) (tree_leaves t p) ->
     exists prop_pop_0 prop_pop_1,
       find_nearest_neighbour_populations ts_dated t focal_sample
       = OK (prop_pop_0, prop_pop_1) ∧
       (0 <= prop_pop_0)%Q ∧ (0 <= prop_pop_1)%Q ∧
       (prop_pop_0 + prop_pop_1 == 1)%Q).
Proof.
  unfold find_nearest_neighbour_populations. split.
  - intros ->. reflexivity.
  - intros p -> Hp (c & Hc & Hne) Hnodes.
    rewrite bind_OK, decide_False by assumption.
    set (children := filter (fun c => c ≠ focal_sample) (tree_leaves t p)).
    assert (Hin : c ∈ children).
    { unfold children. apply list_elem_of_filter. auto. }
    destruct (comprehension_OK (fun c => population <$> node ts_dated c)
                children) as (pops & -> & Hlen).
    { apply Forall_forall. intros x Hx.
      unfold children in Hx. apply list_elem_of_filter in Hx as [_ Hx].
      rewrite Forall_forall in Hnodes.
      destruct (is_OK_inv _ (Hnodes x Hx)) as [n ->]. exact I. }
    rewrite bind_OK.
    assert (Hpos : 0 < Z.of_nat (length pops)).
    { rewrite Hlen. destruct children; [inversion Hin | simpl; lia]. }
    pose proof (length_filter (fun pop => pop = 0) pops) as Hle.
    rewrite !true_div_OK by lia. rewrite !bind_OK.
    eexists _, _. split; [reflexivity|]. split; [|split].
    + apply proportion_nonneg; lia.
    + apply proportion_nonneg; lia.
    + apply proportions_sum. lia.
Qed.

(** On the example tree: sample 0 has the neighbours 1 (population 0) and 2
    (population 1); the root 5 has no parent. *)
Lemma find_nearest_neighbour_populations_witness :
  find_nearest_neighbour_populations example_nodes example_tree 5
  = OK (0%Q, 0%Q) ∧
  exists prop_pop_0 prop_pop_1,
    find_nearest_neighbour_populations example_nodes example_tree 0
    = OK (prop_pop_0, prop_pop_1) ∧
    (0 <= prop_pop_0)%Q ∧ (0 <= prop_pop_1)%Q ∧
    (prop_pop_0 + prop_pop_1 == 1)%Q.
Proof.
  split.
  - apply (find_nearest_neighbour_populations_proportions
             example_nodes example_tree 5). reflexivity.
  - apply (proj2 (find_nearest_neighbour_populations_proportions
                    example_nodes example_tree 0) 3).
    + reflexivity.
    + discriminate.
    + exists 1. split; [by_compute | discriminate].
    + by_compute.
Defined.

Lemma find_nearest_neighbour_populations_examples :
  find_nearest_neighbour_populations example_nodes example_tree 0
  = OK (1 # 2, 1 # 2)%Q ∧
  find_nearest_neighbour_populations example_nodes example_tree 4
  = OK (2 # 3, 1 # 3)%Q ∧
  find_nearest_neighbour_populations example_nodes
    (mkTree (fun _ => OK 1) (fun _ => [0])) 0
  = Err ZeroDivisionError.
Proof. repeat split; vm_compute; reflexivity. Qed.
(** * Further properties: the VCF import helpers *)

(** ** One pass of [add_diploid_sites] *)

Lemma unphased_flags_cases (gs : list Genotype) :
  (Forall (fun row => length (calls row) = 2%nat) gs ∧
   unphased_flags gs = OK ((fun row => negb (phased row)) <$> gs)) ∨
  (¬ Forall (fun row => length (calls row) = 2%nat) gs ∧
   unphased_flags gs = Err ValueError).
Proof.
  unfold unphased_flags. induction gs as [|row gs IH].
  - left. split; [constructor | reflexivity].
  - simpl comprehension.
    assert (Hrow :
      (length (calls row) = 2%nat ∧
       match row_list row with
       | [_; _; GPhased p] => OK (negb p)
       | _ => Err ValueError
       end = OK (negb (phased row))) ∨
      (length (calls row) ≠ 2%nat ∧
       match row_list row with
       | [_; _; GPhased p] => OK (negb p)
       | _ => Err ValueError
       end = Err ValueError)).
    { destruct row as [cs p]. unfold row_list. simpl.
      destruct cs as [|a [|b [|c cs]]]; simpl;
        [right | right | left | right]; split; (reflexivity || lia). }
    destruct Hrow as [[Hlen ->]|[Hlen ->]].
    + rewrite bind_OK. destruct IH as [[Hall ->]|[Hall ->]].
      * left. split; [constructor; assumption | reflexivity].
      * right. split; [|reflexivity].
        intros H. apply Hall. apply Forall_cons in H as [_ H]. exact H.
    + right. split; [|reflexivity].
      intros H. apply Forall_cons in H as [H _]. contradiction.
Qed.

Lemma any_unphased_false (gs : list Genotype) :
  any ((fun row => negb (phased row)) <$> gs) = false <->
  Forall (fun row => phased row = true) gs.
Proof.
  unfold any. induction gs as [|row gs IH]; simpl.
  - split; [constructor | reflexivity].
  - rewrite orb_false_iff, IH, Forall_cons. unfold id.
    destruct (phased row); simpl; intuition congruence.
Qed.

Lemma diploid_phased_iff (variant : Variant) :
  diploid_phased variant <->
  Forall (fun row => length (calls row) = 2%nat) (genotypes variant) ∧
  Forall (fun row => phased row = true) (genotypes variant).
Proof. unfold diploid_phased. apply Forall_and. Qed.

Lemma flatten_diploid (gs : list Genotype) :
  Forall (fun row => length (calls row) = 2%nat) gs ->
  (row ← gs; take 2 (row_list row)) = (row ← gs; GAllele <$> calls row).
Proof.
  induction 1 as [|row gs Hrow _ IH]; [reflexivity|].
  change ((take 2 (row_list row) ++ (row ← gs; take 2 (row_list row))) =
          ((GAllele <$> calls row) ++ (row ← gs; GAllele <$> calls row))).
  rewrite IH. f_equal.
  destruct row as [cs p]. simpl in Hrow. unfold row_list. simpl.
  destruct cs as [|a [|b [|c cs]]]; simpl in Hrow; try lia. reflexivity.
Qed.

Lemma check_alleles_messages (pos : Z) (alleles : list string) (w : Import) :
  check_alleles pos alleles w =
  mkImport (imp_samples w)
    (imp_out w ++ (IgnoringSite pos <$> filter odd_allele alleles)).
Proof.
  unfold check_alleles. revert w.
  induction alleles as [|a alleles IH]; intros w.
  - simpl. rewrite app_nil_r. destruct w; reflexivity.
  - simpl foldl. rewrite IH, filter_cons. fold (odd_allele a).
    destruct (decide (odd_allele a)); simpl; [|reflexivity].
    rewrite <- app_assoc. reflexivity.
Qed.

Lemma site_of_unknown (variant : Variant) :
  ancestral_unknown variant ->
  site_of variant =
  mkSiteRecord (POS variant) (row ← genotypes variant; GAllele <$> calls row)
    (site_alleles variant) MISSING_DATA.
Proof. intros H. unfold site_of. rewrite decide_True by assumption. reflexivity. Qed.

Lemma site_of_known (variant : Variant) (i : nat) :
  ¬ ancestral_unknown variant ->
  index (site_alleles variant) (ancestral variant) = OK i ->
  site_of variant =
  mkSiteRecord (POS variant) (row ← genotypes variant; GAllele <$> calls row)
    (site_alleles variant) (Z.of_nat i).
Proof.
  intros H Hi. unfold site_of. rewrite decide_False by assumption.
  rewrite Hi. reflexivity.
Qed.

(** ** The calls recorded on a [SampleData] *)

Lemma taken_record_call (samples : SampleData) (c : call)
    (raised : option exn) :
  taken (record_call samples c raised) =
  taken samples ++ match raised with None => [c] | Some _ => [] end.
Proof.
  unfold taken, record_call. simpl. rewrite omap_app.
  destruct raised; reflexivity.
Qed.

Lemma with_calls_nil (samples : SampleData) : with_calls samples [] = samples.
Proof.
  unfold with_calls. simpl. rewrite app_nil_r. destruct samples; reflexivity.
Qed.

Lemma with_calls_cons (samples : SampleData) (c : call) (cs : list call) :
  with_calls (record_call samples c None) cs = with_calls samples (c :: cs).
Proof.
  unfold with_calls, record_call. simpl. rewrite <- app_assoc. reflexivity.
Qed.

Lemma with_calls_app (samples : SampleData) (cs cs' : list call) :
  with_calls (with_calls samples cs) cs' = with_calls samples (cs ++ cs').
Proof.
  unfold with_calls. simpl. rewrite fmap_app, app_assoc. reflexivity.
Qed.

Lemma taken_with_calls (samples : SampleData) (cs : list call) :
  taken (with_calls samples cs) = taken samples ++ cs.
Proof.
  unfold taken, with_calls. simpl. rewrite omap_app. f_equal.
  induction cs as [|c cs IH]; [reflexivity|].
  simpl. f_equal. exact IH.
Qed.

Lemma sd_sites_with_calls (samples : SampleData) (cs : list call) :
  sd_sites (with_calls samples cs) = sd_sites samples ++ omap call_site cs.
Proof. unfold sd_sites. rewrite taken_with_calls. apply omap_app. Qed.

Lemma sd_individuals_with_calls (samples : SampleData) (cs : list call) :
  sd_individuals (with_calls samples cs) =
  sd_individuals samples ++ omap call_individual cs.
Proof. unfold sd_individuals. rewrite taken_with_calls. apply omap_app. Qed.

Lemma sd_populations_with_calls (samples : SampleData) (cs : list call) :
  sd_populations (with_calls samples cs) =
  sd_populations samples ++ omap call_population cs.
Proof. unfold sd_populations. rewrite taken_with_calls. apply omap_app. Qed.

Lemma sd_site_calls_with_calls (samples : SampleData) (cs : list call) :
  sd_site_calls (with_calls samples cs) =
  sd_site_calls samples ++ omap call_site cs.
Proof.
  unfold sd_site_calls, with_calls. simpl. rewrite omap_app. f_equal.
  induction cs as [|c cs IH]; [reflexivity|].
  simpl. destruct (call_site c); [f_equal|]; exact IH.
Qed.

Lemma sd_site_calls_record_call (samples : SampleData) (c : call)
    (raised : option exn) :
  sd_site_calls (record_call samples c raised) =
  sd_site_calls samples ++ omap call_site [c].
Proof.
  unfold sd_site_calls, record_call.
  cbn [sd_calls]. rewrite omap_app. reflexivity.
Qed.

(** A call that raises adds nothing to what the object holds. *)
Lemma record_call_raised (samples : SampleData) (c : call) (e : exn) :
  sd_populations (record_call samples c (Some e)) = sd_populations samples ∧
  sd_individuals (record_call samples c (Some e)) = sd_individuals samples ∧
  sd_sites (record_call samples c (Some e)) = sd_sites samples ∧
  sd_sequence_length (record_call samples c (Some e)) =
    sd_sequence_length samples.
Proof.
  unfold sd_populations, sd_individuals, sd_sites.
  rewrite taken_record_call, app_nil_r. auto.
Qed.

Lemma omap_site_calls (l : list Variant) :
  omap call_site (site_call <$> l) = site_of <$> l ∧
  omap call_individual (site_call <$> l) = [] ∧
  omap call_population (site_call <$> l) = [].
Proof.
  split; [|split]; induction l as [|v l IH]; try reflexivity; simpl.
  - f_equal. exact IH.
  - exact IH.
  - exact IH.
Qed.

Lemma omap_individual_calls (l : list (string * Z)) :
  omap call_individual (individual_call <$> l) =
    (fun np => diploid_individual np.1 np.2) <$> l ∧
  omap call_site (individual_call <$> l) = [] ∧
  omap call_population (individual_call <$> l) = [].
Proof.
  split; [|split]; induction l as [|np l IH]; try reflexivity; simpl.
  - f_equal. exact IH.
  - exact IH.
  - exact IH.
Qed.

Lemma takes_app {T : Tsinfer} (cs cs' : list call) :
  forall samples,
  takes samples (cs ++ cs') <->
  takes samples cs ∧ takes (with_calls samples cs) cs'.
Proof.
  induction cs as [|c cs IH]; intros samples.
  - simpl. rewrite with_calls_nil. tauto.
  - simpl. rewrite IH, with_calls_cons. tauto.
Qed.

Lemma invoke_cases {T : Tsinfer} (c : call) (samples : SampleData) :
  (tsinfer_raises samples c = None ∧
   invoke c samples = (record_call samples c None, OK tt)) ∨
  (exists e, tsinfer_raises samples c = Some e ∧
             invoke c samples = (record_call samples c (Some e), Err e)).
Proof.
  unfold invoke. destruct (tsinfer_raises samples c) as [e|]; eauto.
Qed.

(** ** One pass of the loop *)

(** The three ways a pass can go: the variant is skipped as a duplicate; its
    messages are printed and its site is passed to [add_site]; or the pass
    raises [ValueError] before that and changes nothing. *)
Lemma add_diploid_site_cases {T : Tsinfer} (variant : Variant) (pos : Z)
    (w : Import) :
  (pos = POS variant ∧
   add_diploid_site variant pos w =
   (pos, mkImport (imp_samples w) (imp_out w ++ [DuplicateEntries pos]),
    OK tt)) ∨
  (pos ≠ POS variant ∧ acceptable variant ∧
   add_diploid_site variant pos w =
   (POS variant,
    mkImport (invoke (site_call variant) (imp_samples w)).1
      (imp_out w ++ allele_messages variant),
    (invoke (site_call variant) (imp_samples w)).2)) ∨
  (pos ≠ POS variant ∧ ¬ acceptable variant ∧
   add_diploid_site variant pos w = (POS variant, w, Err ValueError)).
Proof.
  unfold add_diploid_site.
  destruct (decide (pos = POS variant)) as [Hpos|Hpos]; [left; auto|].
  right.
  destruct (unphased_flags_cases (genotypes variant)) as [[Hdip ->]|[Hdip ->]].
  2:{ right. split; [assumption|]. split; [|reflexivity].
      intros [H _]. apply diploid_phased_iff in H as [H _]. contradiction. }
  destruct (any _) eqn:Hany.
  { right. split; [assumption|]. split; [|reflexivity].
    intros [H _]. apply diploid_phased_iff in H as [_ H].
    apply any_unphased_false in H. congruence. }
  apply any_unphased_false in Hany.
  assert (Hdp : diploid_phased variant) by (apply diploid_phased_iff; auto).
  cbv zeta.
  change (upper (split_first "|" (default "."%string (INFO variant !! "AA"%string))))
    with (ancestral variant).
  change (upper (REF variant) :: (upper <$> ALT variant))
    with (site_alleles variant).
  destruct (decide (ancestral variant = "."%string ∨
                    ancestral variant = ""%string)) as [Hunk|Hunk].
  - left. split; [assumption|]. split; [split; auto|].
    rewrite check_alleles_messages, flatten_diploid by assumption.
    unfold add_site, site_call. rewrite site_of_unknown by assumption.
    simpl imp_samples. simpl imp_out. fold (odd_allele).
    destruct (invoke _ _) as [samples r]. reflexivity.
  - destruct (decide (ancestral variant ∈ site_alleles variant)) as [Hin|Hin].
    + destruct (index_elem_of _ _ Hin) as [i Hi]. rewrite Hi.
      left. split; [assumption|]. split; [split; auto|].
      change (Z.of_nat <$> OK i) with (OK (Z.of_nat i)). cbv beta iota.
      rewrite check_alleles_messages, flatten_diploid by assumption.
      unfold add_site, site_call.
      rewrite (site_of_known variant i) by assumption.
      simpl imp_samples. simpl imp_out.
      destruct (invoke _ _) as [samples r]. reflexivity.
    + rewrite (index_not_elem_of _ _ Hin).
      right. split; [assumption|]. split; [|reflexivity].
      intros [_ [H|H]]; contradiction.
Qed.

(** ** The loop of [add_diploid_sites] *)

Lemma elem_of_allele_messages (variant : Variant) (p : Z) (a : string) :
  IgnoringSite p a ∈ allele_messages variant <->
  POS variant = p ∧ a ∈ site_alleles variant ∧ odd_allele a.
Proof.
  unfold allele_messages. fold odd_allele.
  rewrite list_elem_of_fmap. split.
  - intros (a' & [= <- <-] & Ha). apply list_elem_of_filter in Ha as [? ?].
    auto.
  - intros (<- & Ha & Hodd). exists a. split; [reflexivity|].
    apply list_elem_of_filter. auto.
Qed.

Lemma reports_nil : reports [] [].
Proof.
  intros p a. split; [intros H; inversion H|].
  intros (v & H & _). inversion H.
Qed.

Lemma reports_duplicate (msgs : list message) (l : list Variant) (pos : Z) :
  reports msgs l -> reports (DuplicateEntries pos :: msgs) l.
Proof.
  intros H p a. rewrite <- (H p a), elem_of_cons.
  split; [intros [?|?]; [discriminate | assumption] | auto].
Qed.

Lemma reports_cons (msgs : list message) (l : list Variant) (v : Variant) :
  reports msgs l -> reports (allele_messages v ++ msgs) (v :: l).
Proof.
  intros H p a. rewrite elem_of_app, (H p a), elem_of_allele_messages.
  split.
  - intros [(Hp & Ha & Hodd)|(v' & Hv & Hrest)].
    + exists v. split; [apply list_elem_of_here | auto].
    + exists v'. split; [apply list_elem_of_further, Hv | auto].
  - intros (v' & Hv & Hrest).
    apply elem_of_cons in Hv as [->|Hv]; [left; auto|].
    right. exists v'. auto.
Qed.

Lemma state_after_cons (samples : SampleData) (v : Variant)
    (p : list Variant * stop) :
  state_after (record_call samples (site_call v) None) p =
  state_after samples (v :: p.1, p.2).
Proof.
  unfold state_after. simpl. rewrite with_calls_cons. reflexivity.
Qed.

(** The loop passes to [add_site] the sites of the variants it does not
    skip, up to the first that is not acceptable, where the loop raises
    [ValueError], or that [add_site] raises for. *)
Lemma add_diploid_sites_from_spec {T : Tsinfer} (variants : list Variant) :
  forall (pos : Z) (w : Import),
  exists msgs,
    add_diploid_sites_from pos variants w =
      (mkImport
         (state_after (imp_samples w)
            (progress (imp_samples w) (kept pos variants)))
         (imp_out w ++ msgs),
       stop_result (progress (imp_samples w) (kept pos variants)).2) ∧
    reports msgs (reached (progress (imp_samples w) (kept pos variants))) ∧
    (forall p, DuplicateEntries p ∈ msgs -> p ∈ POS <$> variants).
Proof.
  induction variants as [|variant variants IH]; intros pos w.
  - exists []. split; [|split].
    + simpl. unfold state_after. simpl.
      rewrite with_calls_nil, app_nil_r. destruct w; reflexivity.
    + apply reports_nil.
    + intros p H. inversion H.
  - simpl add_diploid_sites_from. simpl kept.
    destruct (add_diploid_site_cases variant pos w)
      as [[Hpos ->]|[[Hpos [Hacc ->]]|[Hpos [Hacc ->]]]].
    + rewrite decide_True by assumption.
      destruct (IH pos (mkImport (imp_samples w)
                          (imp_out w ++ [DuplicateEntries pos])))
        as (msgs & -> & Hign & Hdup).
      exists (DuplicateEntries pos :: msgs). simpl.
      rewrite <- app_assoc. split; [reflexivity|]. split.
      * apply reports_duplicate, Hign.
      * intros p Hp. apply (elem_of_cons (POS <$> variants) p (POS variant)).
        apply elem_of_cons in Hp as [[= ->]|Hp]; [left; assumption|].
        right. apply Hdup. assumption.
    + rewrite decide_False by assumption. simpl progress.
      rewrite decide_True by assumption.
      destruct (invoke_cases (site_call variant) (imp_samples w))
        as [[Hnone ->]|(e & Hsome & ->)].
      * rewrite Hnone. simpl.
        destruct (IH (POS variant)
                    (mkImport
                       (record_call (imp_samples w) (site_call variant) None)
                       (imp_out w ++ allele_messages variant)))
          as (msgs & -> & Hign & Hdup).
        exists (allele_messages variant ++ msgs). simpl.
        rewrite <- app_assoc, state_after_cons. split; [reflexivity|]. split.
        -- apply (reports_cons msgs _ variant), Hign.
        -- intros p Hp.
           apply (elem_of_cons (POS <$> variants) p (POS variant)). right.
           apply elem_of_app in Hp as [Hp|Hp]; [|apply Hdup; assumption].
           unfold allele_messages in Hp.
           apply list_elem_of_fmap in Hp as (a & [=] & _).
      * rewrite Hsome. simpl.
        exists (allele_messages variant). split; [|split].
        -- unfold state_after. simpl. rewrite with_calls_nil. reflexivity.
        -- unfold reached. simpl.
           rewrite <- (app_nil_r (allele_messages variant)).
           apply reports_cons, reports_nil.
        -- intros p Hp. unfold allele_messages in Hp.
           apply list_elem_of_fmap in Hp as (a & [=] & _).
    + rewrite decide_False by assumption. simpl progress.
      rewrite decide_False by assumption.
      exists []. simpl. split; [|split].
      * unfold state_after. simpl. rewrite with_calls_nil, app_nil_r.
        destruct w; reflexivity.
      * apply reports_nil.
      * intros p H. inversion H.
Qed.

(** ** Which variants are kept *)

Lemma kept_unequal (variants : list Variant) :
  forall pos,
  HdRel unequal pos (POS <$> kept pos variants) ∧
  Sorted unequal (POS <$> kept pos variants).
Proof.
  induction variants as [|variant variants IH]; intros pos.
  - split; constructor.
  - simpl. destruct (decide (pos = POS variant)) as [Hpos|Hpos];
      [apply IH|].
    destruct (IH (POS variant)) as [Hhd Hs].
    split; constructor; assumption.
Qed.

Lemma kept_increasing (variants : list Variant) :
  forall pos,
  Sorted Z.le (pos :: (POS <$> variants)) ->
  HdRel Z.lt pos (POS <$> kept pos variants) ∧
  Sorted Z.lt (POS <$> kept pos variants).
Proof.
  induction variants as [|variant variants IH]; intros pos Hs.
  - split; constructor.
  - apply Sorted_inv in Hs as [Hs Hhd]. apply HdRel_inv in Hhd.
    simpl. destruct (decide (pos = POS variant)) as [Hpos|Hpos].
    + apply IH. rewrite Hpos. exact Hs.
    + destruct (IH (POS variant) Hs) as [Hhd' Hs'].
      split; constructor; try assumption. lia.
Qed.

Lemma kept_subseteq (variants : list Variant) :
  forall pos, kept pos variants ⊆ variants.
Proof.
  induction variants as [|variant variants IH]; intros pos v Hv.
  - inversion Hv.
  - simpl in Hv. destruct (decide (pos = POS variant)).
    + apply list_elem_of_further. eapply IH, Hv.
    + apply elem_of_cons in Hv as [->|Hv]; [apply list_elem_of_here|].
      apply list_elem_of_further. eapply IH, Hv.
Qed.

Lemma kept_covers (variants : list Variant) :
  forall pos p,
  p ∈ POS <$> variants -> p = pos ∨ p ∈ POS <$> kept pos variants.
Proof.
  induction variants as [|variant variants IH]; intros pos p Hp.
  - inversion Hp.
  - rewrite fmap_cons in Hp. apply elem_of_cons in Hp.
    simpl. destruct (decide (pos = POS variant)) as [Hpos|Hpos].
    + destruct Hp as [->|Hp]; [left; congruence | apply IH, Hp].
    + right. destruct Hp as [->|Hp]; [apply list_elem_of_here|].
      destruct (IH (POS variant) p Hp) as [->|H];
        [apply list_elem_of_here | apply list_elem_of_further, H].
Qed.

(** ** How far the loop gets *)

Lemma progress_spec {T : Tsinfer} (ks : list Variant) :
  forall samples,
  exists rest,
    ks = (progress samples ks).1 ++ rest ∧
    Forall acceptable (progress samples ks).1 ∧
    takes samples (site_call <$> (progress samples ks).1) ∧
    match (progress samples ks).2 with
    | Completed => rest = []
    | Unacceptable v => (exists rest', rest = v :: rest') ∧ ¬ acceptable v
    | Refused v e =>
        (exists rest', rest = v :: rest') ∧ acceptable v ∧
        tsinfer_raises
          (with_calls samples (site_call <$> (progress samples ks).1))
          (site_call v) = Some e
    end.
Proof.
  induction ks as [|v ks IH]; intros samples.
  - exists []. simpl. auto.
  - simpl progress. destruct (decide (acceptable v)) as [Hacc|Hacc].
    + destruct (tsinfer_raises samples (site_call v)) as [e|] eqn:Hr.
      * exists (v :: ks). simpl. rewrite with_calls_nil. eauto 8.
      * destruct (IH (record_call samples (site_call v) None))
          as (rest & Hks & Hall & Htakes & Hstop).
        exists rest. simpl. split; [f_equal; exact Hks|].
        split; [constructor; assumption|]. split; [auto|].
        rewrite <- with_calls_cons. exact Hstop.
    + exists (v :: ks). simpl. eauto 8.
Qed.

Lemma progress_completed {T : Tsinfer} (ks : list Variant) :
  forall samples,
  (progress samples ks).2 = Completed <->
  Forall acceptable ks ∧ takes samples (site_call <$> ks).
Proof.
  induction ks as [|v ks IH]; intros samples.
  - simpl. split; [split; [constructor | exact I] | reflexivity].
  - simpl progress. rewrite fmap_cons. simpl takes. rewrite Forall_cons.
    destruct (decide (acceptable v)) as [Hacc|Hacc].
    + destruct (tsinfer_raises samples (site_call v)) as [e|] eqn:Hr.
      * simpl. split; [discriminate | intros (_ & H & _); discriminate].
      * simpl. rewrite IH. tauto.
    + simpl. split; [discriminate | tauto].
Qed.

Lemma progress_all {T : Tsinfer} (ks : list Variant) (samples : SampleData) :
  (progress samples ks).2 = Completed -> (progress samples ks).1 = ks.
Proof.
  intros H. destruct (progress_spec ks samples) as (rest & Hks & _ & _ & Hstop).
  rewrite H in Hstop. subst rest. rewrite app_nil_r in Hks. auto.
Qed.

Lemma stop_result_OK (s : stop) : stop_result s = OK tt <-> s = Completed.
Proof. destruct s; simpl; split; congruence. Qed.

Lemma state_after_holds (samples : SampleData) (p : list Variant * stop) :
  sd_sites (state_after samples p) = sd_sites samples ++ (site_of <$> p.1) ∧
  sd_individuals (state_after samples p) = sd_individuals samples ∧
  sd_populations (state_after samples p) = sd_populations samples ∧
  sd_sequence_length (state_after samples p) = sd_sequence_length samples ∧
  sd_site_calls (state_after samples p) =
    sd_site_calls samples ++ (site_of <$> reached p).
Proof.
  destruct (omap_site_calls p.1) as (Hs & Hi & Hp).
  assert (Hw :
    sd_sites (with_calls samples (site_call <$> p.1)) =
      sd_sites samples ++ (site_of <$> p.1) ∧
    sd_individuals (with_calls samples (site_call <$> p.1)) =
      sd_individuals samples ∧
    sd_populations (with_calls samples (site_call <$> p.1)) =
      sd_populations samples).
  { rewrite sd_sites_with_calls, sd_individuals_with_calls,
      sd_populations_with_calls, Hs, Hi, Hp, !app_nil_r. auto. }
  destruct Hw as (Hws & Hwi & Hwp).
  unfold state_after, reached. destruct p as [added [|v|v e]]; simpl in *.
  - rewrite sd_site_calls_with_calls, Hs, app_nil_r. auto.
  - rewrite sd_site_calls_with_calls, Hs, app_nil_r. auto.
  - destruct (record_call_raised
                (with_calls samples (site_call <$> added)) (site_call v) e)
      as (-> & -> & -> & _).
    rewrite sd_site_calls_record_call, sd_site_calls_with_calls, Hs.
    simpl. rewrite fmap_app, <- app_assoc. auto.
Qed.

Lemma add_diploid_sites_spec {T : Tsinfer} (vcf : VCF) (w : Import) :
  exists msgs,
    add_diploid_sites vcf w =
      (mkImport
         (state_after (imp_samples w)
            (progress (imp_samples w) (kept 0 (vcf_variants vcf))))
         (imp_out w ++ msgs),
       stop_result (progress (imp_samples w) (kept 0 (vcf_variants vcf))).2) ∧
    reports msgs
      (reached (progress (imp_samples w) (kept 0 (vcf_variants vcf)))) ∧
    (forall p, DuplicateEntries p ∈ msgs -> p ∈ POS <$> vcf_variants vcf).
Proof. apply add_diploid_sites_from_spec. Qed.

(** ** What [add_diploid_sites] guarantees *)

Lemma Sorted_app_l {A : Type} (R : A -> A -> Prop) (l1 l2 : list A) :
  Sorted R (l1 ++ l2) -> Sorted R l1.
Proof.
  induction l1 as [|x l1 IH]; [constructor|].
  simpl. intros H. apply Sorted_inv in H as [Hs Hhd].
  constructor; [apply IH, Hs|].
  destruct l1; [constructor|]. apply HdRel_inv in Hhd. constructor. exact Hhd.
Qed.

Lemma fmap_site_of_position (l : list Variant) :
  sr_position <$> (site_of <$> l) = POS <$> l.
Proof. rewrite <- list_fmap_compose. reflexivity. Qed.

(** X1. [add_diploid_sites] goes, in file order, through the variants whose
    position differs from that of the variant before them (from 0 for the
    first), and adds the sites of a run of them from the first on; it adds
    no population and no individual.  It stops before the end at the first
    variant that is not acceptable (a genotype that is not diploid and
    phased, or an ancestral allele that is not among its alleles), where it
    raises [ValueError] itself, or at the first variant for whose site
    [add_site] raises, with that exception.  So it ends without an exception
    exactly when all those variants are acceptable and tsinfer takes the
    site of every one of them, one after the other. *)
Theorem add_diploid_sites_adds {T : Tsinfer} (vcf : VCF) (w : Import) :
  let ks := kept 0 (vcf_variants vcf) in
  let samples := imp_samples w in
  let samples' := imp_samples (add_diploid_sites vcf w).1 in
  (exists added rest,
     ks = added ++ rest ∧
     Forall acceptable added ∧
     takes samples (site_call <$> added) ∧
     sd_sites samples' = sd_sites samples ++ (site_of <$> added) ∧
     match (add_diploid_sites vcf w).2 with
     | OK _ => rest = []
     | Err e =>
         exists v rest',
           rest = v :: rest' ∧
           ((¬ acceptable v ∧ e = ValueError) ∨
            (acceptable v ∧
             tsinfer_raises (with_calls samples (site_call <$> added))
               (site_call v) = Some e))
     end) ∧
  sd_populations samples' = sd_populations samples ∧
  sd_individuals samples' = sd_individuals samples ∧
  sd_sequence_length samples' = sd_sequence_length samples ∧
  ((add_diploid_sites vcf w).2 = OK tt <->
   Forall acceptable ks ∧ takes samples (site_call <$> ks)).
Proof.
  intros ks samples samples'. subst samples'.
  destruct (add_diploid_sites_spec vcf w) as (msgs & -> & _).
  fold ks. fold samples. simpl.
  destruct (state_after_holds samples (progress samples ks))
    as (Hsites & Hind & Hpop & Hlen & _).
  destruct (progress_spec ks samples) as (rest & Hks & Hacc & Htakes & Hstop).
  split.
  { exists (progress samples ks).1, rest.
    split; [exact Hks|]. split; [exact Hacc|]. split; [exact Htakes|].
    split; [exact Hsites|].
    destruct (progress samples ks).2 as [|v|v e]; simpl.
    - exact Hstop.
    - destruct Hstop as ((rest' & ->) & Hv). exists v, rest'. auto.
    - destruct Hstop as ((rest' & ->) & Hv & Hr). exists v, rest'. auto. }
  split; [exact Hpop|]. split; [exact Hind|]. split; [exact Hlen|].
  rewrite stop_result_OK. apply progress_completed.
Qed.

(** X2. No two sites that [add_diploid_sites] adds one after the other have
    the same position.  When the file is ordered by position (from 0 up) and
    the call ends, the positions of the added sites increase strictly, and
    they are the positions of the file other than 0. *)
Theorem add_diploid_sites_positions {T : Tsinfer} (vcf : VCF) (w : Import) :
  exists added,
    sd_sites (imp_samples (add_diploid_sites vcf w).1) =
      sd_sites (imp_samples w) ++ added ∧
    Sorted unequal (sr_position <$> added) ∧
    (Sorted Z.le (0 :: (POS <$> vcf_variants vcf)) ->
     (add_diploid_sites vcf w).2 = OK tt ->
     Sorted Z.lt (sr_position <$> added) ∧
     forall p, p ∈ sr_position <$> added <->
               p ∈ POS <$> vcf_variants vcf ∧ p ≠ 0).
Proof.
  destruct (add_diploid_sites_spec vcf w) as (msgs & -> & _).
  set (ks := kept 0 (vcf_variants vcf)).
  set (p := progress (imp_samples w) ks).
  exists (site_of <$> p.1). simpl.
  destruct (state_after_holds (imp_samples w) p) as (Hsites & _).
  split; [exact Hsites|].
  rewrite fmap_site_of_position.
  destruct (progress_spec ks (imp_samples w)) as (rest & Hks & _).
  fold p in Hks. split.
  - assert (Hs : Sorted unequal (POS <$> ks)) by apply kept_unequal.
    rewrite Hks, fmap_app in Hs. eapply Sorted_app_l, Hs.
  - intros Hsorted Hok. apply stop_result_OK in Hok.
    pose proof (progress_all ks (imp_samples w) Hok) as Hp.
    fold p in Hp. rewrite Hp.
    destruct (kept_increasing (vcf_variants vcf) 0 Hsorted) as [Hhd Hs].
    fold ks in Hhd, Hs. split; [exact Hs|].
    intros q. split.
    + intros Hq. split.
      * apply list_elem_of_fmap in Hq as (v & -> & Hv).
        apply list_elem_of_fmap. exists v. split; [reflexivity|].
        eapply kept_subseteq, Hv.
      * intros ->.
        assert (Hall : Forall (Z.lt 0) (POS <$> ks)).
        { apply Sorted_extends; [exact Z.lt_trans|].
          constructor; assumption. }
        rewrite Forall_forall in Hall. specialize (Hall 0 Hq). lia.
    + intros [Hq Hne].
      destruct (kept_covers (vcf_variants vcf) 0 q Hq) as [->|H];
        [contradiction | exact H].
Qed.

Lemma add_diploid_sites_positions_witness :
  exists added,
    sd_sites (imp_samples
                (add_diploid_sites (T := example_tsinfer) example_vcf
                   (mkImport empty_samples [])).1) =
      added ∧
    sr_position <$> added = [10; 25; 40] ∧
    Sorted Z.lt (sr_position <$> added).
Proof.
  destruct (add_diploid_sites_positions (T := example_tsinfer) example_vcf
              (mkImport empty_samples []))
    as (added & Hsites & _ & Hsorted).
  exists added.
  change (sd_sites (imp_samples (mkImport empty_samples [])) ++ added)
    with added in Hsites.
  split; [exact Hsites|]. split.
  - rewrite <- Hsites. vm_compute. reflexivity.
  - apply Hsorted; [by_compute | vm_compute; reflexivity].
Defined.

(** X3. The message "Ignoring site ..." does not make [add_diploid_sites]
    skip anything: it is printed exactly for the alleles, with a character
    outside [allele_chars], of the sites that the same call passes to
    [add_site].  These are the sites the call adds and, when [add_site]
    raises, the site it raises for, whose messages are printed before. *)
Theorem ignored_sites_reach_add_site {T : Tsinfer} (vcf : VCF) (w : Import) :
  exists msgs passed added,
    imp_out (add_diploid_sites vcf w).1 = imp_out w ++ msgs ∧
    sd_site_calls (imp_samples (add_diploid_sites vcf w).1) =
      sd_site_calls (imp_samples w) ++ passed ∧
    sd_sites (imp_samples (add_diploid_sites vcf w).1) =
      sd_sites (imp_samples w) ++ added ∧
    (forall p a,
       IgnoringSite p a ∈ msgs <->
       exists site,
         site ∈ passed ∧ sr_position site = p ∧
         a ∈ sr_alleles site ∧ odd_allele a) ∧
    (passed = added ∨
     exists site e, passed = added ++ [site] ∧
                    (add_diploid_sites vcf w).2 = Err e) ∧
    ((add_diploid_sites vcf w).2 = OK tt -> passed = added).
Proof.
  destruct (add_diploid_sites_spec vcf w) as (msgs & -> & Hign & _).
  set (p := progress (imp_samples w) (kept 0 (vcf_variants vcf))) in *.
  exists msgs, (site_of <$> reached p), (site_of <$> p.1). simpl.
  destruct (state_after_holds (imp_samples w) p)
    as (Hsites & _ & _ & _ & Hcalls).
  split; [reflexivity|]. split; [exact Hcalls|]. split; [exact Hsites|].
  split; [|split].
  - intros q a. rewrite (Hign q a). split.
    + intros (v & Hv & Hp & Ha & Hodd). exists (site_of v).
      split; [apply list_elem_of_fmap_2, Hv | auto].
    + intros (site & Hsite & Hp & Ha & Hodd).
      apply list_elem_of_fmap in Hsite as (v & -> & Hv).
      exists v. auto.
  - unfold reached. destruct p.2 as [|v|v e]; simpl.
    + left. rewrite app_nil_r. reflexivity.
    + left. rewrite app_nil_r. reflexivity.
    + right. exists (site_of v), e. rewrite fmap_app. auto.
  - unfold reached. destruct p.2 as [|v|v e]; simpl;
      [rewrite app_nil_r; reflexivity | discriminate..].
Qed.

Lemma upper_ascii_idemp (c : ascii) : upper_ascii (upper_ascii c) = upper_ascii c.
Proof.
  destruct c as [[] [] [] [] [] [] [] []]; reflexivity.
Qed.

Lemma upper_idemp (s : string) : upper (upper s) = upper s.
Proof.
  induction s as [|c s IH]; [reflexivity|].
  simpl. rewrite upper_ascii_idemp, IH. reflexivity.
Qed.

Lemma length_flatten_diploid (gs : list Genotype) :
  Forall (fun row => length (calls row) = 2%nat) gs ->
  length (row ← gs; GAllele <$> calls row) = (2 * length gs)%nat.
Proof.
  induction 1 as [|row gs Hrow _ IH]; [reflexivity|].
  change (length ((GAllele <$> calls row) ++ (row ← gs; GAllele <$> calls row))
          = (2 * S (length gs))%nat).
  rewrite length_app, length_fmap, Hrow, IH. lia.
Qed.

(** X4. Every site that [add_diploid_sites] adds comes from a variant of the
    file: it has the variant's position; its alleles are REF followed by the
    ALT alleles, in upper case; its genotypes are the two allele indices of
    every sample, never a phased flag; and its ancestral allele is
    [MISSING_DATA] when the first field of [AA] is absent, [.] or empty, and
    otherwise the index of that field among the alleles. *)
Theorem added_sites_well_formed {T : Tsinfer} (vcf : VCF) (w : Import) :
  exists added,
    sd_sites (imp_samples (add_diploid_sites vcf w).1) =
      sd_sites (imp_samples w) ++ added ∧
    Forall (fun site =>
      exists variant,
        variant ∈ vcf_variants vcf ∧
        sr_position site = POS variant ∧
        sr_alleles site = upper (REF variant) :: (upper <$> ALT variant) ∧
        Forall (fun a => upper a = a) (sr_alleles site) ∧
        length (sr_genotypes site) = (2 * length (genotypes variant))%nat ∧
        Forall (fun g => exists a, g = GAllele a) (sr_genotypes site) ∧
        ((ancestral_unknown variant ∧
          sr_ancestral_allele site = MISSING_DATA) ∨
         (¬ ancestral_unknown variant ∧
          exists i, sr_ancestral_allele site = Z.of_nat i ∧
                    sr_alleles site !! i = Some (ancestral variant))))
      added.
Proof.
  destruct (add_diploid_sites_spec vcf w) as (msgs & -> & _).
  set (ks := kept 0 (vcf_variants vcf)).
  set (p := progress (imp_samples w) ks).
  exists (site_of <$> p.1). simpl.
  destruct (state_after_holds (imp_samples w) p) as (Hsites & _).
  split; [exact Hsites|].
  destruct (progress_spec ks (imp_samples w)) as (rest & Hks & Hall & _).
  fold p in Hks, Hall.
  apply Forall_fmap, Forall_forall. intros v Hv.
  change (exists variant,
    variant ∈ vcf_variants vcf ∧
    sr_position (site_of v) = POS variant ∧
    sr_alleles (site_of v) = upper (REF variant) :: (upper <$> ALT variant) ∧
    Forall (fun a => upper a = a) (sr_alleles (site_of v)) ∧
    length (sr_genotypes (site_of v)) = (2 * length (genotypes variant))%nat ∧
    Forall (fun g => exists a, g = GAllele a) (sr_genotypes (site_of v)) ∧
    ((ancestral_unknown variant ∧
      sr_ancestral_allele (site_of v) = MISSING_DATA) ∨
     (¬ ancestral_unknown variant ∧
      exists i, sr_ancestral_allele (site_of v) = Z.of_nat i ∧
                sr_alleles (site_of v) !! i = Some (ancestral variant)))).
  exists v.
  assert (Hacc : acceptable v).
  { rewrite Forall_forall in Hall. apply Hall, Hv. }
  destruct Hacc as [Hdp Hanc]. apply diploid_phased_iff in Hdp as [Hdip _].
  split.
  { apply (kept_subseteq (vcf_variants vcf) 0). fold ks. rewrite Hks.
    apply elem_of_app. left. exact Hv. }
  split; [reflexivity|]. split; [reflexivity|]. split.
  { change (Forall (fun a => upper a = a)
              (upper (REF v) :: (upper <$> ALT v))).
    constructor; [apply upper_idemp|].
    apply Forall_fmap, Forall_forall. intros a _. apply upper_idemp. }
  split; [apply length_flatten_diploid, Hdip|]. split.
  { change (Forall (fun g => exists a, g = GAllele a)
              (row ← genotypes v; GAllele <$> calls row)).
    apply Forall_forall. intros g Hg.
    apply list_elem_of_bind in Hg as (row & Hg & _).
    apply list_elem_of_fmap in Hg as (a & -> & _). eauto. }
  destruct (decide (ancestral_unknown v)) as [Hunk|Hunk].
  - left. split; [assumption|]. rewrite site_of_unknown by assumption.
    reflexivity.
  - right. split; [assumption|].
    destruct Hanc as [Hanc|Hanc]; [contradiction|].
    destruct (index_elem_of _ _ Hanc) as [i Hi]. exists i.
    rewrite (site_of_known v i) by assumption.
    split; [reflexivity|]. apply index_OK_lookup, Hi.
Qed.

(** X5. A first variant at position 0 is taken for a duplicate, because
    [pos] starts at 0: it is reported and not added, whatever it holds. *)
Theorem leading_position_zero_is_skipped {T : Tsinfer} (variant : Variant)
    (variants : list Variant) (names : list string) (lens : list Z)
    (w : Import) :
  POS variant = 0 ->
  add_diploid_sites (mkVCF (variant :: variants) names lens) w =
  add_diploid_sites (mkVCF variants names lens)
    (mkImport (imp_samples w) (imp_out w ++ [DuplicateEntries 0])).
Proof.
  intros Hpos. unfold add_diploid_sites. simpl.
  destruct (add_diploid_site_cases variant 0 w)
    as [[_ ->]|[[H _]|[H _]]]; [reflexivity | congruence | congruence].
Qed.

Lemma leading_position_zero_is_skipped_witness :
  add_diploid_sites (T := example_tsinfer)
    (mkVCF [mkVariant 0 "A" ["G"%string] ∅ [diploid 0 1]] [] [])
    (mkImport empty_samples []) =
  (mkImport empty_samples [DuplicateEntries 0], OK tt).
Proof.
  rewrite (leading_position_zero_is_skipped (T := example_tsinfer)
             (mkVariant 0 "A" ["G"%string] ∅ [diploid 0 1]) [] [] []
             (mkImport empty_samples [])); reflexivity.
Defined.

(** ** [add_populations] and [add_diploid_individuals] *)

Lemma first_letter_initial (name : string) :
  name ≠ EmptyString -> first_letter name = OK (initial name).
Proof. destruct name; [congruence | reflexivity]. Qed.

Lemma comprehension_first_letter (names : list string) :
  (Forall (fun name => name ≠ EmptyString) names ∧
   comprehension first_letter names = OK (initial <$> names)) ∨
  (¬ Forall (fun name => name ≠ EmptyString) names ∧
   comprehension first_letter names = Err IndexError).
Proof.
  induction names as [|name names IH].
  - left. split; [constructor | reflexivity].
  - simpl comprehension. destruct name as [|c name].
    + right. split; [|reflexivity].
      intros H. apply Forall_cons in H as [H _]. congruence.
    + simpl first_letter. rewrite bind_OK.
      destruct IH as [[Hall ->]|[Hall ->]].
      * left. split; [constructor; [discriminate | assumption] | reflexivity].
      * right. split; [|reflexivity].
        intros H. apply Forall_cons in H as [_ H]. contradiction.
Qed.

Lemma lookup_each_populations (norway france : Z) (names : list string) :
  (Forall known_population names ∧
   lookup_each (<["F"%string := france]> (<["8"%string := norway]> ∅))
     (initial <$> names) =
   Returned (population_for norway france <$> names)) ∨
  (¬ Forall known_population names ∧
   lookup_each (<["F"%string := france]> (<["8"%string := norway]> ∅))
     (initial <$> names) = Raised KeyError).
Proof.
  set (pop_lookup := <["F"%string := france]> (<["8"%string := norway]> ∅)).
  induction names as [|name names IH].
  - left. split; [constructor | reflexivity].
  - rewrite fmap_cons. simpl lookup_each.
    destruct (decide (initial name = "8"%string)) as [H8|H8].
    + assert (Hl : pop_lookup !! initial name = Some norway).
      { rewrite H8. unfold pop_lookup.
        rewrite lookup_insert_ne by discriminate. apply lookup_insert_eq. }
      rewrite Hl. destruct IH as [[Hall ->]|[Hall ->]].
      * left. split; [constructor; [left; assumption | assumption]|].
        assert (Hp : population_for norway france name = norway).
        { unfold population_for. rewrite decide_True by assumption.
          reflexivity. }
        rewrite fmap_cons, Hp. reflexivity.
      * right. split; [|reflexivity].
        intros H. apply Forall_cons in H as [_ H]. contradiction.
    + destruct (decide (initial name = "F"%string)) as [HF|HF].
      * assert (Hl : pop_lookup !! initial name = Some france).
        { rewrite HF. unfold pop_lookup. apply lookup_insert_eq. }
        rewrite Hl. destruct IH as [[Hall ->]|[Hall ->]].
        -- left. split; [constructor; [right; assumption | assumption]|].
           assert (Hp : population_for norway france name = france).
           { unfold population_for. rewrite decide_False by assumption.
             reflexivity. }
           rewrite fmap_cons, Hp. reflexivity.
        -- right. split; [|reflexivity].
           intros H. apply Forall_cons in H as [_ H]. contradiction.
      * assert (Hl : pop_lookup !! initial name = None).
        { unfold pop_lookup. rewrite !lookup_insert_ne by congruence.
          apply lookup_empty. }
        rewrite Hl. right. split; [|reflexivity].
        intros H. apply Forall_cons in H as [[H|H] _]; contradiction.
Qed.

Lemma sd_populations_record_population (samples : SampleData)
    (metadata : gmap string string) :
  sd_populations (record_call samples (AddPopulation metadata) None) =
  sd_populations samples ++ [metadata].
Proof.
  unfold sd_populations. rewrite taken_record_call, omap_app. reflexivity.
Qed.

Lemma add_populations_unfold (vcf : VCF) (samples : SampleData) :
  add_populations vcf samples =
  match comprehension first_letter (vcf_samples vcf) with
  | Err e => (samples, Raised (Builtin e))
  | OK samples_first_letter =>
      (with_populations samples,
       lookup_each
         (<["F"%string := Z.of_nat (length (sd_populations samples)) + 1]>
            (<["8"%string := Z.of_nat (length (sd_populations samples))]> ∅))
         samples_first_letter)
  end.
Proof.
  unfold add_populations.
  destruct (comprehension first_letter (vcf_samples vcf)); [|reflexivity].
  unfold add_population. cbv zeta.
  rewrite sd_populations_record_population, length_app.
  change (length [Norway]) with 1%nat. rewrite Nat2Z.inj_add.
  unfold with_populations. rewrite <- with_calls_cons.
  rewrite <- (with_calls_cons _ (AddPopulation France) []), with_calls_nil.
  reflexivity.
Qed.






(** ** The loop of [add_diploid_individuals] *)

Lemma takes_lookup {T : Tsinfer} {A : Type} (f : A -> call) (l : list A)
    (n : nat) (x : A) (samples : SampleData) :
  takes samples (f <$> l) -> l !! n = Some x ->
  tsinfer_raises (with_calls samples (f <$> take n l)) (f x) = None.
Proof.
  intros Htakes Hx.
  rewrite <- (take_drop_middle l n x Hx) in Htakes at 1.
  rewrite fmap_app in Htakes. apply takes_app in Htakes as [_ Htakes].
  rewrite fmap_cons in Htakes. destruct Htakes as [H _]. exact H.
Qed.

Lemma add_diploid_individuals_from_spec {T : Tsinfer}
    (pairs : list (string * Z)) :
  forall samples,
  exists n,
    takes samples (individual_call <$> take n pairs) ∧
    ((n = length pairs ∧
      add_diploid_individuals_from pairs samples =
      (with_calls samples (individual_call <$> pairs), OK tt)) ∨
     (exists np e,
        pairs !! n = Some np ∧
        tsinfer_raises
          (with_calls samples (individual_call <$> take n pairs))
          (individual_call np) = Some e ∧
        add_diploid_individuals_from pairs samples =
        (record_call
           (with_calls samples (individual_call <$> take n pairs))
           (individual_call np) (Some e),
         Err e))).
Proof.
  induction pairs as [|[name population] pairs IH]; intros samples.
  - exists 0%nat. split; [exact I|]. left. split; [reflexivity|].
    simpl. rewrite with_calls_nil. reflexivity.
  - simpl add_diploid_individuals_from. unfold add_individual.
    change (AddIndividual
              (mkIndividualRecord 2 {[ "name"%string := name ]} population))
      with (individual_call (name, population)).
    destruct (invoke_cases (individual_call (name, population)) samples)
      as [[Hnone ->]|(e & Hsome & ->)].
    + destruct (IH (record_call samples
                      (individual_call (name, population)) None))
        as (n & Htakes & Hrun).
      exists (S n). split; [simpl; auto|].
      destruct Hrun as [[-> ->]|(np & e & Hnp & Hr & ->)].
      * left. split; [reflexivity|]. rewrite with_calls_cons. reflexivity.
      * right. exists np, e. split; [exact Hnp|].
        rewrite with_calls_cons in *. auto.
    + exists 0%nat. split; [exact I|]. right.
      exists (name, population), e. simpl. rewrite with_calls_nil. auto.
Qed.

Lemma fmap_zip_diploid (names : list string) :
  forall populations,
  (fun np => diploid_individual np.1 np.2) <$> zip names populations =
  zip_with diploid_individual names populations.
Proof.
  induction names as [|name names IH]; intros [|population populations];
    try reflexivity.
  simpl. f_equal. apply IH.
Qed.

Lemma individual_calls_hold (samples : SampleData) (l : list (string * Z)) :
  sd_individuals (with_calls samples (individual_call <$> l)) =
    sd_individuals samples ++ ((fun np => diploid_individual np.1 np.2) <$> l) ∧
  sd_sites (with_calls samples (individual_call <$> l)) = sd_sites samples ∧
  sd_populations (with_calls samples (individual_call <$> l)) =
    sd_populations samples.
Proof.
  destruct (omap_individual_calls l) as (Hi & Hs & Hp).
  rewrite sd_sites_with_calls, sd_individuals_with_calls,
    sd_populations_with_calls, Hs, Hi, Hp, !app_nil_r. auto.
Qed.

(** X8. [add_diploid_individuals] calls [add_individual] for the pairs of
    [zip(vcf.samples, populations)], in order, with ploidy 2, the sample
    name as metadata and the paired population, until a call raises; it
    raises nothing of its own, and adds no population and no site.  So it
    ends without an exception exactly when tsinfer takes every one of these
    individuals, and then it has added as many as the shorter of the two
    lists holds. *)
Theorem add_diploid_individuals_adds {T : Tsinfer} (vcf : VCF)
    (samples : SampleData) (populations : list Z) :
  let pairs := zip (vcf_samples vcf) populations in
  let samples' := (add_diploid_individuals vcf samples populations).1 in
  (exists n,
     takes samples (individual_call <$> take n pairs) ∧
     sd_individuals samples' =
       sd_individuals samples ++
       take n (zip_with diploid_individual (vcf_samples vcf) populations) ∧
     match (add_diploid_individuals vcf samples populations).2 with
     | OK _ => n = (length (vcf_samples vcf) `min` length populations)%nat
     | Err e =>
         exists np,
           pairs !! n = Some np ∧
           tsinfer_raises
             (with_calls samples (individual_call <$> take n pairs))
             (individual_call np) = Some e
     end) ∧
  sd_populations samples' = sd_populations samples ∧
  sd_sites samples' = sd_sites samples ∧
  sd_sequence_length samples' = sd_sequence_length samples ∧
  ((add_diploid_individuals vcf samples populations).2 = OK tt <->
   takes samples (individual_call <$> pairs)).
Proof.
  intros pairs samples'. subst samples'. unfold add_diploid_individuals.
  fold pairs.
  destruct (add_diploid_individuals_from_spec pairs samples)
    as (n & Htakes & [[Hn ->]|(np & e & Hnp & Hr & ->)]).
  - simpl. destruct (individual_calls_hold samples pairs) as (Hi & Hs & Hp).
    assert (Hall : take n pairs = pairs) by (subst n; apply firstn_all).
    split.
    { exists n. split; [exact Htakes|]. split.
      - rewrite Hi, <- fmap_zip_diploid. fold pairs.
        rewrite <- fmap_take, Hall. reflexivity.
      - subst n. apply length_zip_with. }
    split; [exact Hp|]. split; [exact Hs|]. split; [reflexivity|].
    split; [intros _ | reflexivity]. rewrite <- Hall. exact Htakes.
  - simpl.
    destruct (record_call_raised
                (with_calls samples (individual_call <$> take n pairs))
                (individual_call np) e) as (Hp & Hi & Hs & Hl).
    destruct (individual_calls_hold samples (take n pairs))
      as (Hi' & Hs' & Hp').
    split.
    { exists n. split; [exact Htakes|]. split.
      - rewrite Hi, Hi', <- fmap_zip_diploid. fold pairs.
        rewrite fmap_take. reflexivity.
      - exists np. auto. }
    split; [rewrite Hp; exact Hp'|]. split; [rewrite Hs; exact Hs'|].
    split; [reflexivity|].
    split; [discriminate|]. intros Hall.
    pose proof (takes_lookup individual_call pairs n np samples Hall Hnp).
    congruence.
Qed.

(** ** The cell that builds the sample data *)

Lemma zip_with_fmap_r {A B C : Type} (f : A -> B -> C) (g : A -> B)
    (l : list A) :
  zip_with f l (g <$> l) = (fun x => f x (g x)) <$> l.
Proof.
  induction l as [|x l IH]; [reflexivity|].
  rewrite !fmap_cons. simpl. f_equal. exact IH.
Qed.

Lemma leave_block_Returned {T : Tsinfer} (samples samples' : SampleData)
    (block : attempt unit) :
  leave_block samples block = Returned samples' <->
  block = Returned tt ∧ tsinfer_raises samples Finalise = None ∧
  samples' = record_call samples Finalise None.
Proof.
  unfold leave_block, finalise.
  destruct (invoke_cases Finalise samples) as [[Hnone ->]|(e & Hsome & ->)].
  - destruct block as [[]|e]; split.
    + intros [= <-]. auto.
    + intros (_ & _ & ->). reflexivity.
    + discriminate.
    + intros (H & _). discriminate.
  - split; [discriminate|]. intros (_ & H & _). congruence.
Qed.

Lemma add_diploid_individuals_cases {T : Tsinfer} (vcf : VCF)
    (samples : SampleData) (populations : list Z) :
  (takes samples (individual_call <$> zip (vcf_samples vcf) populations) ∧
   add_diploid_individuals vcf samples populations =
   (with_calls samples
      (individual_call <$> zip (vcf_samples vcf) populations), OK tt)) ∨
  (¬ takes samples (individual_call <$> zip (vcf_samples vcf) populations) ∧
   exists samples' e,
     add_diploid_individuals vcf samples populations = (samples', Err e)).
Proof.
  unfold add_diploid_individuals.
  set (pairs := zip (vcf_samples vcf) populations).
  destruct (add_diploid_individuals_from_spec pairs samples)
    as (n & Htakes & [[Hn ->]|(np & e & Hnp & Hr & ->)]).
  - left. split; [|reflexivity].
    rewrite <- (firstn_all pairs), <- Hn. exact Htakes.
  - right. split; [|eauto]. intros Hall.
    pose proof (takes_lookup individual_call pairs n np samples Hall Hnp).
    congruence.
Qed.

Lemma add_diploid_sites_cases {T : Tsinfer} (vcf : VCF) (w : Import) :
  (Forall acceptable (kept 0 (vcf_variants vcf)) ∧
   takes (imp_samples w) (site_call <$> kept 0 (vcf_variants vcf)) ∧
   exists msgs,
     add_diploid_sites vcf w =
     (mkImport
        (with_calls (imp_samples w)
           (site_call <$> kept 0 (vcf_variants vcf)))
        (imp_out w ++ msgs), OK tt)) ∨
  (¬ (Forall acceptable (kept 0 (vcf_variants vcf)) ∧
      takes (imp_samples w) (site_call <$> kept 0 (vcf_variants vcf))) ∧
   exists w' e, add_diploid_sites vcf w = (w', Err e)).
Proof.
  destruct (add_diploid_sites_spec vcf w) as (msgs & -> & _).
  set (ks := kept 0 (vcf_variants vcf)).
  pose proof (progress_completed ks (imp_samples w)) as Hiff.
  pose proof (progress_all ks (imp_samples w)) as Hall.
  unfold state_after.
  destruct (progress (imp_samples w) ks) as [added [|v|v e]]; simpl in *.
  - left. destruct Hiff as [[Hacc Htakes] _]; [reflexivity|].
    rewrite (Hall eq_refl). eauto.
  - right. split; [|eauto]. intros H. apply Hiff in H. discriminate.
  - right. split; [|eauto]. intros H. apply Hiff in H. discriminate.
Qed.

Lemma chromosome_length_one (vcf : VCF) (sequence_length : Z) :
  vcf_seqlens vcf = [sequence_length] ->
  chromosome_length vcf = Returned sequence_length.
Proof. intros H. unfold chromosome_length. rewrite H. reflexivity. Qed.

(** When the file has one sequence length, the cell ends without an
    exception exactly on the files and for the tsinfer described, and then
    the sample data have seen the calls of the cell, all of them taken. *)
Lemma build_sample_data_Returned {T : Tsinfer} (vcf : VCF)
    (sequence_length : Z) (samples : SampleData) :
  vcf_seqlens vcf = [sequence_length] ->
  (exists msgs, build_sample_data vcf = (msgs, Returned samples)) <->
  Forall known_population (vcf_samples vcf) ∧
  Forall acceptable (kept 0 (vcf_variants vcf)) ∧
  takes (with_populations (mkSampleData sequence_length []))
    (cell_calls vcf) ∧
  samples =
    with_calls (with_populations (mkSampleData sequence_length []))
      (cell_calls vcf).
Proof.
  intros Hlen. unfold build_sample_data.
  rewrite (chromosome_length_one vcf sequence_length Hlen). cbv zeta.
  rewrite add_populations_unfold.
  change (Z.of_nat (length (sd_populations (mkSampleData sequence_length []))))
    with 0.
  set (s0 := with_populations (mkSampleData sequence_length [])).
  assert (Hknown_ne : Forall known_population (vcf_samples vcf) ->
                      Forall (fun name => name ≠ EmptyString) (vcf_samples vcf)).
  { intros H. eapply Forall_impl; [exact H|].
    intros name [H'|H'] ->; discriminate. }
  destruct (comprehension_first_letter (vcf_samples vcf))
    as [[Hne ->]|[Hne ->]].
  2:{ split.
      - intros (msgs & [= _ H]). apply leave_block_Returned in H as [H _].
        discriminate.
      - intros (Hknown & _). exfalso. apply Hne, Hknown_ne, Hknown. }
  destruct (lookup_each_populations 0 (0 + 1) (vcf_samples vcf))
    as [[Hknown ->]|[Hknown ->]].
  2:{ split.
      - intros (msgs & [= _ H]). apply leave_block_Returned in H as [H _].
        discriminate.
      - intros (H & _). contradiction. }
  change (0 + 1) with 1. unfold cell_calls.
  set (inds := individual_call <$>
                 zip (vcf_samples vcf) (population_for 0 1 <$> vcf_samples vcf)).
  set (ks := kept 0 (vcf_variants vcf)).
  rewrite !takes_app.
  destruct (add_diploid_individuals_cases vcf s0
              (population_for 0 1 <$> vcf_samples vcf))
    as [[Hinds ->]|[Hinds (s' & e & ->)]].
  2:{ split.
      - intros (msgs & [= _ H]). apply leave_block_Returned in H as [H _].
        discriminate.
      - intros (_ & _ & (H & _) & _). contradiction. }
  fold inds in Hinds. fold inds.
  destruct (add_diploid_sites_cases vcf (mkImport (with_calls s0 inds) []))
    as [(Hacc & Hsites & msgs & ->)|[Hsites (w' & e & ->)]].
  2:{ split.
      - intros (msgs & [= _ H]). apply leave_block_Returned in H as [H _].
        discriminate.
      - intros (_ & Hacc & (_ & H & _) & _). exfalso. apply Hsites.
        split; assumption. }
  fold ks in Hacc, Hsites. fold ks. simpl imp_samples in *. simpl imp_out.
  rewrite with_calls_app.
  split.
  - intros (msgs' & [= _ H]).
    apply leave_block_Returned in H as (_ & Hfin & ->).
    split; [exact Hknown|]. split; [exact Hacc|]. split.
    + split; [exact Hinds|]. split; [exact Hsites|].
      simpl. auto.
    + rewrite <- (with_calls_nil (record_call _ Finalise None)).
      rewrite with_calls_cons, with_calls_app, <- app_assoc. reflexivity.
  - intros (_ & _ & (_ & _ & Hfin & _) & ->).
    exists ([] ++ msgs). f_equal.
    apply leave_block_Returned. split; [reflexivity|]. split; [exact Hfin|].
    rewrite <- (with_calls_nil (record_call _ Finalise None)).
    rewrite with_calls_cons, with_calls_app, <- app_assoc. reflexivity.
Qed.

(** X9. The cell made of [chromosome_length], [add_populations],
    [add_diploid_individuals], [add_diploid_sites] and the [with] block, on
    a file with one sequence length.  It ends without an exception exactly
    when every sample name begins with [8] or [F], every variant that is not
    skipped is acceptable, and tsinfer takes every call of the cell: the
    individuals, the sites, and [finalise] on leaving the block.  The sample
    data then hold the populations Norway (id 0) and France (id 1), one
    diploid individual per sample, in the population of its first letter,
    and one site per variant that is not skipped; if every variant has one
    genotype per sample, every site has two genotypes per individual. *)
Theorem build_sample_data_consistent {T : Tsinfer} (vcf : VCF)
    (sequence_length : Z) :
  vcf_seqlens vcf = [sequence_length] ->
  ((exists msgs samples, build_sample_data vcf = (msgs, Returned samples)) <->
   Forall known_population (vcf_samples vcf) ∧
   Forall acceptable (kept 0 (vcf_variants vcf)) ∧
   takes (with_populations (mkSampleData sequence_length []))
     (cell_calls vcf)) ∧
  (forall msgs samples,
     build_sample_data vcf = (msgs, Returned samples) ->
     sd_sequence_length samples = sequence_length ∧
     sd_populations samples = [Norway; France] ∧
     sd_individuals samples =
       (fun name => diploid_individual name (population_for 0 1 name))
       <$> vcf_samples vcf ∧
     sd_sites samples = site_of <$> kept 0 (vcf_variants vcf) ∧
     (Forall (fun variant =>
                length (genotypes variant) = length (vcf_samples vcf))
             (vcf_variants vcf) ->
      Forall (fun site =>
                length (sr_genotypes site)
                = (2 * length (sd_individuals samples))%nat)
             (sd_sites samples))).
Proof.
  intros Hlen. split.
  - split.
    + intros (msgs & samples & Hrun).
      destruct (proj1 (build_sample_data_Returned vcf sequence_length samples
                         Hlen)) as (H1 & H2 & H3 & _); eauto.
    + intros (H1 & H2 & H3).
      destruct (proj2 (build_sample_data_Returned vcf sequence_length _ Hlen)
                  (conj H1 (conj H2 (conj H3 eq_refl)))) as (msgs & Hrun).
      eauto.
  - intros msgs samples Hrun.
    destruct (proj1 (build_sample_data_Returned vcf sequence_length samples
                       Hlen)) as (Hknown & Hacc & _ & ->); [eauto|].
    set (s0 := with_populations (mkSampleData sequence_length [])).
    set (pairs := zip (vcf_samples vcf)
                    (population_for 0 1 <$> vcf_samples vcf)).
    set (ks := kept 0 (vcf_variants vcf)) in *.
    destruct (omap_individual_calls pairs) as (Hii & His & Hip).
    destruct (omap_site_calls ks) as (Hss & Hsi & Hsp).
    assert (Hinds :
      sd_individuals (with_calls s0 (cell_calls vcf)) =
      (fun name => diploid_individual name (population_for 0 1 name))
      <$> vcf_samples vcf).
    { rewrite sd_individuals_with_calls. unfold cell_calls.
      fold pairs. fold ks. rewrite !omap_app, Hii, Hsi.
      unfold pairs. rewrite fmap_zip_diploid, zip_with_fmap_r.
      simpl. rewrite app_nil_r. reflexivity. }
    assert (Hsites :
      sd_sites (with_calls s0 (cell_calls vcf)) = site_of <$> ks).
    { rewrite sd_sites_with_calls. unfold cell_calls.
      fold pairs. fold ks. rewrite !omap_app, His, Hss.
      simpl. rewrite app_nil_r. reflexivity. }
    split; [reflexivity|]. split.
    { rewrite sd_populations_with_calls. unfold cell_calls.
      fold pairs. fold ks. rewrite !omap_app, Hip, Hsp. reflexivity. }
    split; [exact Hinds|]. split; [exact Hsites|].
    rewrite Hinds, Hsites, length_fmap.
    intros Hrows. apply Forall_fmap, Forall_forall. intros v Hv.
    rewrite Forall_forall in Hacc, Hrows.
    destruct (Hacc v Hv) as [Hdp _].
    apply diploid_phased_iff in Hdp as [Hdip _].
    pose proof (length_flatten_diploid _ Hdip) as Hflat.
    pose proof (Hrows v (kept_subseteq _ _ _ Hv)) as Hrow.
    change (length (row ← genotypes v; GAllele <$> calls row)
            = (2 * length (vcf_samples vcf))%nat).
    rewrite Hflat, Hrow. reflexivity.
Qed.

Lemma build_sample_data_consistent_witness :
  exists msgs samples,
    build_sample_data (T := example_tsinfer) example_vcf =
      (msgs, Returned samples) ∧
    sd_sequence_length samples = 1000 ∧
    sd_populations samples = [Norway; France] ∧
    ir_population <$> sd_individuals samples = [0; 1; 0] ∧
    sr_position <$> sd_sites samples = [10; 25; 40].
Proof.
  destruct (build_sample_data_consistent (T := example_tsinfer) example_vcf
              1000 eq_refl) as (Hiff & Hholds).
  destruct (proj2 Hiff) as (msgs & samples & Hrun).
  { split; [by_compute|]. split; by_compute. }
  exists msgs, samples. split; [exact Hrun|].
  destruct (Hholds msgs samples Hrun) as (Hl & Hp & Hi & Hs & _).
  split; [exact Hl|]. split; [exact Hp|].
  rewrite Hi, Hs. split; vm_compute; reflexivity.
Defined.

(** On a file whose third variant lies to the left of the second, the
    example tsinfer raises for the third site: two sites are added, and the
    message about the third site's symbolic allele is printed all the
    same. *)
Example unordered_file_raises :
  let run := add_diploid_sites (T := example_tsinfer) unordered_vcf
               (mkImport empty_samples []) in
  run.2 = Err ValueError ∧
  sr_position <$> sd_sites (imp_samples run.1) = [10; 25] ∧
  sr_position <$> sd_site_calls (imp_samples run.1) = [10; 25; 10] ∧
  imp_out run.1 = [IgnoringSite 10 "<DEL>"].
Proof. vm_compute. auto. Qed.

(** On a file with an unphased call in its second variant the loop raises
    [ValueError] itself, after the first site and before [add_site] is
    called for the second. *)
Example unphased_file_raises :
  let run := add_diploid_sites (T := example_tsinfer) unphased_vcf
               (mkImport empty_samples []) in
  run.2 = Err ValueError ∧
  sr_position <$> sd_sites (imp_samples run.1) = [10] ∧
  sr_position <$> sd_site_calls (imp_samples run.1) = [10].
Proof. vm_compute. auto. Qed.

(** With the example tsinfer, a file without variants makes the cell raise
    on leaving the block, and the [KeyError] of [add_populations] is
    replaced by what [finalise] raises. *)
Example cell_without_sites_raises :
  (build_sample_data (T := example_tsinfer)
     (mkVCF [] ["8934547"; "F510"]%string [1000])).2 =
    Raised (Builtin ValueError) ∧
  (build_sample_data (T := example_tsinfer)
     (mkVCF example_variants ["8934547"; "X1"]%string [1000])).2 =
    Raised (Builtin ValueError).
Proof. vm_compute. auto. Qed.

(** * Further properties: [count_transitions] *)

(** X10. When the loops of [count_transitions] raise, the exception leaves
    the function before anything is printed: standard output is as it
    was. *)
Theorem count_transitions_raises_silently tsr alr w ts al e :
  heap w !! tsr = Some (OTreeSequence ts) ->
  heap w !! alr = Some (OList al) ->
  count_matrix ts al = Err e ->
  (count_transitions tsr alr w).2 = Err e ∧
  stdout (count_transitions tsr alr w).1 = stdout w.
Proof.
  intros Hts Hal Herr.
  destruct (count_transitions_run tsr alr w ts al Hts Hal) as (c & -> & _).
  rewrite Herr. simpl. rewrite app_nil_r. auto.
Qed.

Lemma count_transitions_raises_silently_witness :
  (count_transitions 1%positive 2%positive world_N_mutated).2
    = Err ValueError ∧
  stdout (count_transitions 1%positive 2%positive world_N_mutated).1
    = stdout world_N_mutated.
Proof.
  apply (count_transitions_raises_silently 1%positive 2%positive
           world_N_mutated ts_N_mutated ACGT ValueError); reflexivity.
Defined.

(** X12. Sites without mutations are never looked at: the count over the
    sites that have a mutation is the count over all sites, the matrix and
    the exception alike, whatever the ancestral states of the other sites
    are. *)
Theorem sites_without_mutations_are_not_counted ts al :
  count_matrix
    (with_sites ts (filter (fun s => mutations s ≠ []) (ts_sites ts))) al =
  count_matrix ts al.
Proof.
  rewrite !count_matrix_events. f_equal.
  change (events (filter (fun s => mutations s ≠ []) (ts_sites ts)) =
          events (ts_sites ts)).
  induction (ts_sites ts) as [|s sites IH]; [reflexivity|].
  rewrite filter_cons. destruct (decide (mutations s ≠ [])) as [Hm|Hm].
  - rewrite !events_cons, IH. reflexivity.
  - assert (Hnil : mutations s = []).
    { destruct (mutations s); [reflexivity|].
      exfalso. apply Hm. discriminate. }
    rewrite events_cons, IH, Hnil. reflexivity.
Qed.

(** ** Row totals *)

Lemma sumZ_of_nat (l : list nat) : sumZ (Z.of_nat <$> l) = Z.of_nat (sum_list l).
Proof.
  induction l as [|x l IH]; [reflexivity|].
  rewrite fmap_cons, sumZ_cons, IH. simpl. lia.
Qed.

Lemma sum_list_indicator (j' : nat) (n : nat) :
  forall s : nat,
  sum_list ((fun j => if decide (j = j') then 1 else 0)%nat <$> seq s n) =
  (if decide (s <= j' < s + n)%nat then 1 else 0)%nat.
Proof.
  induction n as [|n IH]; intros s.
  - simpl. rewrite decide_False by lia. reflexivity.
  - simpl seq. rewrite fmap_cons. simpl sum_list. rewrite IH.
    destruct (decide (s = j')) as [->|Hne].
    + rewrite decide_False by lia. rewrite decide_True by lia. reflexivity.
    + destruct (decide (S s <= j' < S s + n)%nat).
      * rewrite decide_True by lia. reflexivity.
      * rewrite decide_False by lia. reflexivity.
Qed.

Lemma sum_list_zero {A : Type} (l : list A) :
  sum_list ((fun _ => 0%nat) <$> l) = 0%nat.
Proof. induction l as [|x l IH]; [reflexivity|]. rewrite fmap_cons. exact IH. Qed.

Lemma sum_list_fmap_add {A : Type} (f g : A -> nat) (l : list A) :
  sum_list ((fun x => f x + g x)%nat <$> l) =
  (sum_list (f <$> l) + sum_list (g <$> l))%nat.
Proof.
  induction l as [|x l IH]; [reflexivity|].
  rewrite !fmap_cons. simpl sum_list. rewrite IH. lia.
Qed.

(** Over a row, the hits add up to the events that increment that row. *)
Lemma sum_hits_row ts al i es :
  sum_list ((fun j => hits ts al i j es) <$> seq 0 (length al)) =
  length (filter (fun e => cell_row ts al e = OK i) es).
Proof.
  induction es as [|e es IH].
  - unfold hits. simpl filter. apply sum_list_zero.
  - rewrite (list_fmap_ext _
               (fun j => (if decide (cell ts al e = OK (i, j)) then 1 else 0)
                         + hits ts al i j es)%nat).
    2:{ intros k j _. apply hits_cons. }
    rewrite sum_list_fmap_add, IH, filter_cons.
    destruct (cell ts al e) as [[i' j']|err] eqn:Hc.
    + destruct (cell_lt _ _ _ _ _ Hc) as [_ Hj'].
      destruct (decide (i' = i)) as [->|Hne].
      * rewrite (list_fmap_ext _ (fun j => if decide (j = j') then 1 else 0)%nat).
        2:{ intros k j _. destruct (decide (j = j')) as [->|Hj].
            - rewrite decide_True by reflexivity. reflexivity.
            - rewrite decide_False by congruence. reflexivity. }
        rewrite sum_list_indicator, decide_True by lia.
        rewrite decide_True by (unfold cell_row; rewrite Hc; reflexivity).
        reflexivity.
      * rewrite (list_fmap_ext _ (fun _ => 0%nat)).
        2:{ intros k j _. rewrite decide_False by congruence. reflexivity. }
        rewrite sum_list_zero.
        rewrite decide_False
          by (unfold cell_row; rewrite Hc; simpl; congruence).
        reflexivity.
    + rewrite (list_fmap_ext _ (fun _ => 0%nat)).
      2:{ intros k j _. rewrite decide_False by discriminate. reflexivity. }
      rewrite sum_list_zero.
      rewrite decide_False by (unfold cell_row; rewrite Hc; discriminate).
      reflexivity.
Qed.

Lemma cell_row_departure ts al e i a :
  NoDup al -> al !! i = Some a -> is_OK (cell ts al e) ->
  cell_row ts al e = OK i <-> effective_parent_state ts e.1 e.2 = OK a.
Proof.
  intros Hnd Ha Hok. unfold cell_row. unfold cell in *.
  destruct (effective_parent_state ts e.1 e.2) as [pa|?]; [|contradiction].
  rewrite bind_OK in *.
  destruct (index al pa) as [i'|?] eqn:Hi; [|contradiction].
  rewrite bind_OK in *.
  destruct (index al (derived_state e.2)) as [j'|?]; [|contradiction].
  simpl. apply index_OK_lookup in Hi. split.
  - intros [= ->]. congruence.
  - intros [= ->]. f_equal. eapply NoDup_lookup; eassumption.
Qed.

Lemma departures_cell_row ts al es i a :
  NoDup al -> al !! i = Some a -> countable_events ts al es ->
  length (filter (fun e => cell_row ts al e = OK i) es) =
  length (filter (fun e : Site * Mutation =>
                    effective_parent_state ts e.1 e.2 = OK a) es).
Proof.
  intros Hnd Ha. induction 1 as [|e es He _ IH]; [reflexivity|].
  rewrite !filter_cons.
  pose proof (cell_row_departure ts al e i a Hnd Ha He) as Hiff.
  destruct (decide (cell_row ts al e = OK i)) as [H|H].
  - rewrite decide_True by (apply Hiff, H). simpl. rewrite IH. reflexivity.
  - rewrite decide_False by (intros H'; apply H, Hiff, H'). exact IH.
Qed.

(** X11. For an alphabet without repetition that holds all observed states,
    row [i] of the matrix adds up to the number of mutation events whose
    effective parent state is the i-th allele. *)
Theorem count_matrix_row_totals ts al :
  NoDup al -> valid_ts ts -> observed_states ts ⊆ al ->
  exists counts,
    count_matrix ts al = OK counts ∧
    forall i a row, al !! i = Some a -> counts !! i = Some row ->
      sumZ row = Z.of_nat (departures ts (ts_sites ts) a).
Proof.
  intros Hnd [Hres Hmax] Hobs.
  pose proof (countable_of_observed ts al Hres Hobs) as Hc.
  destruct (count_matrix_entries ts al Hc) as (counts & Hrun & [Hlen Hrows] & Hent).
  exists counts. split; [assumption|].
  intros i a row Ha Hrow.
  pose proof (lookup_lt_Some _ _ _ Ha) as Hi.
  pose proof (Forall_lookup_1 _ _ _ _ Hrows Hrow) as Hlrow. simpl in Hlrow.
  assert (Heq : row = Z.of_nat <$>
                  ((fun j => hits ts al i j (events (ts_sites ts)))
                   <$> seq 0 (length al))).
  { apply list_eq. intros j. rewrite !list_lookup_fmap.
    destruct (decide (j < length al)%nat) as [Hj|Hj].
    - rewrite lookup_seq_lt by assumption. simpl.
      specialize (Hent i j Hi Hj). unfold entry in Hent.
      rewrite Hrow in Hent. simpl in Hent. rewrite Hent.
      rewrite wrap64_hits by assumption. reflexivity.
    - rewrite lookup_seq_ge by lia. simpl.
      apply lookup_ge_None. lia. }
  rewrite Heq, sumZ_of_nat, sum_hits_row. f_equal.
  apply departures_cell_row; assumption.
Qed.

Lemma count_matrix_row_totals_witness :
  exists counts,
    count_matrix scenario_ts ACGT = OK counts ∧
    forall i a row, ACGT !! i = Some a -> counts !! i = Some row ->
      sumZ row = Z.of_nat (departures scenario_ts (ts_sites scenario_ts) a).
Proof.
  apply (count_matrix_row_totals scenario_ts ACGT).
  - by_compute.
  - split; by_compute.
  - by_compute.
Defined.

(** * Further properties: [find_nearest_neighbour_populations] *)

Lemma table_row_error {A : Type} (table : list A) (id_ : Z) (e : exn) :
  table_row table id_ = Err e -> e = IndexError.
Proof.
  unfold table_row, check_index.
  destruct ((_ <? 0) || _); simpl; [congruence|].
  destruct (table !! _); congruence.
Qed.

Lemma comprehension_population ts (l : list Z) :
  (Forall (fun c => is_OK (node ts c)) l ∧
   comprehension (fun c => population <$> node ts c) l =
   OK (population_of ts <$> l)) ∨
  (¬ Forall (fun c => is_OK (node ts c)) l ∧
   comprehension (fun c => population <$> node ts c) l = Err IndexError).
Proof.
  induction l as [|c l IH].
  - left. split; [constructor | reflexivity].
  - simpl comprehension. rewrite fmap_cons. unfold population_of at 1.
    destruct (node ts c) as [n|e] eqn:Hn.
    + simpl. destruct IH as [[Hall ->]|[Hall ->]].
      * left. split; [|reflexivity]. constructor; [|assumption].
        rewrite Hn. exact I.
      * right. split; [|reflexivity].
        intros H. apply Forall_cons in H as [_ H]. contradiction.
    + simpl. right. split.
      * intros H. apply Forall_cons in H as [H _]. rewrite Hn in H. exact H.
      * f_equal. eapply table_row_error, Hn.
Qed.

(** What the function returns when the focal sample has a parent: the
    outcome rests on the populations of the other leaves below it. *)
Lemma find_nearest_neighbour_populations_value ts t focal_sample p :
  tree_parent t focal_sample = OK p -> p ≠ -1 ->
  let children := filter (fun c => c ≠ focal_sample) (tree_leaves t p) in
  let pops := population_of ts <$> children in
  let n := Z.of_nat (length pops) in
  find_nearest_neighbour_populations ts t focal_sample =
  if decide (Forall (fun c => is_OK (node ts c)) children)
  then if decide (n = 0) then Err ZeroDivisionError
       else OK ((inject_Z (occurrences 0 pops) / inject_Z n)%Q,
                (inject_Z (n - occurrences 0 pops) / inject_Z n)%Q)
  else Err IndexError.
Proof.
  intros Hp Hne children pops n.
  unfold find_nearest_neighbour_populations. rewrite Hp, bind_OK.
  rewrite decide_False by assumption. fold children.
  destruct (comprehension_population ts children) as [[Hall ->]|[Hall ->]].
  - rewrite decide_True by assumption. rewrite bind_OK.
    fold pops. fold n. fold (occurrences 0 pops).
    unfold true_div. destruct (decide (n = 0)); reflexivity.
  - rewrite decide_False by assumption. reflexivity.
Qed.

(** X13. When the focal sample has a parent, and the leaves below the
    parent are nodes of the tree sequence,
    [find_nearest_neighbour_populations] raises [ZeroDivisionError] exactly
    when the focal sample is the only leaf below its parent. *)
Theorem find_nearest_neighbour_populations_only_leaf ts t focal_sample p :
  tree_parent t focal_sample = OK p -> p ≠ -1 ->
  Forall (fun c => is_OK (node ts c)) (tree_leaves t p) ->
  find_nearest_neighbour_populations ts t focal_sample = Err ZeroDivisionError
  <-> Forall (fun c => c = focal_sample) (tree_leaves t p).
Proof.
  intros Hp Hne Hnodes.
  rewrite (find_nearest_neighbour_populations_value ts t focal_sample p Hp Hne).
  set (children := filter (fun c => c ≠ focal_sample) (tree_leaves t p)).
  assert (Hall : Forall (fun c => is_OK (node ts c)) children).
  { apply Forall_forall. intros c Hc. unfold children in Hc.
    apply list_elem_of_filter in Hc as [_ Hc].
    rewrite Forall_forall in Hnodes. apply Hnodes, Hc. }
  rewrite decide_True by assumption. rewrite length_fmap.
  assert (Hiff : children = [] <->
                 Forall (fun c => c = focal_sample) (tree_leaves t p)).
  { unfold children. rewrite Forall_forall. split.
    - intros Hnil c Hc. destruct (decide (c = focal_sample)) as [|Hcf];
        [assumption|].
      assert (Hin : c ∈ filter (fun c => c ≠ focal_sample) (tree_leaves t p))
        by (apply list_elem_of_filter; auto).
      rewrite Hnil in Hin. inversion Hin.
    - intros Hall'. destruct (filter _ _) as [|c l] eqn:Hf; [reflexivity|].
      assert (Hin : c ∈ filter (fun c => c ≠ focal_sample) (tree_leaves t p))
        by (rewrite Hf; apply list_elem_of_here).
      apply list_elem_of_filter in Hin as [Hcf Hin].
      exfalso. apply Hcf, Hall', Hin. }
  rewrite <- Hiff.
  destruct (decide (Z.of_nat (length children) = 0)) as [Hz|Hz].
  - split; [|reflexivity]. intros _.
    destruct children; [reflexivity | simpl in Hz; lia].
  - split; [discriminate|]. intros ->. simpl in Hz. lia.
Qed.

Lemma find_nearest_neighbour_populations_only_leaf_witness :
  find_nearest_neighbour_populations example_nodes
    (mkTree (fun _ => OK 1) (fun _ => [0])) 0 = Err ZeroDivisionError.
Proof.
  apply (find_nearest_neighbour_populations_only_leaf example_nodes
           (mkTree (fun _ => OK 1) (fun _ => [0])) 0 1).
  - reflexivity.
  - discriminate.
  - by_compute.
  - by_compute.
Defined.

(** ** The dictionary [pop_proportions] *)

Lemma tally_lookup_eq (d : gmap Z Z) (pop : Z) :
  tally d pop !! pop = Some (default 0 (d !! pop) + 1).
Proof.
  unfold tally. rewrite lookup_insert_eq.
  destruct (decide (d !! pop = None)) as [Hn|Hn].
  - rewrite lookup_insert_eq, Hn. reflexivity.
  - reflexivity.
Qed.

Lemma tally_lookup_ne (d : gmap Z Z) (pop pop' : Z) :
  pop ≠ pop' -> tally d pop !! pop' = d !! pop'.
Proof.
  intros Hne. unfold tally. rewrite lookup_insert_ne by assumption.
  destruct (decide (d !! pop = None)); [|reflexivity].
  apply lookup_insert_ne. assumption.
Qed.

Lemma occurrences_cons (pop x : Z) (l : list Z) :
  occurrences pop (x :: l) =
  (if decide (x = pop) then 1 else 0) + occurrences pop l.
Proof.
  unfold occurrences. rewrite filter_cons.
  destruct (decide (x = pop)); simpl length; lia.
Qed.

Lemma occurrences_nonneg (pop : Z) (l : list Z) : 0 <= occurrences pop l.
Proof. unfold occurrences. lia. Qed.

Lemma occurrences_zero (pop : Z) (l : list Z) :
  occurrences pop l = 0 <-> pop ∉ l.
Proof.
  induction l as [|x l IH].
  - split; [intros _ H; inversion H | reflexivity].
  - rewrite occurrences_cons, not_elem_of_cons.
    pose proof (occurrences_nonneg pop l).
    destruct (decide (x = pop)) as [->|Hne].
    + split; [lia | intros [H' _]; congruence].
    + rewrite <- IH. split; [intros; split; [congruence | lia] | intros [_ ?]; lia].
Qed.

Lemma foldl_tally_lookup (l : list Z) :
  forall (d : gmap Z Z) (pop : Z),
  foldl tally d l !! pop =
  if decide (occurrences pop l = 0) then d !! pop
  else Some (default 0 (d !! pop) + occurrences pop l).
Proof.
  induction l as [|x l IH]; intros d pop.
  - destruct (decide (occurrences pop [] = 0)) as [|Hz]; [reflexivity|].
    exfalso. apply Hz. reflexivity.
  - simpl foldl. rewrite IH, occurrences_cons.
    pose proof (occurrences_nonneg pop l).
    destruct (decide (x = pop)) as [->|Hne].
    + rewrite tally_lookup_eq. rewrite (decide_False (P := 1 + _ = 0)) by lia.
      destruct (decide (occurrences pop l = 0)) as [Hz|Hz].
      * f_equal. lia.
      * simpl. f_equal. lia.
    + rewrite tally_lookup_ne by assumption.
      rewrite Z.add_0_l. reflexivity.
Qed.

(** X14. The dictionary [pop_proportions] that the function fills maps every
    population that occurs among the neighbours to its number of
    occurrences and has no other key; what the function then counts as
    [count_pop_0] is [pop_proportions.get(0, 0)]. *)
Theorem pop_proportions_counts (relative_populations : list Z) (pop : Z) :
  (pop ∈ relative_populations ->
   pop_proportions relative_populations !! pop =
   Some (occurrences pop relative_populations)) ∧
  (pop ∉ relative_populations ->
   pop_proportions relative_populations !! pop = None) ∧
  Z.of_nat (length (filter (fun pop => pop = 0) relative_populations)) =
    default 0 (pop_proportions relative_populations !! 0).
Proof.
  assert (Hl : forall q,
            pop_proportions relative_populations !! q =
            if decide (occurrences q relative_populations = 0) then None
            else Some (occurrences q relative_populations)).
  { intros q.
    replace (pop_proportions relative_populations)
      with (foldl tally ∅ relative_populations) by reflexivity.
    rewrite foldl_tally_lookup, lookup_empty. simpl.
    destruct (decide _); [reflexivity | f_equal; lia]. }
  split; [|split].
  - intros Hin. rewrite Hl. rewrite decide_False; [reflexivity|].
    rewrite occurrences_zero. auto.
  - intros Hin. rewrite Hl. rewrite decide_True; [reflexivity|].
    apply occurrences_zero, Hin.
  - rewrite Hl. fold (occurrences 0 relative_populations).
    destruct (decide _) as [Hz|Hz]; [rewrite Hz|]; reflexivity.
Qed.

Lemma pop_proportions_counts_witness :
  pop_proportions [0; 1; 0; -1; 0] !! 0 = Some 3 ∧
  pop_proportions [0; 1; 0; -1; 0] !! 2 = None.
Proof.
  split.
  - apply (pop_proportions_counts [0; 1; 0; -1; 0] 0). by_compute.
  - apply (pop_proportions_counts [0; 1; 0; -1; 0] 2). by_compute.
Defined.

Lemma occurrences_Permutation (pop : Z) (l l' : list Z) :
  l ≡ₚ l' -> occurrences pop l = occurrences pop l'.
Proof. intros H. unfold occurrences. rewrite H. reflexivity. Qed.

(** X15. The result of [find_nearest_neighbour_populations], value or
    exception, does not depend on the order in which the tree lists the
    leaves below a node. *)
Theorem find_nearest_neighbour_populations_leaf_order ts t t' focal_sample :
  tree_parent t' focal_sample = tree_parent t focal_sample ->
  (forall p, tree_leaves t' p ≡ₚ tree_leaves t p) ->
  find_nearest_neighbour_populations ts t' focal_sample =
  find_nearest_neighbour_populations ts t focal_sample.
Proof.
  intros Hparent Hleaves.
  destruct (tree_parent t focal_sample) as [p|e] eqn:Hp.
  2:{ unfold find_nearest_neighbour_populations. rewrite Hparent, Hp.
      reflexivity. }
  destruct (decide (p = -1)) as [->|Hne].
  { unfold find_nearest_neighbour_populations. rewrite Hparent, Hp.
    reflexivity. }
  rewrite (find_nearest_neighbour_populations_value ts t' focal_sample p
             Hparent Hne).
  rewrite (find_nearest_neighbour_populations_value ts t focal_sample p Hp Hne).
  set (children := filter (fun c => c ≠ focal_sample) (tree_leaves t p)).
  set (children' := filter (fun c => c ≠ focal_sample) (tree_leaves t' p)).
  assert (Hperm : children' ≡ₚ children).
  { unfold children, children'. rewrite (Hleaves p). reflexivity. }
  assert (Hpops : population_of ts <$> children' ≡ₚ population_of ts <$> children)
    by (rewrite Hperm; reflexivity).
  rewrite (occurrences_Permutation 0 _ _ Hpops).
  rewrite !length_fmap.
  assert (Hlen : length children' = length children)
    by (rewrite Hperm; reflexivity).
  rewrite Hlen.
  destruct (decide (Forall (fun c => is_OK (node ts c)) children)) as [H|H].
  - rewrite decide_True by (rewrite Hperm; exact H). reflexivity.
  - rewrite decide_False; [reflexivity|].
    intros H'. apply H. rewrite <- Hperm. exact H'.
Qed.

Lemma find_nearest_neighbour_populations_leaf_order_witness :
  find_nearest_neighbour_populations example_nodes example_tree_reversed 4 =
  find_nearest_neighbour_populations example_nodes example_tree 4.
Proof.
  apply (find_nearest_neighbour_populations_leaf_order
           example_nodes example_tree example_tree_reversed 4).
  - reflexivity.
  - intros p. apply (reverse_Permutation (tree_leaves example_tree p)).
Defined.

(** * Further properties: [plot_interval] *)

Lemma plot_interval_value ts t focal_sample seq_length ax :
  plot_interval ts t focal_sample seq_length ax =
  match find_nearest_neighbour_populations ts (the_tree t) focal_sample with
  | Err e => (ax, Err e)
  | OK nns =>
      if Qeq_bool seq_length 0 then (ax, Err ZeroDivisionError)
      else (ax ++ [red_bar t seq_length nns; blue_bar t seq_length nns], OK tt)
  end.
Proof.
  unfold plot_interval, float_div, red_bar, blue_bar.
  destruct (find_nearest_neighbour_populations ts (the_tree t) focal_sample)
    as [nns|e]; [|reflexivity].
  destruct (Qeq_bool seq_length 0); [reflexivity|].
  rewrite <- app_assoc. reflexivity.
Qed.

(** X16. [plot_interval] adds its two rectangles or none: when the lookup of
    the neighbours raises, or [seq_length] is zero, the exception
    ([ZeroDivisionError] in the second case) leaves the axes as they were;
    otherwise a red and then a blue rectangle are appended, over the same
    horizontal stretch, the blue one starting at the height where the red
    one ends. *)
Theorem plot_interval_all_or_nothing ts t focal_sample seq_length ax :
  let ax' := (plot_interval ts t focal_sample seq_length ax).1 in
  let r := (plot_interval ts t focal_sample seq_length ax).2 in
  ((exists e, r = Err e) ∧ ax' = ax ∨
   r = OK tt ∧
   exists red blue,
     ax' = ax ++ [red; blue] ∧
     rect_color red = "red"%string ∧ rect_color blue = "blue"%string ∧
     rect_x blue = rect_x red ∧ rect_width blue = rect_width red ∧
     rect_y red = 0%Q ∧ rect_y blue = rect_height red) ∧
  (forall e,
     find_nearest_neighbour_populations ts (the_tree t) focal_sample = Err e ->
     r = Err e) ∧
  (forall nns,
     find_nearest_neighbour_populations ts (the_tree t) focal_sample = OK nns ->
     (r = Err ZeroDivisionError <-> (seq_length == 0)%Q) ∧
     (r = OK tt <-> ¬ (seq_length == 0)%Q)).
Proof.
  intros ax' r. subst ax' r. rewrite plot_interval_value.
  destruct (find_nearest_neighbour_populations ts (the_tree t) focal_sample)
    as [nns|e].
  - pose proof (Qeq_bool_iff seq_length 0) as Hiff.
    destruct (Qeq_bool seq_length 0); simpl.
    + split; [left; eauto|]. split; [discriminate|].
      intros nns' _. split.
      * split; [intros _; apply Hiff; reflexivity | reflexivity].
      * split; [discriminate|]. intros H. exfalso. apply H, Hiff. reflexivity.
    + split.
      { right. split; [reflexivity|].
        exists (red_bar t seq_length nns), (blue_bar t seq_length nns).
        repeat split. }
      split; [discriminate|].
      intros nns' _. split.
      * split; [discriminate|]. intros H. apply Hiff in H. discriminate.
      * split; [|reflexivity]. intros _ H. apply Hiff in H. discriminate.
  - simpl. split; [left; eauto|]. split; [congruence | discriminate].
Qed.

(** X17. For a focal sample whose parent has another leaf (the leaves being
    nodes of the tree sequence) and a sequence length other than zero,
    [plot_interval] draws the red rectangle from 0 up to the proportion of
    neighbours in population 0, which lies between 0 and 1, and on top of it
    a blue rectangle of height 1, so that the blue one ends at 1 plus that
    proportion. *)
Theorem plot_interval_bars ts t focal_sample seq_length ax p :
  ¬ (seq_length == 0)%Q ->
  tree_parent (the_tree t) focal_sample = OK p -> p ≠ -1 ->
  (exists c, c ∈ tree_leaves (the_tree t) p ∧ c ≠ focal_sample) ->
  Forall (fun c => is_OK (node ts c)) (tree_leaves (the_tree t) p) ->
  exists nns red blue,
    find_nearest_neighbour_populations ts (the_tree t) focal_sample = OK nns ∧
    plot_interval ts t focal_sample seq_length ax = (ax ++ [red; blue], OK tt) ∧
    rect_y red = 0%Q ∧ rect_height red = nns.1 ∧
    (0 <= rect_height red)%Q ∧ (rect_height red <= 1)%Q ∧
    rect_y blue = rect_height red ∧
    (rect_height blue == 1)%Q ∧
    (rect_y blue + rect_height blue == 1 + rect_height red)%Q.
Proof.
  intros HL Hp Hne (c & Hc & Hcf) Hnodes.
  rewrite plot_interval_value.
  rewrite (find_nearest_neighbour_populations_value ts (the_tree t)
             focal_sample p Hp Hne).
  set (children := filter (fun c => c ≠ focal_sample)
                     (tree_leaves (the_tree t) p)).
  set (pops := population_of ts <$> children).
  assert (Hall : Forall (fun c => is_OK (node ts c)) children).
  { apply Forall_forall. intros x Hx. unfold children in Hx.
    apply list_elem_of_filter in Hx as [_ Hx].
    rewrite Forall_forall in Hnodes. apply Hnodes, Hx. }
  rewrite decide_True by assumption.
  assert (Hin : c ∈ children) by (apply list_elem_of_filter; auto).
  assert (Hpos : 0 < Z.of_nat (length pops)).
  { unfold pops. rewrite length_fmap.
    destruct children; [inversion Hin | simpl; lia]. }
  rewrite decide_False by lia.
  destruct (Qeq_bool seq_length 0) eqn:Hz;
    [apply Qeq_bool_iff in Hz; contradiction|].
  set (n := Z.of_nat (length pops)) in *.
  assert (Hocc : 0 <= occurrences 0 pops <= n).
  { unfold occurrences, n. pose proof (length_filter (fun x => x = 0) pops).
    lia. }
  pose proof (proportion_nonneg (occurrences 0 pops) n (proj1 Hocc) Hpos) as H0.
  assert (H1 : (0 <= inject_Z (n - occurrences 0 pops) / inject_Z n)%Q)
    by (apply proportion_nonneg; lia).
  assert (Hsum : (inject_Z (occurrences 0 pops) / inject_Z n
                  + inject_Z (n - occurrences 0 pops) / inject_Z n == 1)%Q)
    by (apply proportions_sum; lia).
  eexists _, _, _. split; [reflexivity|]. split; [reflexivity|]. simpl.
  split; [reflexivity|]. split; [reflexivity|]. split; [exact H0|]. split.
  { rewrite <- Hsum. rewrite <- (Qplus_0_r (inject_Z (occurrences 0 pops) / inject_Z n)) at 1.
    apply Qplus_le_compat; [apply Qle_refl | exact H1]. }
  split; [reflexivity|]. split; [exact Hsum|].
  rewrite Hsum. apply Qplus_comm.
Qed.

Lemma plot_interval_bars_witness :
  exists nns red blue,
    find_nearest_neighbour_populations example_nodes
      (the_tree example_tree_on_interval) 0 = OK nns ∧
    plot_interval example_nodes example_tree_on_interval 0 1000 [] =
      ([] ++ [red; blue], OK tt) ∧
    rect_y red = 0%Q ∧ rect_height red = nns.1 ∧
    (0 <= rect_height red)%Q ∧ (rect_height red <= 1)%Q ∧
    rect_y blue = rect_height red ∧
    (rect_height blue == 1)%Q ∧
    (rect_y blue + rect_height blue == 1 + rect_height red)%Q.
Proof.
  apply (plot_interval_bars example_nodes example_tree_on_interval 0 1000 [] 3).
  - discriminate.
  - reflexivity.
  - discriminate.
  - exists 1. split; [by_compute | discriminate].
  - by_compute.
Defined.
